(** * Gravitational memory: the encoding and retrieval engine

    A shallow embedding of [src/services/gravitational.ts] and
    [src/services/storage.ts], with the properties of the engine proved
    over it.

    Conventions of the embedding.
    - A JavaScript string is the sequence of its UTF-16 code units
      ([jsstring], integers in 0..65535); [s.length] is the length of that
      sequence.
    - Integer-valued JavaScript numbers are [Z]; every integer the engine
      stores is far below 2^53, where doubles are exact.  The one
      non-number the descriptor loop can produce is kept as [NaN].
    - Quotients and the weighted score are given twice: as exact rationals
      ([Q]) in [calculateSimilarity] and [queryLibrary], and as the IEEE
      doubles the engine computes, each operation rounded to the nearest
      double, in [Double.calculateSimilarity] and [Double.queryLibrary].
    - [crypto.createHash('sha256')] is SHA-256 as FIPS 180-4 defines it,
      run over the UTF-8 encoding of the string. *)

From Stdlib Require Import ZArith QArith Qround Qpower Lqa Lia List Sorted Permutation.
From stdpp Require Import base strings list gmap.

Local Open Scope Z_scope.

(** ** JavaScript strings *)

Definition jsstring := list Z.

(** [js "abc"] is the JavaScript string with the same (Latin-1) characters. *)
Fixpoint js (s : String.string) : jsstring :=
  match s with
  | String.EmptyString => []
  | String.String c s' => Z.of_N (Ascii.N_of_ascii c) :: js s'
  end.

Arguments js s%_string.

(** UTF-8 encoding of a sequence of UTF-16 code units, as
    [Buffer.from(s, 'utf8')] and [hash.update(s)] compute it: a surrogate
    pair is one 4-byte code point, a lone surrogate becomes U+FFFD. *)
Definition is_high_surrogate (c : Z) : bool := (0xD800 <=? c) && (c <=? 0xDBFF).
Definition is_low_surrogate (c : Z) : bool := (0xDC00 <=? c) && (c <=? 0xDFFF).

Definition utf8_code_point (cp : Z) : list Z :=
  if cp <? 0x80 then [cp]
  else if cp <? 0x800 then
    [Z.lor 0xC0 (Z.shiftr cp 6); Z.lor 0x80 (Z.land cp 0x3F)]
  else if cp <? 0x10000 then
    [Z.lor 0xE0 (Z.shiftr cp 12);
     Z.lor 0x80 (Z.land (Z.shiftr cp 6) 0x3F);
     Z.lor 0x80 (Z.land cp 0x3F)]
  else
    [Z.lor 0xF0 (Z.shiftr cp 18);
     Z.lor 0x80 (Z.land (Z.shiftr cp 12) 0x3F);
     Z.lor 0x80 (Z.land (Z.shiftr cp 6) 0x3F);
     Z.lor 0x80 (Z.land cp 0x3F)].

Fixpoint utf8 (s : jsstring) : list Z :=
  match s with
  | [] => []
  | c :: s' =>
      if is_high_surrogate c then
        match s' with
        | d :: s'' =>
            if is_low_surrogate d then
              utf8_code_point (0x10000 + Z.shiftl (c - 0xD800) 10 + (d - 0xDC00))
                ++ utf8 s''
            else utf8_code_point 0xFFFD ++ utf8 s'
        | [] => utf8_code_point 0xFFFD
        end
      else if is_low_surrogate c then utf8_code_point 0xFFFD ++ utf8 s'
      else utf8_code_point c ++ utf8 s'
  end.

(** [Buffer.byteLength(s, 'utf8')] *)
Definition byteLength (s : jsstring) : Z := Z.of_nat (length (utf8 s)).

(** ** SHA-256 (FIPS 180-4) on 32-bit words held in [Z] *)

Module Sha256.

Definition mask32 (x : Z) : Z := x mod 2 ^ 32.
Definition add32 (x y : Z) : Z := mask32 (x + y).
Definition rotr (n x : Z) : Z :=
  Z.lor (Z.shiftr x n) (mask32 (Z.shiftl x (32 - n))).
Definition not32 (x : Z) : Z := Z.lxor x 0xFFFFFFFF.

Definition Ch (x y z : Z) : Z := Z.lxor (Z.land x y) (Z.land (not32 x) z).
Definition Maj (x y z : Z) : Z :=
  Z.lxor (Z.lxor (Z.land x y) (Z.land x z)) (Z.land y z).
Definition Sigma0 (x : Z) : Z := Z.lxor (Z.lxor (rotr 2 x) (rotr 13 x)) (rotr 22 x).
Definition Sigma1 (x : Z) : Z := Z.lxor (Z.lxor (rotr 6 x) (rotr 11 x)) (rotr 25 x).
Definition sigma0 (x : Z) : Z := Z.lxor (Z.lxor (rotr 7 x) (rotr 18 x)) (Z.shiftr x 3).
Definition sigma1 (x : Z) : Z := Z.lxor (Z.lxor (rotr 17 x) (rotr 19 x)) (Z.shiftr x 10).

(** The constants are the first 32 bits of the fractional parts of the cube
    roots (for [K]) and of the square roots (for [H0]) of the first primes.
    [root_bits b pow n r] refines the integer root [r] of [n] for the power
    [pow], one bit at a time from bit [b - 1] down. *)
Fixpoint root_bits (b : nat) (pow : Z -> Z) (n r : Z) : Z :=
  match b with
  | O => r
  | S b' =>
      let candidate := r + 2 ^ Z.of_nat b' in
      root_bits b' pow n (if pow candidate <=? n then candidate else r)
  end.

Definition fractional_bits (pow : Z -> Z) (scale : Z) (p : Z) : Z :=
  mask32 (root_bits 40 pow (p * 2 ^ scale) 0).

Definition is_prime (p : Z) : bool :=
  forallb (fun d => negb (p mod Z.of_nat d =? 0)) (seq 2 (Z.to_nat p - 2)).

Definition primes : list Z := List.filter is_prime (map Z.of_nat (seq 2 310)).

Definition K : list Z := map (fractional_bits (fun x => x * x * x) 96) primes.

Record regs := Regs { ra : Z; rb : Z; rc : Z; rd : Z; re : Z; rf : Z; rg : Z; rh : Z }.

Definition H0 : regs :=
  match map (fractional_bits (fun x => x * x) 64) (firstn 8 primes) with
  | [a; b; c; d; e; f; g; h] => Regs a b c d e f g h
  | _ => Regs 0 0 0 0 0 0 0 0
  end.

(** Big-endian words of a block of bytes. *)
Fixpoint be_words (bs : list Z) : list Z :=
  match bs with
  | b0 :: b1 :: b2 :: b3 :: rest =>
      (Z.shiftl b0 24 + Z.shiftl b1 16 + Z.shiftl b2 8 + b3) :: be_words rest
  | _ => []
  end.

(** The message schedule, newest word first: [rev_w] holds W[t-1], W[t-2], ... *)
Fixpoint schedule (n : nat) (rev_w : list Z) : list Z :=
  match n with
  | O => rev_w
  | S n' =>
      let w2 := nth 1 rev_w 0 in
      let w7 := nth 6 rev_w 0 in
      let w15 := nth 14 rev_w 0 in
      let w16 := nth 15 rev_w 0 in
      schedule n' (add32 (add32 (add32 (sigma1 w2) w7) (sigma0 w15)) w16 :: rev_w)
  end.

Definition round (r : regs) (kw : Z * Z) : regs :=
  let t1 := add32 (add32 (add32 (add32 (rh r) (Sigma1 (re r))) (Ch (re r) (rf r) (rg r)))
                         (fst kw)) (snd kw) in
  let t2 := add32 (Sigma0 (ra r)) (Maj (ra r) (rb r) (rc r)) in
  Regs (add32 t1 t2) (ra r) (rb r) (rc r) (add32 (rd r) t1) (re r) (rf r) (rg r).

Definition compress (h : regs) (block : list Z) : regs :=
  let w := rev (schedule 48 (rev (be_words block))) in
  let r := fold_left round (combine K w) h in
  Regs (add32 (ra h) (ra r)) (add32 (rb h) (rb r)) (add32 (rc h) (rc r))
       (add32 (rd h) (rd r)) (add32 (re h) (re r)) (add32 (rf h) (rf r))
       (add32 (rg h) (rg r)) (add32 (rh h) (rh r)).

Definition be_bytes (nbytes : nat) (x : Z) : list Z :=
  map (fun i => Z.land (Z.shiftr x (8 * Z.of_nat i)) 0xFF) (rev (seq 0 nbytes)).

Definition pad (msg : list Z) : list Z :=
  let len := Z.of_nat (length msg) in
  msg ++ [0x80] ++ repeat 0 (Z.to_nat ((55 - len) mod 64)) ++ be_bytes 8 (8 * len).

Fixpoint blocks (fuel : nat) (h : regs) (bs : list Z) : regs :=
  match fuel, bs with
  | S fuel', _ :: _ => blocks fuel' (compress h (firstn 64 bs)) (skipn 64 bs)
  | _, _ => h
  end.

Definition words_of (r : regs) : list Z :=
  [ra r; rb r; rc r; rd r; re r; rf r; rg r; rh r].

(** The 32 bytes of the digest. *)
Definition digest (msg : list Z) : list Z :=
  let p := pad msg in
  flat_map (be_bytes 4) (words_of (blocks (length p) H0 p)).

End Sha256.

(** ** Hexadecimal rendering and parsing *)

Definition hex_digit (n : Z) : Z := if n <? 10 then 48 + n else 87 + n.

Definition hex_of_byte (b : Z) : jsstring :=
  [hex_digit (Z.shiftr b 4); hex_digit (Z.land b 0xF)].

(** [buf.toString('hex')] / [hash.digest('hex')]: lowercase, two digits a byte. *)
Definition hex_encode (bs : list Z) : jsstring := flat_map hex_of_byte bs.

Definition hex_value (c : Z) : option Z :=
  if (48 <=? c) && (c <=? 57) then Some (c - 48)
  else if (97 <=? c) && (c <=? 102) then Some (c - 87)
  else if (65 <=? c) && (c <=? 70) then Some (c - 55)
  else None.

(** [Buffer.from(s, 'hex')]: pairs of hex digits, stopping at the first pair
    that is not one (a trailing single character is dropped). *)
Fixpoint Buffer_from_hex (s : jsstring) : list Z :=
  match s with
  | c1 :: c2 :: rest =>
      match hex_value c1, hex_value c2 with
      | Some hi, Some lo => (16 * hi + lo) :: Buffer_from_hex rest
      | _, _ => []
      end
  | _ => []
  end.

(** [crypto.createHash('sha256').update(s).digest('hex')] *)
Definition sha256_bytes (s : jsstring) : list Z := Sha256.digest (utf8 s).
Definition sha256_hex (s : jsstring) : jsstring := hex_encode (sha256_bytes s).

(** ** JavaScript numbers, arrays and regular-expression splits *)

(** The numbers the descriptor loop handles: an integer, or [NaN]. *)
Inductive number := Num (z : Z) | NaN.

(** [a % b]: the remainder has the sign of the dividend; [x % 0] is [NaN]. *)
Definition js_rem (a b : number) : number :=
  match a, b with
  | Num x, Num y => if y =? 0 then NaN else Num (Z.rem x y)
  | _, _ => NaN
  end.

(** [buf[i]] read as a number: a missing element is [undefined], which the
    arithmetic that follows turns into [NaN]. *)
Definition js_index (buf : list Z) (i : number) : number :=
  match i with
  | Num k =>
      if k <? 0 then NaN
      else match buf !! Z.to_nat k with Some b => Num b | None => NaN end
  | NaN => NaN
  end.

(** [arr.slice(start, end)]: negative positions count from the end, both are
    clamped to the array. *)
Definition js_slice {A} (arr : list A) (start end_ : Z) : list A :=
  let len := Z.of_nat (length arr) in
  let k := if start <? 0 then Z.max (len + start) 0 else Z.min start len in
  let final := if end_ <? 0 then Z.max (len + end_) 0 else Z.min end_ len in
  take (Z.to_nat (final - k)) (drop (Z.to_nat k) arr).

(** [arr.join(sep)] on an array of strings. *)
Fixpoint js_join (sep : jsstring) (arr : list jsstring) : jsstring :=
  match arr with
  | [] => []
  | [s] => s
  | s :: rest => s ++ sep ++ js_join sep rest
  end.

(** [s.split(/C+/)] for a character class [C]: the pieces between maximal
    runs of separator characters.  A leading or trailing run leaves an empty
    first or last piece, and the empty string splits into one empty piece.
    [in_sep] says that the previous character was a separator; [cur] is the
    piece being read, last character first. *)
Fixpoint split_runs (sep : Z -> bool) (in_sep : bool) (cur : jsstring) (s : jsstring)
  : list jsstring :=
  match s with
  | [] => [rev cur]
  | c :: s' =>
      if sep c then
        if in_sep then split_runs sep true [] s'
        else rev cur :: split_runs sep true [] s'
      else split_runs sep false (c :: cur) s'
  end.

Definition js_split (sep : Z -> bool) (s : jsstring) : list jsstring :=
  split_runs sep false [] s.

(** The class [\s] of ECMAScript regular expressions. *)
Definition is_space (c : Z) : bool :=
  ((9 <=? c) && (c <=? 13)) || (c =? 32) || (c =? 0xA0) || (c =? 0x1680)
  || ((0x2000 <=? c) && (c <=? 0x200A)) || (c =? 0x2028) || (c =? 0x2029)
  || (c =? 0x202F) || (c =? 0x205F) || (c =? 0x3000) || (c =? 0xFEFF).

(** The class [\w] = [A-Za-z0-9_]; [\W] is its complement. *)
Definition is_word_char (c : Z) : bool :=
  ((65 <=? c) && (c <=? 90)) || ((97 <=? c) && (c <=? 122))
  || ((48 <=? c) && (c <=? 57)) || (c =? 95).
Definition is_non_word (c : Z) : bool := negb (is_word_char c).

(** [s.startsWith(sub)] and [s.includes(sub)] *)
Fixpoint starts_with (s sub : jsstring) : bool :=
  match sub, s with
  | [], _ => true
  | c :: sub', d :: s' => (c =? d) && starts_with s' sub'
  | _ :: _, [] => false
  end.

Fixpoint includes (s sub : jsstring) : bool :=
  starts_with s sub || match s with [] => false | _ :: s' => includes s' sub end.

(** [arr.sort(cmp)]: ECMAScript requires the sort to be stable, so for a
    consistent comparator the result is the one a stable insertion sort
    gives: [a] stays before [b] unless [cmp a b > 0]. *)
Fixpoint sort_insert {A} (cmp : A -> A -> Q) (x : A) (l : list A) : list A :=
  match l with
  | [] => [x]
  | y :: l' => if Qle_bool (cmp x y) 0 then x :: y :: l' else y :: sort_insert cmp x l'
  end.

Fixpoint js_sort {A} (cmp : A -> A -> Q) (arr : list A) : list A :=
  match arr with
  | [] => []
  | x :: arr' => sort_insert cmp x (js_sort cmp arr')
  end.

(** ** The data model of [gravitational.ts] *)

Record GravitationalBit := {
  bit_hash : jsstring;
  states : list number;
  n_max : Z;
  compression_ratio : Q
}.

Record Metadata := {
  word_count : Z;
  character_count : Z;
  created_at : jsstring
}.

Record CompressedChunk := {
  chunk_id : jsstring;
  content : jsstring;
  hash : jsstring;
  gravitational_bit : GravitationalBit;
  metadata : Metadata
}.

Record KnowledgeLibrary := {
  name : jsstring;
  chunks : list CompressedChunk;
  total_compression_ratio : Q;
  library_created_at : jsstring;
  updated_at : jsstring
}.

(** ** The two impure calls: [crypto.randomUUID()] and [new Date()]

    The world supplies the values of successive calls and counts them. *)

Record World := {
  uuid_source : nat -> jsstring;
  clock : nat -> jsstring;
  uuid_calls : nat;
  clock_reads : nat
}.

Definition State (A : Type) : Type := World -> A * World.

#[global] Instance State_ret : MRet State := fun A a w => (a, w).
#[global] Instance State_bind : MBind State :=
  fun A B k m w => let '(a, w') := m w in k a w'.

Definition randomUUID : State jsstring :=
  fun w => (uuid_source w (uuid_calls w),
            {| uuid_source := uuid_source w; clock := clock w;
               uuid_calls := S (uuid_calls w); clock_reads := clock_reads w |}).

(** [new Date().toISOString()] *)
Definition now_iso : State jsstring :=
  fun w => (clock w (clock_reads w),
            {| uuid_source := uuid_source w; clock := clock w;
               uuid_calls := uuid_calls w; clock_reads := S (clock_reads w) |}).

(** [arr.map(f)] for an [f] with effects, run left to right. *)
Fixpoint mapM {A B} (f : A -> State B) (l : list A) : State (list B) :=
  match l with
  | [] => mret []
  | x :: l' => y ← f x; ys ← mapM f l'; mret (y :: ys)
  end.

(** ** [calculateGravitationalStates] *)

(** The levels [n = 1, 2, ..., n_max] the [for] loops run through (none when
    [n_max < 1]). *)
Definition levels (n_max : Z) : list Z :=
  map (fun i => Z.of_nat i) (seq 1 (Z.to_nat n_max)).

Definition calculateGravitationalStates (hash : jsstring) (n_max : Z) : list number :=
  let hashBytes := Buffer_from_hex hash in
  let relevantBytes := js_slice hashBytes 0 16 in
  fold_left
    (fun states n =>
       let orbitalCapacity := 2 * n * n in
       let byteIndex := js_rem (Num (n - 1)) (Num (Z.of_nat (length relevantBytes))) in
       let occupation := js_rem (js_index relevantBytes byteIndex) (Num (orbitalCapacity + 1)) in
       states ++ [occupation])
    (levels n_max) [].

(** ** [compressChunk] *)

Definition compressChunk (content : jsstring) (n_max : Z) : State CompressedChunk :=
  let hash := sha256_hex content in
  let states := calculateGravitationalStates hash n_max in
  (* the product of the [2n² + 1], which nothing reads afterwards *)
  let totalStates :=
    fold_left (fun totalStates n => totalStates * (2 * n * n + 1)) (levels n_max) 1 in
  let originalSize := byteLength content in
  let compressedSize := 32 + Z.of_nat (length states) * 4 in
  let compressionRatio := (inject_Z originalSize / inject_Z compressedSize)%Q in
  let gravitationalBit :=
    {| bit_hash := hash; states := states; n_max := n_max;
       compression_ratio := compressionRatio |} in
  id ← randomUUID;
  created ← now_iso;
  mret {| chunk_id := id;
         content := content;
         hash := hash;
         gravitational_bit := gravitationalBit;
         metadata :=
           {| word_count := Z.of_nat (length (js_split is_space content));
              character_count := Z.of_nat (length content);
              created_at := created |} |}.

(** ** [verifyIntegrity] *)

Definition jsstring_eqb (a b : jsstring) : bool := bool_decide (a = b).

Definition verifyIntegrity (chunk : CompressedChunk) : bool :=
  let recomputedHash := sha256_hex (content chunk) in
  jsstring_eqb recomputedHash (hash chunk).

(** ** [chunkText] *)

(** The loop [for (i = 0; i < words.length; i += targetWordsPerChunk)].  It
    ends only when [i] grows, so the model carries fuel and [None] stands for
    a loop that does not end. *)
Fixpoint chunk_loop (fuel : nat) (words : list jsstring) (targetWordsPerChunk : Z)
    (i : Z) (chunks : list jsstring) : option (list jsstring) :=
  match fuel with
  | O => None
  | S fuel' =>
      if i <? Z.of_nat (length words) then
        let chunkWords := js_slice words i (i + targetWordsPerChunk) in
        chunk_loop fuel' words targetWordsPerChunk (i + targetWordsPerChunk)
                   (chunks ++ [js_join [32] chunkWords])
      else Some chunks
  end.

Definition chunkText (text : jsstring) (targetWordsPerChunk : Z) : option (list jsstring) :=
  let words := js_split is_space text in
  chunk_loop (S (length words)) words targetWordsPerChunk 0 [].

(** ** [createLibrary] *)

Definition createLibrary (name : jsstring) (text : jsstring) (n_max : Z)
  : World -> option (KnowledgeLibrary * World) :=
  fun w =>
    match chunkText text 250 with
    | None => None
    | Some textChunks =>
        Some ((compressedChunks ← mapM (fun chunk => compressChunk chunk n_max) textChunks;
               let totalOriginalSize := Z.of_nat (length text) in
               let totalCompressedSize :=
                 fold_left
                   (fun sum chunk =>
                      sum + 32 + Z.of_nat (length (states (gravitational_bit chunk))) * 4)
                   compressedChunks 0 in
               let totalCompressionRatio :=
                 (inject_Z totalOriginalSize / inject_Z totalCompressedSize)%Q in
               created ← now_iso;
               updated ← now_iso;
               mret {| name := name;
                      chunks := compressedChunks;
                      total_compression_ratio := totalCompressionRatio;
                      library_created_at := created;
                      updated_at := updated |}) w)
    end.

(** ** [calculateSimilarity] and [queryLibrary]

    [String.prototype.toLowerCase] follows the Unicode case tables, which
    the engine does not own: it is a parameter of this section.
    [ascii_toLowerCase] below agrees with it on ASCII text.

    The quotients, products and sum of the score are exact here; the module
    [Double] further down has the same two functions with every operation
    rounded to a double, as the engine runs them. *)

Record ScoredChunk := { chunk : CompressedChunk; score : Q }.

Definition ascii_toLowerCase (s : jsstring) : jsstring :=
  map (fun c => if (65 <=? c) && (c <=? 90) then c + 32 else c) s.

(** The heap of the arrays and objects [queryLibrary] touches.  A library
    object holds a reference to its array of chunks. *)
Definition loc := nat.

Inductive object :=
  | ChunkArray (elems : list CompressedChunk)
  | ScoredArray (elems : list ScoredChunk)
  | LibraryObject (name : jsstring) (chunks : loc) (total_compression_ratio : Q)
                  (created_at updated_at : jsstring).

Abbreviation heap := (list object).

(** Heap computations; [None] is an access the TypeScript types rule out. *)
Definition Heap (A : Type) : Type := heap -> option (A * heap).

#[global] Instance Heap_ret : MRet Heap := fun A a h => Some (a, h).
#[global] Instance Heap_bind : MBind Heap :=
  fun A B k m h => match m h with Some (a, h') => k a h' | None => None end.

Definition alloc (o : object) : Heap loc := fun h => Some (length h, h ++ [o]).
Definition load (l : loc) : Heap object :=
  fun h => match h !! l with Some o => Some (o, h) | None => None end.
Definition store (l : loc) (o : object) : Heap unit :=
  fun h => match h !! l with Some _ => Some (tt, <[l := o]> h) | None => None end.
Definition type_error {A} : Heap A := fun _ => None.

(** [arr.map(f)] from chunks to scored chunks: a new array. *)
Definition array_map_scored (f : CompressedChunk -> ScoredChunk) (arr : loc) : Heap loc :=
  o ← load arr;
  match o with
  | ChunkArray cs => alloc (ScoredArray (map f cs))
  | _ => type_error
  end.

(** [arr.sort(cmp)]: the array at [arr] is rewritten in place. *)
Definition array_sort (cmp : ScoredChunk -> ScoredChunk -> Q) (arr : loc) : Heap loc :=
  o ← load arr;
  match o with
  | ScoredArray scs => _ ← store arr (ScoredArray (js_sort cmp scs)); mret arr
  | _ => type_error
  end.

(** [arr.slice(start, end)]: a new array. *)
Definition array_slice (arr : loc) (start end_ : Z) : Heap loc :=
  o ← load arr;
  match o with
  | ScoredArray scs => alloc (ScoredArray (js_slice scs start end_))
  | ChunkArray cs => alloc (ChunkArray (js_slice cs start end_))
  | _ => type_error
  end.

(** [arr.map(f)] from scored chunks to chunks: a new array. *)
Definition array_map_chunk (f : ScoredChunk -> CompressedChunk) (arr : loc) : Heap loc :=
  o ← load arr;
  match o with
  | ScoredArray scs => alloc (ChunkArray (map f scs))
  | _ => type_error
  end.

Section Similarity.

Variable toLowerCase : jsstring -> jsstring.

Definition calculateSimilarity (query : jsstring) (chunk : CompressedChunk) : Q :=
  let queryHash := sha256_hex (toLowerCase query) in
  let chunkHash := hash chunk in
  let hashSimilarity :=
    fold_left
      (fun hashSimilarity i =>
         if bool_decide (queryHash !! i = chunkHash !! i) then hashSimilarity + 1
         else hashSimilarity)
      (seq 0 (Nat.min (length queryHash) (length chunkHash))) 0 in
  let hashSimilarity := (inject_Z hashSimilarity / inject_Z (Z.of_nat (length queryHash)))%Q in
  let queryWords :=
    List.filter (fun w => 3 <? Z.of_nat (length w)) (js_split is_non_word (toLowerCase query)) in
  let contentWords := js_split is_non_word (toLowerCase (content chunk)) in
  let keywordMatches :=
    fold_left
      (fun keywordMatches qWord =>
         if existsb (fun cWord => includes cWord qWord || includes qWord cWord) contentWords
         then keywordMatches + 1 else keywordMatches)
      queryWords 0 in
  let keywordSimilarity :=
    if 0 <? Z.of_nat (length queryWords)
    then (inject_Z keywordMatches / inject_Z (Z.of_nat (length queryWords)))%Q
    else 0%Q in
  (keywordSimilarity * (7 # 10) + hashSimilarity * (3 # 10))%Q.

(** The comparator [(a, b) => b.score - a.score]. *)
Definition by_score_desc (a b : ScoredChunk) : Q := (score b - score a)%Q.

(** [queryLibrary] on the values: what the returned array holds, given what
    the library's array of chunks holds. *)
Definition queryLibrary (library : KnowledgeLibrary) (query : jsstring) (topK : Z)
  : list CompressedChunk :=
  let scoredChunks :=
    map (fun chunk => {| chunk := chunk; score := calculateSimilarity query chunk |})
        (chunks library) in
  let scoredChunks := js_sort by_score_desc scoredChunks in
  map chunk (js_slice scoredChunks 0 topK).

(** [queryLibrary] on the heap: the library object is read, its array of
    chunks is mapped into a new array, that new array is sorted in place, and
    the result is a slice of it mapped back to chunks. *)
Definition queryLibrary_heap (library : loc) (query : jsstring) (topK : Z) : Heap loc :=
  lib ← load library;
  match lib with
  | LibraryObject _ library_chunks _ _ _ =>
      scoredChunks ←
        array_map_scored
          (fun chunk => {| chunk := chunk; score := calculateSimilarity query chunk |})
          library_chunks;
      _ ← array_sort by_score_desc scoredChunks;
      top ← array_slice scoredChunks 0 topK;
      array_map_chunk chunk top
  | _ => type_error
  end.

End Similarity.

(** ** [LibraryStorage] of [storage.ts]

    The [Map] from library name to library.  [list()] walks a [Map] in
    insertion order, which a [gmap] does not keep; the operations below do
    not depend on it. *)

Module LibraryStorage.

Abbreviation t := (gmap jsstring KnowledgeLibrary).

Definition empty : t := ∅.
Definition save (library : KnowledgeLibrary) (libraries : t) : t :=
  <[name library := library]> libraries.
Definition get (name : jsstring) (libraries : t) : option KnowledgeLibrary :=
  libraries !! name.
Definition exists_ (name : jsstring) (libraries : t) : bool :=
  bool_decide (is_Some (libraries !! name)).
(** [Map.prototype.delete] answers whether the key was there. *)
Definition delete (name : jsstring) (libraries : t) : bool * t :=
  (bool_decide (is_Some (libraries !! name)), base.delete name libraries).
Definition count (libraries : t) : Z := Z.of_nat (size libraries).
Definition clear (libraries : t) : t := ∅.

End LibraryStorage.

(** * Notions the statements use *)

(** A byte. *)
Definition is_byte (b : Z) : Prop := 0 <= b < 256.

(** The occupation the loop body computes at level [n]. *)
Definition occupation (relevantBytes : list Z) (n : Z) : number :=
  js_rem (js_index relevantBytes
            (js_rem (Num (n - 1)) (Num (Z.of_nat (length relevantBytes)))))
         (Num (2 * n * n + 1)).

(** [ceil (a / b)] for [b > 0]. *)
Definition ceil_div (a b : Z) : Z := (a + b - 1) / b.

(** A piece between separators holds no separator. *)
Definition no_sep (sep : Z -> bool) (u : jsstring) : Prop := Forall (fun c => sep c = false) u.

(** The shape of what follows a separator run in a split: every piece but
    the last is non-empty. *)
Fixpoint tail_pieces (sep : Z -> bool) (l : list jsstring) : Prop :=
  match l with
  | [] => False
  | u :: rest =>
      no_sep sep u /\ match rest with [] => True | _ :: _ => u <> [] /\ tail_pieces sep rest end
  end.

(** The shape of a split: only the first and the last piece may be empty. *)
Definition split_pieces (sep : Z -> bool) (l : list jsstring) : Prop :=
  match l with
  | [] => False
  | u :: rest => no_sep sep u /\ match rest with [] => True | _ :: _ => tail_pieces sep rest end
  end.

(** The size [createLibrary] sums over the chunks. *)
Definition totalCompressedSize (compressedChunks : list CompressedChunk) : Z :=
  fold_left
    (fun sum chunk => sum + 32 + Z.of_nat (length (states (gravitational_bit chunk))) * 4)
    compressedChunks 0.

(** ** The score, as the specification words it *)

(** [counts P l n]: exactly [n] elements of [l] satisfy [P]. *)
Inductive counts {A} (P : A -> Prop) : list A -> Z -> Prop :=
  | counts_nil : counts P [] 0
  | counts_yes x l n : P x -> counts P l n -> counts P (x :: l) (n + 1)
  | counts_no x l n : ~ P x -> counts P l n -> counts P (x :: l) n.

(** [infix_of a b]: [a] occurs in [b] as a substring. *)
Definition infix_of (a b : jsstring) : Prop := exists pre post, b = pre ++ a ++ post.

Section SimilaritySpec.

Variable toLowerCase : jsstring -> jsstring.

(** The query tokens that count: split on non-word characters, lower-cased,
    longer than 3 characters. *)
Definition kept_query_tokens (query : jsstring) : list jsstring :=
  filter (fun t => (3 < length t)%nat) (js_split is_non_word (toLowerCase query)).

Definition content_tokens (chunk : CompressedChunk) : list jsstring :=
  js_split is_non_word (toLowerCase (content chunk)).

(** A query token matches when some content token contains it or is
    contained in it. *)
Definition token_matches (chunk : CompressedChunk) (t : jsstring) : Prop :=
  exists c, c ∈ content_tokens chunk /\ (infix_of t c \/ infix_of c t).

(** [keywordScore]: the fraction of the kept query tokens that match, and 0
    when no token is kept. *)
Definition keywordScore_is (query : jsstring) (chunk : CompressedChunk) (s : Q) : Prop :=
  exists matches : Z,
    counts (token_matches chunk) (kept_query_tokens query) matches /\
    s = match kept_query_tokens query with
        | [] => 0%Q
        | _ :: _ => (inject_Z matches / inject_Z (Z.of_nat (length (kept_query_tokens query))))%Q
        end.

(** [digestScore]: the fraction of the positions of the digest of the
    lower-cased query at which the chunk's digest has the same character. *)
Definition digestScore_is (query : jsstring) (chunk : CompressedChunk) (s : Q) : Prop :=
  let queryDigest := sha256_hex (toLowerCase query) in
  exists matches : Z,
    counts (fun i => exists ch, queryDigest !! i = Some ch /\ hash chunk !! i = Some ch)
           (seq 0 (length queryDigest)) matches /\
    s = (inject_Z matches / inject_Z (Z.of_nat (length queryDigest)))%Q.

End SimilaritySpec.

(** ** Ranking *)

(** [(i, a)] ranks before [(j, b)]: a greater key, or the same key and an
    earlier position. *)
Definition ranks_before {A} (key : A -> Q) (p q : nat * A) : Prop :=
  (key (snd q) < key (snd p))%Q \/ ((key (snd q) == key (snd p))%Q /\ (fst p < fst q)%nat).

(** The comparator [(a, b) => key(b) - key(a)], on elements with a position. *)
Definition desc {A} (key : A -> Q) (p q : nat * A) : Q := (key (snd q) - key (snd p))%Q.

(** * Sample data *)

(** A world for the examples: numbered identifiers and a ticking clock. *)
Definition world0 : World :=
  {| uuid_source := fun k => js "00000000-0000-4000-8000-00000000000" ++ [48 + Z.of_nat k];
     clock := fun k => js "2024-01-01T00:00:00.00" ++ [48 + Z.of_nat k] ++ js "Z";
     uuid_calls := 0;
     clock_reads := 0 |}.

(** The text of one hundred [é] (U+00E9): 100 code units, 200 bytes. *)
Definition text_100_e_acute : jsstring := repeat 0xE9 100.

(** A library for the examples. *)
Definition demo_library : KnowledgeLibrary :=
  {| name := js "demo"; chunks := []; total_compression_ratio := 0%Q;
     library_created_at := js "2024-01-01T00:00:00.000Z";
     updated_at := js "2024-01-01T00:00:00.000Z" |}.

Definition sample_chunks : list CompressedChunk :=
  fst (mapM (fun c => compressChunk c 15)
            [js "orbital capacity grows"; js "nothing to see here";
             js "the capacity of a shell"; js "Orbital mechanics"] world0).

Definition sample_library : KnowledgeLibrary :=
  {| name := js "demo"; chunks := sample_chunks; total_compression_ratio := 0%Q;
     library_created_at := js "2024-01-01T00:00:00.000Z";
     updated_at := js "2024-01-01T00:00:00.000Z" |}.

(** A heap holding the array of chunks at 0 and the library object at 1. *)
Definition sample_heap : heap :=
  [ChunkArray sample_chunks;
   LibraryObject (js "demo") 0%nat 0%Q (js "2024-01-01T00:00:00.000Z")
                 (js "2024-01-01T00:00:00.000Z")].

(** * Further notions *)

(** ** The [Map] of [LibraryStorage], with its insertion order

    A JavaScript [Map] keeps its entries in the order their keys were first
    inserted: [set] on a key that is present replaces the value where it
    stands, [delete] takes the entry out, and [values()] (which [list()]
    copies into an array) walks the entries in that order. *)

Module OrderedStorage.

Abbreviation t := (list (jsstring * KnowledgeLibrary)).

Definition empty : t := [].

(** [Map.prototype.set] *)
Fixpoint set (key : jsstring) (value : KnowledgeLibrary) (entries : t) : t :=
  match entries with
  | [] => [(key, value)]
  | (k, v) :: rest =>
      if decide (k = key) then (key, value) :: rest else (k, v) :: set key value rest
  end.

Definition save (library : KnowledgeLibrary) (entries : t) : t :=
  set (name library) library entries.

Fixpoint get (key : jsstring) (entries : t) : option KnowledgeLibrary :=
  match entries with
  | [] => None
  | (k, v) :: rest => if decide (k = key) then Some v else get key rest
  end.

Definition exists_ (key : jsstring) (entries : t) : bool :=
  bool_decide (is_Some (get key entries)).

(** [Map.prototype.delete] *)
Fixpoint delete (key : jsstring) (entries : t) : bool * t :=
  match entries with
  | [] => (false, [])
  | (k, v) :: rest =>
      if decide (k = key) then (true, rest)
      else (fst (delete key rest), (k, v) :: snd (delete key rest))
  end.

(** [Array.from(this.libraries.values())] *)
Definition list (entries : t) : list KnowledgeLibrary := map snd entries.

Definition count (entries : t) : Z := Z.of_nat (length entries).

Definition clear (entries : t) : t := [].

(** What a [Map] keeps true: a key occurs once; and what [save] adds to it:
    a library stands under its own name. *)
Definition well_formed (entries : t) : Prop :=
  NoDup (map fst entries) /\ Forall (fun e => fst e = name (snd e)) entries.

(** The map the entries stand for, order forgotten. *)
Definition view (entries : t) : gmap jsstring KnowledgeLibrary := list_to_map entries.

End OrderedStorage.

(** Every whitespace character of the text is a single U+0020 standing
    alone: no tabs or line breaks, no two spaces in a row. *)
Fixpoint single_spaced (after_space : bool) (s : jsstring) : Prop :=
  match s with
  | [] => True
  | c :: s' =>
      if is_space c then c = 32 /\ after_space = false /\ single_spaced true s'
      else single_spaced false s'
  end.

Definition full_stop_chunk : CompressedChunk :=
  fst (compressChunk (js "Nothing to see here.") 15 world0).

(** A second library and a store of two, for the examples. *)
Definition notes_library : KnowledgeLibrary :=
  {| name := js "notes"; chunks := []; total_compression_ratio := 0%Q;
     library_created_at := js "2024-01-02T00:00:00.000Z";
     updated_at := js "2024-01-02T00:00:00.000Z" |}.

Definition sample_entries : list (jsstring * KnowledgeLibrary) :=
  OrderedStorage.save demo_library (OrderedStorage.save notes_library OrderedStorage.empty).

(** ** The words of a text, the tokens of a content *)

(** The runs a text contains, read off its characters: separators are
    skipped, and a run is a maximal non-empty sequence of characters that are
    not separators, so the text goes on after it with a separator or ends.
    The words of a text are its runs between whitespace; the tokens of a
    content are its runs of word characters. *)
Inductive runs_in (sep : Z -> bool) : jsstring -> list jsstring -> Prop :=
  | runs_in_end : runs_in sep [] []
  | runs_in_sep c s us :
      sep c = true -> runs_in sep s us -> runs_in sep (c :: s) us
  | runs_in_run u s us :
      u <> [] -> no_sep sep u ->
      match s with [] => True | c :: _ => sep c = true end ->
      runs_in sep s us -> runs_in sep (u ++ s) (u :: us).

(** The same runs, computed: [cur] is the run being read, last character
    first. *)
Fixpoint scan_runs (sep : Z -> bool) (cur : jsstring) (s : jsstring) : list jsstring :=
  match s with
  | [] => match cur with [] => [] | _ :: _ => [rev cur] end
  | c :: s' =>
      if sep c then
        match cur with
        | [] => scan_runs sep [] s'
        | _ :: _ => rev cur :: scan_runs sep [] s'
        end
      else scan_runs sep (c :: cur) s'
  end.

Definition text_tokens (s : jsstring) : list jsstring := scan_runs is_non_word [] s.


(** A query token matches a content when one of the tokens of the
    lower-cased content contains it or is contained in it. *)
Definition matches_a_token (toLowerCase : jsstring -> jsstring) (chunk : CompressedChunk)
    (t : jsstring) : Prop :=
  exists c, c ∈ text_tokens (toLowerCase (content chunk)) /\ (infix_of t c \/ infix_of c t).

(** ** The scores as the doubles the engine computes

    A JavaScript number is an IEEE 754 binary64 value, and [/], [*], [+] and
    [-] give the double nearest to the exact result, ties going to the even
    significand.  A finite double is held as the rational it is; the scores,
    their parts and their differences all lie between -1 and 1, far from
    overflow. *)

Module Double.

(** The integer nearest to [x], the even one of the two when [x] lies
    halfway. *)
Definition round_half_even (x : Q) : Z :=
  let f := Qfloor x in
  match (x - inject_Z f ?= 1 # 2)%Q with
  | Lt => f
  | Gt => f + 1
  | Eq => if Z.even f then f else f + 1
  end.

(** [floor (log2 x)] for [0 < x]. *)
Definition floor_log2 (x : Q) : Z :=
  let e := Z.log2 (Qnum x) - Z.log2 (Zpos (Qden x)) in
  if Qle_bool (2 ^ e) x then e else e - 1.

(** The spacing of the doubles around [x > 0]: 53 significant bits, and
    [2^-1074] in the subnormal range. *)
Definition ulp (x : Q) : Q := (2 ^ Z.max (floor_log2 x - 52) (-1074))%Q.

Definition round_positive (x : Q) : Q := (inject_Z (round_half_even (x / ulp x)) * ulp x)%Q.

(** The double nearest to [x]. *)
Definition binary64 (x : Q) : Q :=
  match Qnum x with
  | Z0 => 0%Q
  | Zpos _ => round_positive x
  | Zneg _ => (- round_positive (- x))%Q
  end.

Definition div (a b : Q) : Q := binary64 (a / b).
Definition mul (a b : Q) : Q := binary64 (a * b).
Definition add (a b : Q) : Q := binary64 (a + b).
Definition sub (a b : Q) : Q := binary64 (a - b).

(** The literals [0.7] and [0.3]. *)
Definition lit_0_7 : Q := binary64 (7 # 10).
Definition lit_0_3 : Q := binary64 (3 # 10).

Section Similarity.

Variable toLowerCase : jsstring -> jsstring.

Definition calculateSimilarity (query : jsstring) (chunk : CompressedChunk) : Q :=
  let queryHash := sha256_hex (toLowerCase query) in
  let chunkHash := hash chunk in
  let hashSimilarity :=
    fold_left
      (fun hashSimilarity i =>
         if bool_decide (queryHash !! i = chunkHash !! i) then hashSimilarity + 1
         else hashSimilarity)
      (seq 0 (Nat.min (length queryHash) (length chunkHash))) 0 in
  let hashSimilarity := div (inject_Z hashSimilarity) (inject_Z (Z.of_nat (length queryHash))) in
  let queryWords :=
    List.filter (fun w => 3 <? Z.of_nat (length w)) (js_split is_non_word (toLowerCase query)) in
  let contentWords := js_split is_non_word (toLowerCase (content chunk)) in
  let keywordMatches :=
    fold_left
      (fun keywordMatches qWord =>
         if existsb (fun cWord => includes cWord qWord || includes qWord cWord) contentWords
         then keywordMatches + 1 else keywordMatches)
      queryWords 0 in
  let keywordSimilarity :=
    if 0 <? Z.of_nat (length queryWords)
    then div (inject_Z keywordMatches) (inject_Z (Z.of_nat (length queryWords)))
    else 0%Q in
  add (mul keywordSimilarity lit_0_7) (mul hashSimilarity lit_0_3).

(** The comparator [(a, b) => b.score - a.score]. *)
Definition by_score_desc (a b : ScoredChunk) : Q := sub (score b) (score a).

Definition queryLibrary (library : KnowledgeLibrary) (query : jsstring) (topK : Z)
  : list CompressedChunk :=
  let scoredChunks :=
    map (fun chunk => {| chunk := chunk; score := calculateSimilarity query chunk |})
        (chunks library) in
  let scoredChunks := js_sort by_score_desc scoredChunks in
  map chunk (js_slice scoredChunks 0 topK).

(** [queryLibrary] on the heap, as in the exact model above. *)
Definition queryLibrary_heap (library : loc) (query : jsstring) (topK : Z) : Heap loc :=
  lib ← load library;
  match lib with
  | LibraryObject _ library_chunks _ _ _ =>
      scoredChunks ←
        array_map_scored
          (fun chunk => {| chunk := chunk; score := calculateSimilarity query chunk |})
          library_chunks;
      _ ← array_sort by_score_desc scoredChunks;
      top ← array_slice scoredChunks 0 topK;
      array_map_chunk chunk top
  | _ => type_error
  end.

End Similarity.

End Double.

(** A query of 112 tokens, and a library of two chunks whose exact scores
    on it are the same. *)
Definition long_query : jsstring :=
  js "orbital orbital orbital" ++ concat (repeat (js " zzzz") 109).

Definition tie_library : KnowledgeLibrary :=
  {| name := js "tie";
     chunks := fst (mapM (fun c => compressChunk c 15)
                         [js "orbital note 1"; js "plain note 14"] world0);
     total_compression_ratio := 0%Q;
     library_created_at := js "2024-01-01T00:00:00.000Z";
     updated_at := js "2024-01-01T00:00:00.000Z" |}.

(** * Properties *)

(** ** SHA-256 on the standard test vectors *)

Example sha256_constants :
  length Sha256.primes = 64%nat /\
  firstn 4 Sha256.K = [0x428a2f98; 0x71374491; 0xb5c0fbcf; 0xe9b5dba5] /\
  Sha256.H0 = Sha256.Regs 0x6a09e667 0xbb67ae85 0x3c6ef372 0xa54ff53a
                          0x510e527f 0x9b05688c 0x1f83d9ab 0x5be0cd19.
Proof. vm_compute. repeat split. Qed.

Example sha256_empty :
  sha256_hex [] = js "e3b0c44298fc1c149afbf4c8996fb92427ae41e4649b934ca495991b7852b855".
Proof. vm_compute. reflexivity. Qed.

Example sha256_abc :
  sha256_hex (js "abc") = js "ba7816bf8f01cfea414140de5dae2223b00361a396177a9cb410ff61f20015ad".
Proof. vm_compute. reflexivity. Qed.

Example sha256_hello_world :
  sha256_hex (js "hello world") = js "b94d27b9934d3e08a52e52d7da7dabfac484efe37a5380ee9088f7ace2efcde9".
Proof. vm_compute. reflexivity. Qed.

(** ** Bytes, hexadecimal digits and the digest *)

Lemma land_255_is_byte (x : Z) : is_byte (Z.land x 0xFF).
Proof.
  unfold is_byte. change 0xFF with (Z.ones 8).
  rewrite Z.land_ones by lia. apply Z.mod_pos_bound. lia.
Qed.

Lemma be_bytes_are_bytes (k : nat) (x : Z) : Forall is_byte (Sha256.be_bytes k x).
Proof.
  unfold Sha256.be_bytes. induction (rev (seq 0 k)) as [|i l IH]; constructor;
    [apply land_255_is_byte | exact IH].
Qed.

Lemma digest_length (msg : list Z) : length (Sha256.digest msg) = 32%nat.
Proof.
  unfold Sha256.digest. generalize (Sha256.blocks (length (Sha256.pad msg)) Sha256.H0 (Sha256.pad msg)).
  intros r. reflexivity.
Qed.

Lemma digest_bytes (msg : list Z) : Forall is_byte (Sha256.digest msg).
Proof.
  unfold Sha256.digest. generalize (Sha256.blocks (length (Sha256.pad msg)) Sha256.H0 (Sha256.pad msg)).
  intros r. unfold Sha256.words_of. cbn [flat_map].
  repeat (apply Forall_app; split; [apply be_bytes_are_bytes|]). constructor.
Qed.

Lemma hex_value_digit (n : Z) : 0 <= n < 16 -> hex_value (hex_digit n) = Some n.
Proof.
  intros Hn. rewrite <- (Z2Nat.id n) by lia.
  assert (Hk : (Z.to_nat n < 16)%nat) by lia.
  generalize dependent (Z.to_nat n). intros k Hk.
  do 16 (destruct k as [|k]; [reflexivity|]). lia.
Qed.

Lemma byte_nibbles (b : Z) :
  is_byte b -> 0 <= Z.shiftr b 4 < 16 /\ 0 <= Z.land b 0xF < 16 /\
               16 * Z.shiftr b 4 + Z.land b 0xF = b.
Proof.
  unfold is_byte. intros Hb.
  change 0xF with (Z.ones 4). rewrite Z.land_ones by lia.
  rewrite Z.shiftr_div_pow2 by lia. change (2 ^ 4) with 16.
  pose proof (Z.div_mod b 16 ltac:(lia)). pose proof (Z.mod_pos_bound b 16 ltac:(lia)).
  assert (0 <= b / 16) by (apply Z.div_pos; lia).
  assert (b / 16 < 16) by (apply Z.div_lt_upper_bound; lia).
  lia.
Qed.

(** Parsing the hexadecimal rendering of a sequence of bytes gives it back. *)
Lemma Buffer_from_hex_encode (bs : list Z) :
  Forall is_byte bs -> Buffer_from_hex (hex_encode bs) = bs.
Proof.
  induction 1 as [|b bs Hb _ IH]; [reflexivity|].
  destruct (byte_nibbles b Hb) as (Hhi & Hlo & Heq).
  unfold hex_encode in *. cbn [flat_map hex_of_byte app Buffer_from_hex].
  rewrite (hex_value_digit _ Hhi), (hex_value_digit _ Hlo), IH, Heq. reflexivity.
Qed.

Lemma sha256_bytes_length (s : jsstring) : length (sha256_bytes s) = 32%nat.
Proof. apply digest_length. Qed.

Lemma sha256_hex_decode (s : jsstring) : Buffer_from_hex (sha256_hex s) = sha256_bytes s.
Proof. apply Buffer_from_hex_encode, digest_bytes. Qed.

Lemma hex_encode_length (bs : list Z) : length (hex_encode bs) = (2 * length bs)%nat.
Proof. unfold hex_encode. induction bs as [|b bs IH]; cbn [flat_map app hex_of_byte length]; lia. Qed.

Lemma sha256_hex_length (s : jsstring) : length (sha256_hex s) = 64%nat.
Proof. unfold sha256_hex. rewrite hex_encode_length, sha256_bytes_length. reflexivity. Qed.

(** ** The descriptor loop *)

Lemma fold_left_push {A B} (f : A -> B) (l : list A) (acc : list B) :
  fold_left (fun states n => states ++ [f n]) l acc = acc ++ map f l.
Proof.
  revert acc. induction l as [|x l IH]; intros acc; cbn [fold_left map].
  - now rewrite app_nil_r.
  - rewrite IH, <- app_assoc. reflexivity.
Qed.

Lemma levels_length (n_max : Z) : length (levels n_max) = Z.to_nat n_max.
Proof. unfold levels. now rewrite length_map, length_seq. Qed.

Lemma levels_lookup (n_max n : Z) :
  1 <= n <= n_max -> levels n_max !! Z.to_nat (n - 1) = Some n.
Proof.
  intros Hn. unfold levels. rewrite list_lookup_fmap, lookup_seq_lt by lia.
  cbn. f_equal. lia.
Qed.

Lemma levels_nonpositive (n_max : Z) : n_max < 1 -> levels n_max = [].
Proof. intros Hn. unfold levels. replace (Z.to_nat n_max) with 0%nat by lia. reflexivity. Qed.

Lemma calculateGravitationalStates_map (hash : jsstring) (n_max : Z) :
  calculateGravitationalStates hash n_max
  = map (occupation (js_slice (Buffer_from_hex hash) 0 16)) (levels n_max).
Proof. unfold calculateGravitationalStates. now rewrite fold_left_push. Qed.

Lemma js_slice_prefix {A} (arr : list A) (k : nat) :
  js_slice arr 0 (Z.of_nat k) = take k arr.
Proof.
  unfold js_slice. change (0 <? 0) with false. cbv iota.
  destruct (Z.ltb_spec (Z.of_nat k) 0); [lia|].
  rewrite (Z.min_l 0) by lia. change (Z.to_nat 0) with 0%nat. rewrite drop_0, Z.sub_0_r.
  destruct (Z.min_spec (Z.of_nat k) (Z.of_nat (length arr))) as [[? ->] | [? ->]].
  - now rewrite Nat2Z.id.
  - rewrite Nat2Z.id, !firstn_all2 by lia. reflexivity.
Qed.

Lemma occupation_digest (bytes : list Z) (n : Z) :
  length bytes = 32%nat -> Forall is_byte bytes -> 1 <= n ->
  exists byte,
    bytes !! Z.to_nat ((n - 1) mod 16) = Some byte /\
    occupation (take 16 bytes) n = Num (byte mod (2 * n * n + 1)) /\
    0 <= byte mod (2 * n * n + 1) <= 2 * n * n.
Proof.
  intros Hlen Hbytes Hn.
  pose proof (Z.mod_pos_bound (n - 1) 16 ltac:(lia)) as Hidx.
  destruct (lookup_lt_is_Some_2 bytes (Z.to_nat ((n - 1) mod 16)) ltac:(lia)) as [byte Hbyte].
  exists byte. split; [exact Hbyte|].
  assert (Hb : is_byte byte) by (eapply Forall_lookup_1; eauto).
  assert (Hm : 0 < 2 * n * n + 1) by nia.
  assert (Hlen16 : length (take 16 bytes) = 16%nat) by (rewrite length_take; lia).
  unfold occupation. rewrite Hlen16. change (Z.of_nat 16) with 16.
  cbn [js_rem]. change (16 =? 0) with false. cbv iota.
  rewrite Z.rem_mod_nonneg by lia.
  unfold js_index. destruct (Z.ltb_spec ((n - 1) mod 16) 0); [lia|].
  rewrite lookup_take_lt by lia. rewrite Hbyte. cbn [js_rem].
  destruct (Z.eqb_spec (2 * n * n + 1) 0); [lia|].
  unfold is_byte in Hb. rewrite Z.rem_mod_nonneg by lia.
  split; [reflexivity|].
  pose proof (Z.mod_pos_bound byte (2 * n * n + 1) Hm). lia.
Qed.

(** ** [compressChunk] *)

(** What [compressChunk] returns, whatever the world. *)
Lemma compressChunk_bit (content : jsstring) (n_max : Z) (w : World) :
  gravitational_bit (fst (compressChunk content n_max w))
  = {| bit_hash := sha256_hex content;
       states := calculateGravitationalStates (sha256_hex content) n_max;
       n_max := n_max;
       compression_ratio :=
         (inject_Z (byteLength content)
          / inject_Z (32 + Z.of_nat (length (calculateGravitationalStates (sha256_hex content) n_max)) * 4))%Q |}.
Proof. reflexivity. Qed.

Lemma compressChunk_content (text : jsstring) (n_max : Z) (w : World) :
  content (fst (compressChunk text n_max w)) = text.
Proof. reflexivity. Qed.

Lemma compressChunk_hash (content : jsstring) (n_max : Z) (w : World) :
  hash (fst (compressChunk content n_max w)) = sha256_hex content.
Proof. reflexivity. Qed.

Lemma states_of_digest (content : jsstring) (n_max : Z) :
  calculateGravitationalStates (sha256_hex content) n_max
  = map (occupation (take 16 (sha256_bytes content))) (levels n_max).
Proof.
  rewrite calculateGravitationalStates_map, sha256_hex_decode.
  now rewrite (js_slice_prefix _ 16).
Qed.

(** C1. For every content and every [n_max >= 1], the descriptor holds
    exactly [n_max] states, and the state of level [n] (at index [n - 1]) is
    byte [(n - 1) mod 16] of the SHA-256 digest of the content, reduced
    modulo [2 n² + 1]; hence it lies between 0 and [2 n²]. *)
Theorem compressChunk_states (content : jsstring) (n_max : Z) (w : World) :
  1 <= n_max ->
  let sts := states (gravitational_bit (fst (compressChunk content n_max w))) in
  Z.of_nat (length sts) = n_max /\
  forall n, 1 <= n <= n_max ->
    exists byte,
      sha256_bytes content !! Z.to_nat ((n - 1) mod 16) = Some byte /\
      sts !! Z.to_nat (n - 1) = Some (Num (byte mod (2 * n * n + 1))) /\
      0 <= byte mod (2 * n * n + 1) <= 2 * n * n.
Proof.
  intros Hmax sts. subst sts. rewrite compressChunk_bit. cbn [states].
  rewrite states_of_digest. split.
  - rewrite length_map, levels_length. lia.
  - intros n Hn.
    destruct (occupation_digest (sha256_bytes content) n) as (byte & Hbyte & Hocc & Hrange);
      [apply sha256_bytes_length | apply digest_bytes | lia |].
    exists byte. split; [exact Hbyte|]. split; [|exact Hrange].
    rewrite list_lookup_fmap, (levels_lookup n_max n Hn), <- Hocc. reflexivity.
Qed.

Lemma compressChunk_states_witness :
  1 <= 15 /\
  let sts := states (gravitational_bit (fst (compressChunk (js "abc") 15 world0))) in
  Z.of_nat (length sts) = 15 /\
  forall n, 1 <= n <= 15 ->
    exists byte,
      sha256_bytes (js "abc") !! Z.to_nat ((n - 1) mod 16) = Some byte /\
      sts !! Z.to_nat (n - 1) = Some (Num (byte mod (2 * n * n + 1))) /\
      0 <= byte mod (2 * n * n + 1) <= 2 * n * n.
Proof. split; [lia | apply (compressChunk_states (js "abc") 15 world0); lia]. Defined.

(** C8. The descriptor [compressChunk] computes depends on the content and
    on [n_max] only: in any two worlds (whatever identifier and timestamp
    they hand out) the digest, the states, [n_max] and the ratio agree. *)
Theorem compressChunk_deterministic (text : jsstring) (n_max : Z) (w1 w2 : World) :
  gravitational_bit (fst (compressChunk text n_max w1))
  = gravitational_bit (fst (compressChunk text n_max w2))
  /\ hash (fst (compressChunk text n_max w1)) = hash (fst (compressChunk text n_max w2)).
Proof. split; [now rewrite !compressChunk_bit | now rewrite !compressChunk_hash]. Qed.

(** C7, as the code has it. With [n_max < 1] the encoder rejects nothing: it
    returns a descriptor with the digest of the content, [n_max] as given
    and no state at all, the loop over the levels (the only place where a
    remainder is taken) running over no level. *)
Theorem compressChunk_no_levels (text : jsstring) (nMax : Z) (w : World) :
  nMax < 1 ->
  let bit := gravitational_bit (fst (compressChunk text nMax w)) in
  levels nMax = [] /\
  states bit = [] /\
  bit_hash bit = sha256_hex text /\
  n_max bit = nMax /\
  compression_ratio bit = (inject_Z (byteLength text) / inject_Z 32)%Q.
Proof.
  intros Hn bit. subst bit. rewrite compressChunk_bit.
  cbn [states bit_hash n_max compression_ratio].
  rewrite calculateGravitationalStates_map, (levels_nonpositive nMax Hn).
  repeat split.
Qed.

Lemma compressChunk_no_levels_witness :
  0 < 1 /\
  let bit := gravitational_bit (fst (compressChunk (js "abc") 0 world0)) in
  levels 0 = [] /\
  states bit = [] /\
  bit_hash bit = sha256_hex (js "abc") /\
  n_max bit = 0 /\
  compression_ratio bit = (inject_Z (byteLength (js "abc")) / inject_Z 32)%Q.
Proof. split; [lia | apply (compressChunk_no_levels (js "abc") 0 world0); lia]. Defined.

(** C7, as stated, fails: called with [n_max = 0] the encoder returns a chunk
    whose descriptor has the digest of the content and an empty sequence of
    states. *)
Lemma compressChunk_zero_returns :
  exists chunk w',
    compressChunk (js "abc") 0 world0 = (chunk, w') /\
    0 < 1 /\
    states (gravitational_bit chunk) = [] /\
    bit_hash (gravitational_bit chunk)
    = js "ba7816bf8f01cfea414140de5dae2223b00361a396177a9cb410ff61f20015ad".
Proof. eexists _, _. split; [reflexivity|]. split; [lia|]. split; vm_compute; reflexivity. Qed.

(** Any level the loop does run through takes remainders by a positive
    number only. *)
Lemma levels_moduli_positive (n_max : Z) :
  Forall (fun n => 1 <= n /\ 0 < 2 * n * n + 1) (levels n_max).
Proof.
  unfold levels. apply Forall_forall. intros n Hn.
  apply list_elem_of_fmap in Hn as (i & -> & Hi). apply elem_of_seq in Hi. nia.
Qed.

(** ** Splitting and joining *)

Section Split.

Variable sep : Z -> bool.
Variable sp : Z.
Hypothesis sp_is_sep : sep sp = true.

Lemma tail_pieces_split_pieces (l : list jsstring) : tail_pieces sep l -> split_pieces sep l.
Proof.
  destruct l as [|u [|v rest]]; cbn; [tauto | tauto |]. intros (Hu & _ & Hrest). tauto.
Qed.

Lemma no_sep_rev (u : jsstring) : no_sep sep u -> no_sep sep (rev u).
Proof. unfold no_sep. intros H. now apply Forall_rev. Qed.

Lemma split_runs_shape (s : jsstring) :
  forall (in_sep : bool) (cur : jsstring),
    no_sep sep cur -> (in_sep = true -> cur = []) ->
    split_pieces sep (split_runs sep in_sep cur s) /\
    (in_sep = true \/ cur <> [] -> tail_pieces sep (split_runs sep in_sep cur s)).
Proof.
  induction s as [|c s IH]; intros in_sep cur Hcur Hin; cbn [split_runs].
  - cbn. pose proof (no_sep_rev _ Hcur). tauto.
  - destruct (sep c) eqn:Hc.
    + destruct in_sep.
      * destruct (IH true [] ltac:(constructor) ltac:(reflexivity)) as [Hs Ht].
        split; [exact Hs|]. intros _. apply Ht. now left.
      * destruct (IH true [] ltac:(constructor) ltac:(reflexivity)) as [_ Htail].
        specialize (Htail (or_introl eq_refl)).
        pose proof (no_sep_rev _ Hcur) as Hrev.
        destruct (split_runs sep true [] s) as [|v rest] eqn:E; [destruct Htail|].
        split; [exact (conj Hrev Htail)|]. intros [Habs | Hne]; [discriminate|].
        refine (conj Hrev (conj _ Htail)).
        intros Hnil. apply Hne. apply (f_equal (@rev Z)) in Hnil.
        now rewrite rev_involutive in Hnil.
    + destruct (IH false (c :: cur)) as [Hs Ht]; [constructor; assumption | discriminate |].
      split; [exact Hs|]. intros _. apply Ht. right. discriminate.
Qed.

Lemma js_split_shape (s : jsstring) : split_pieces sep (js_split sep s).
Proof. apply split_runs_shape; [constructor | discriminate]. Qed.

(** Reading a separator-free piece only grows the current piece. *)
Lemma split_runs_piece (u : jsstring) :
  no_sep sep u -> u <> [] ->
  forall in_sep cur s,
    split_runs sep in_sep cur (u ++ s) = split_runs sep false (rev u ++ cur) s.
Proof.
  induction 1 as [|c u Hc Hu IH]; intros Hne in_sep cur s; [congruence|].
  cbn [app split_runs rev]. rewrite Hc.
  destruct u as [|d u].
  - reflexivity.
  - rewrite IH by discriminate. now rewrite <- app_assoc.
Qed.

Lemma split_runs_join_tail (l : list jsstring) :
  tail_pieces sep l -> split_runs sep true [] (js_join [sp] l) = l.
Proof.
  induction l as [|u rest IH]; [intros []|]. intros [Hu Hrest].
  destruct rest as [|v rest].
  - cbn [js_join]. destruct u as [|c u]; [reflexivity|].
    rewrite <- (app_nil_r (c :: u)) at 1. rewrite split_runs_piece by (assumption || discriminate).
    cbn [split_runs]. now rewrite app_nil_r, rev_involutive.
  - destruct Hrest as [Hne Hrest].
    change (js_join [sp] (u :: v :: rest)) with (u ++ [sp] ++ js_join [sp] (v :: rest)).
    rewrite split_runs_piece by assumption. cbn [app split_runs]. rewrite sp_is_sep.
    rewrite app_nil_r, rev_involutive, IH by assumption. reflexivity.
Qed.

(** Splitting the join of the pieces of a split gives the pieces back. *)
Lemma js_split_join (l : list jsstring) :
  split_pieces sep l -> js_split sep (js_join [sp] l) = l.
Proof.
  unfold js_split. destruct l as [|u rest]; [intros []|]. intros [Hu Hrest].
  destruct rest as [|v rest].
  - cbn [js_join]. destruct u as [|c u]; [reflexivity|].
    rewrite <- (app_nil_r (c :: u)) at 1. rewrite split_runs_piece by (assumption || discriminate).
    cbn [split_runs]. now rewrite app_nil_r, rev_involutive.
  - change (js_join [sp] (u :: v :: rest)) with (u ++ [sp] ++ js_join [sp] (v :: rest)).
    destruct u as [|c u].
    + cbn [app split_runs]. rewrite sp_is_sep. cbn [rev].
      now rewrite split_runs_join_tail.
    + rewrite split_runs_piece by (assumption || discriminate).
      cbn [app split_runs]. rewrite sp_is_sep.
      rewrite app_nil_r, rev_involutive, split_runs_join_tail by assumption. reflexivity.
Qed.

(** Segments of a split have the shape of a split. *)
Lemma tail_pieces_take (n : nat) (l : list jsstring) :
  tail_pieces sep l -> tail_pieces sep (take (S n) l).
Proof.
  revert n. induction l as [|u rest IH]; intros n; [intros []|].
  intros [Hu Hrest]. destruct rest as [|v rest].
  - destruct n; exact (conj Hu I).
  - destruct Hrest as [Hne Hrest]. destruct n as [|n]; [exact (conj Hu I)|].
    exact (conj Hu (conj Hne (IH n Hrest))).
Qed.

Lemma split_pieces_take (n : nat) (l : list jsstring) :
  split_pieces sep l -> split_pieces sep (take (S n) l).
Proof.
  destruct l as [|u rest]; [intros []|]. intros [Hu Hrest].
  destruct rest as [|v rest]; [destruct n; exact (conj Hu I)|].
  destruct n as [|n]; [exact (conj Hu I)|].
  exact (conj Hu (tail_pieces_take n _ Hrest)).
Qed.

Lemma tail_pieces_drop (n : nat) (l : list jsstring) :
  tail_pieces sep l -> drop n l <> [] -> tail_pieces sep (drop n l).
Proof.
  revert l. induction n as [|n IH]; intros l Hl Hne; [exact Hl|].
  destruct l as [|u rest]; [destruct Hl|]. cbn [drop] in *.
  destruct rest as [|v rest]; [destruct n; cbn in Hne; congruence|].
  apply IH; [|exact Hne]. destruct Hl as (_ & _ & Hl). exact Hl.
Qed.

Lemma split_pieces_drop (n : nat) (l : list jsstring) :
  split_pieces sep l -> drop n l <> [] -> split_pieces sep (drop n l).
Proof.
  intros Hl Hne. destruct n as [|n]; [exact Hl|].
  destruct l as [|u rest]; [destruct Hl|]. cbn [drop] in *.
  destruct rest as [|v rest]; [destruct n; cbn in Hne; congruence|].
  apply tail_pieces_split_pieces, tail_pieces_drop; [|exact Hne].
  destruct Hl as [_ Hl]. exact Hl.
Qed.

End Split.

(** ** [chunkText] *)

Lemma ceil_div_spec (a b : Z) :
  0 < b -> b * (ceil_div a b - 1) < a <= b * ceil_div a b.
Proof.
  intros Hb. unfold ceil_div.
  pose proof (Z.div_mod (a + b - 1) b ltac:(lia)).
  pose proof (Z.mod_pos_bound (a + b - 1) b Hb). nia.
Qed.

Lemma ceil_div_step (a b : Z) : 0 < b -> 0 < a -> ceil_div a b = 1 + ceil_div (Z.max 0 (a - b)) b.
Proof.
  intros Hb Ha. unfold ceil_div.
  destruct (Z.max_spec 0 (a - b)) as [[Hlt ->] | [Hle ->]].
  - replace (a + b - 1) with (a - b + b - 1 + 1 * b) by lia.
    rewrite Z.div_add by lia. lia.
  - rewrite (Z.div_small (0 + b - 1)) by lia.
    symmetry. apply Z.div_unique with (r := a - 1); lia.
Qed.

Lemma is_space_32 : is_space 32 = true.
Proof. reflexivity. Qed.

Lemma js_slice_segment {A} (arr : list A) (i w : nat) :
  js_slice arr (Z.of_nat i) (Z.of_nat i + Z.of_nat w) = take w (drop i arr).
Proof.
  unfold js_slice.
  destruct (Z.ltb_spec (Z.of_nat i) 0); [lia|].
  destruct (Z.ltb_spec (Z.of_nat i + Z.of_nat w) 0); [lia|].
  destruct (Nat.le_gt_cases (length arr) i) as [Hout | Hin].
  - rewrite (drop_ge arr i) by lia. rewrite take_nil.
    rewrite (Z.min_r (Z.of_nat i)) by lia. rewrite Nat2Z.id, drop_all. apply take_nil.
  - rewrite (Z.min_l (Z.of_nat i)) by lia. rewrite Nat2Z.id.
    destruct (Z.min_spec (Z.of_nat i + Z.of_nat w) (Z.of_nat (length arr))) as [[? ->] | [? ->]].
    + f_equal. lia.
    + rewrite !take_ge; [reflexivity | rewrite length_drop; lia | rewrite length_drop; lia].
Qed.

(** The loop of [chunkText] from word [i] on: it ends, and the pieces it adds
    are the words from [i] on, at most [w] at a time. *)
Lemma chunk_loop_pieces (words : list jsstring) (w : nat) :
  split_pieces is_space words -> (0 < w)%nat ->
  forall (fuel i : nat) (acc : list jsstring),
    (length words - i < fuel)%nat ->
    exists pieces,
      chunk_loop fuel words (Z.of_nat w) (Z.of_nat i) acc = Some (acc ++ pieces) /\
      Z.of_nat (length pieces) = ceil_div (Z.of_nat (length words - i)) (Z.of_nat w) /\
      Forall (fun p => (length (js_split is_space p) <= w)%nat) pieces /\
      concat (map (js_split is_space) pieces) = drop i words.
Proof.
  intros Hwords Hw. induction fuel as [|fuel IH]; intros i acc Hfuel; [lia|].
  cbn [chunk_loop]. destruct (Z.ltb_spec (Z.of_nat i) (Z.of_nat (length words))) as [Hlt | Hge].
  - replace (Z.of_nat i + Z.of_nat w) with (Z.of_nat (i + w)) by lia.
    destruct (IH (i + w)%nat (acc ++ [js_join [32] (js_slice words (Z.of_nat i) (Z.of_nat (i + w)))]))
      as (pieces & Hrun & Hlen & Hsize & Hcat); [lia|].
    replace (Z.of_nat (i + w)) with (Z.of_nat i + Z.of_nat w) in * by lia.
    rewrite js_slice_segment in *.
    assert (Hseg : split_pieces is_space (take w (drop i words))).
    { destruct w as [|w]; [lia|]. apply split_pieces_take, split_pieces_drop; [exact Hwords|].
      intros Hnil. apply (f_equal length) in Hnil. rewrite length_drop in Hnil. cbn in Hnil. lia. }
    pose proof (js_split_join is_space 32 is_space_32 _ Hseg) as Hround.
    exists (js_join [32] (take w (drop i words)) :: pieces). repeat split.
    + rewrite Hrun, <- app_assoc. reflexivity.
    + cbn [length]. rewrite Nat2Z.inj_succ, Hlen.
      rewrite (ceil_div_step (Z.of_nat (length words - i))) by lia.
      replace (Z.max 0 (Z.of_nat (length words - i) - Z.of_nat w))
        with (Z.of_nat (length words - (i + w))) by lia. lia.
    + constructor; [|exact Hsize]. rewrite Hround, length_take. lia.
    + cbn [map concat]. rewrite Hround, Hcat, <- drop_drop. apply take_drop.
  - exists []. repeat split.
    + now rewrite app_nil_r.
    + replace (length words - i)%nat with 0%nat by lia. cbn [length Z.of_nat].
      unfold ceil_div. rewrite Z.div_small; lia.
    + constructor.
    + rewrite drop_ge by lia. reflexivity.
Qed.

(** For a positive chunk size the loop of [chunkText] ends. *)
Lemma chunkText_returns (text : jsstring) (w : Z) :
  0 < w -> exists pieces, chunkText text w = Some pieces.
Proof.
  intros Hw.
  destruct (chunk_loop_pieces (js_split is_space text) (Z.to_nat w)
              (js_split_shape is_space text) ltac:(lia)
              (S (length (js_split is_space text))) 0%nat []) as (pieces & Hrun & _); [lia|].
  rewrite Z2Nat.id in Hrun by lia. exists pieces. exact Hrun.
Qed.

(** The pieces of [text.split(/\s+/)] taken for the words, an empty first
    or last piece among them: for a positive chunk size [w], [chunkText]
    returns; when the split has [S] pieces it returns [ceil (S / w)] pieces,
    each of at most [w] pieces of the split, and the pieces of the split of
    what it returns, in order, are the pieces of the split of the text. *)
Lemma chunkText_pieces (text : jsstring) (w : Z) :
  0 < w ->
  let words := js_split is_space text in
  exists pieces,
    chunkText text w = Some pieces /\
    Z.of_nat (length pieces) = ceil_div (Z.of_nat (length words)) w /\
    Forall (fun p => Z.of_nat (length (js_split is_space p)) <= w) pieces /\
    concat (map (js_split is_space) pieces) = words.
Proof.
  intros Hw words.
  destruct (chunk_loop_pieces words (Z.to_nat w) (js_split_shape is_space text) ltac:(lia)
              (S (length words)) 0%nat []) as (pieces & Hrun & Hlen & Hsize & Hcat); [lia|].
  rewrite Z2Nat.id in * by lia. cbn [Z.of_nat app] in Hrun.
  exists pieces. split; [exact Hrun|]. split; [|split].
  - rewrite Hlen. now rewrite Nat.sub_0_r.
  - eapply Forall_impl; [exact Hsize|]. cbn. intros p Hp. lia.
  - exact Hcat.
Qed.

(** A chunk size that is not positive never lets the loop end. *)
Lemma chunk_loop_stuck (words : list jsstring) (w : Z) :
  w <= 0 -> words <> [] ->
  forall (fuel : nat) (i : Z) (acc : list jsstring),
    i <= 0 -> chunk_loop fuel words w i acc = None.
Proof.
  intros Hw Hne. induction fuel as [|fuel IH]; intros i acc Hi; [reflexivity|].
  cbn [chunk_loop]. destruct (Z.ltb_spec i (Z.of_nat (length words))) as [_ | Hge].
  - apply IH. lia.
  - destruct words; [congruence|]. cbn [length] in Hge. lia.
Qed.

Lemma chunkText_never_ends (text : jsstring) (w : Z) : w <= 0 -> chunkText text w = None.
Proof.
  intros Hw. unfold chunkText. apply chunk_loop_stuck; [exact Hw | | lia].
  intros Hnil. pose proof (js_split_shape is_space text) as Hshape.
  rewrite Hnil in Hshape. exact Hshape.
Qed.

(** The words are the pieces of [text.split(/\s+/)]: a text that ends (or
    starts) with whitespace has an empty last (or first) word, and the empty
    text has one empty word. *)
Example chunkText_trailing_space :
  js_split is_space (js "a ") = [js "a"; []] /\
  chunkText (js "a ") 1 = Some [js "a"; []] /\
  chunkText [] 250 = Some [[]].
Proof. repeat split. Qed.

(** ** The words of a text and the pieces of its split *)

Lemma rev_not_nil {A} (d : A) (cur : list A) : rev (d :: cur) <> [].
Proof.
  intros Hnil. apply (f_equal (@length A)) in Hnil. rewrite length_rev in Hnil. discriminate.
Qed.

Section Runs.

Variable sep : Z -> bool.

Lemma scan_runs_spec (s : jsstring) :
  forall cur, no_sep sep cur -> runs_in sep (rev cur ++ s) (scan_runs sep cur s).
Proof.
  induction s as [|c s IH]; intros cur Hcur; cbn [scan_runs].
  - destruct cur as [|d cur]; [constructor|].
    apply runs_in_run;
      [apply rev_not_nil | now apply no_sep_rev | exact I | constructor].
  - destruct (sep c) eqn:Hc.
    + destruct cur as [|d cur].
      * cbn [rev app]. apply runs_in_sep; [exact Hc|]. apply (IH []). constructor.
      * apply runs_in_run; [apply rev_not_nil | now apply no_sep_rev | exact Hc |].
        apply runs_in_sep; [exact Hc|]. apply (IH []). constructor.
    + specialize (IH (c :: cur)). cbn [rev] in IH. rewrite <- app_assoc in IH. cbn [app] in IH.
      apply IH. constructor; assumption.
Qed.

(** A run is cut off where the separators begin. *)
Lemma run_prefix_unique (u v s t : jsstring) :
  no_sep sep u -> no_sep sep v ->
  match s with [] => True | c :: _ => sep c = true end ->
  match t with [] => True | c :: _ => sep c = true end ->
  u ++ s = v ++ t -> u = v /\ s = t.
Proof.
  intros Hu. revert v. induction Hu as [|a u Ha _ IH]; intros v Hv Hs Ht Heq.
  - destruct Hv as [|b v Hb _]; [now split|].
    cbn [app] in Heq. subst s. congruence.
  - destruct Hv as [|b v Hb Hv].
    + cbn [app] in Heq. subst t. congruence.
    + cbn [app] in Heq. injection Heq as -> Heq.
      destruct (IH v Hv Hs Ht Heq) as [-> ->]. now split.
Qed.

(** A text has one sequence of runs. *)
Lemma runs_in_unique (text : jsstring) (us1 us2 : list jsstring) :
  runs_in sep text us1 -> runs_in sep text us2 -> us1 = us2.
Proof.
  intros H1. revert us2.
  induction H1 as [|c s us Hc _ IH|u s us Hne Hu Hs _ IH]; intros us2 H2.
  - inversion H2 as [|c s us Hc H Hs|u s us Hne Hu Hs H Heq]; [reflexivity|].
    destruct u; [congruence | discriminate].
  - inversion H2 as [|c' s' us' Hc' H Hs|u s' us' Hne Hu Hs H Heq]; subst.
    + now apply IH.
    + destruct u as [|a u]; [congruence|]. cbn [app] in Heq. injection Heq as -> _.
      apply Forall_cons in Hu as [Ha _]. congruence.
  - inversion H2 as [Heq|c' s' us' Hc' H Heq|u' s' us' Hne' Hu' Hs' H Heq]; subst.
    + destruct u; [congruence | discriminate].
    + destruct u as [|a u]; [congruence|]. cbn [app] in Heq. injection Heq as -> _.
      apply Forall_cons in Hu as [Ha _]. congruence.
    + destruct (run_prefix_unique u' u s' s Hu' Hu Hs' Hs Heq) as [-> ->].
      f_equal. now apply IH.
Qed.

(** The runs of a text are the non-empty pieces of its split. *)
Lemma scan_runs_split_runs (s : jsstring) :
  forall in_sep cur, (in_sep = true -> cur = []) ->
    scan_runs sep cur s = filter (fun u => u <> []) (split_runs sep in_sep cur s).
Proof.
  induction s as [|c s IH]; intros in_sep cur Hin; cbn [scan_runs split_runs].
  - destruct cur as [|d cur]; [reflexivity|].
    rewrite filter_cons_True; [reflexivity | apply rev_not_nil].
  - destruct (sep c).
    + destruct in_sep.
      * rewrite Hin by reflexivity. now apply IH.
      * destruct cur as [|d cur].
        -- cbn [rev]. rewrite filter_cons_False by tauto. now apply IH.
        -- rewrite filter_cons_True by apply rev_not_nil. f_equal. now apply IH.
    + apply IH. discriminate.
Qed.


End Runs.


Lemma text_tokens_spec (s : jsstring) : runs_in is_non_word s (text_tokens s).
Proof. apply (scan_runs_spec is_non_word s []). constructor. Qed.


Lemma text_tokens_split (s : jsstring) :
  text_tokens s = filter (fun u => u <> []) (js_split is_non_word s).
Proof. apply scan_runs_split_runs. discriminate. Qed.






(** ** [createLibrary] *)

Lemma mapM_cons {A B} (f : A -> State B) (x : A) (l : list A) (w : World) :
  mapM f (x :: l) w
  = (fst (f x w) :: fst (mapM f l (snd (f x w))), snd (mapM f l (snd (f x w)))).
Proof.
  cbn [mapM]. unfold mbind, State_bind, mret, State_ret.
  destruct (f x w) as [y w1]. cbn [fst snd]. destruct (mapM f l w1) as [ys w2]. reflexivity.
Qed.

(** Every element of [arr.map(f)] is what [f] returned on the matching
    element of [arr], in some world. *)
Lemma mapM_Forall2 {A B} (f : A -> State B) (l : list A) (w : World) :
  Forall2 (fun x y => exists w', y = fst (f x w')) l (fst (mapM f l w)).
Proof.
  revert w. induction l as [|x l IH]; intros w.
  - constructor.
  - rewrite mapM_cons. cbn [fst]. constructor; [eauto | apply IH].
Qed.

Lemma mapM_compressChunk (n_max : Z) (l : list jsstring) (w : World) :
  Forall
    (fun c => hash c = sha256_hex (content c) /\
              length (states (gravitational_bit c)) = Z.to_nat n_max)
    (fst (mapM (fun chunk => compressChunk chunk n_max) l w)).
Proof.
  pose proof (mapM_Forall2 (fun chunk => compressChunk chunk n_max) l w) as H.
  induction H as [|x y l l' (w' & ->) _ IH]; constructor; [|exact IH].
  split; [reflexivity|].
  rewrite compressChunk_bit. cbn [states].
  now rewrite calculateGravitationalStates_map, length_map, levels_length.
Qed.

Lemma mapM_length {A B} (f : A -> State B) (l : list A) (w : World) :
  length (fst (mapM f l w)) = length l.
Proof. symmetry. eapply Forall2_length, mapM_Forall2. Qed.

(** [createLibrary] returns, and this is what it returns. *)
Lemma createLibrary_returns (lib_name text : jsstring) (n_max : Z) (w : World) :
  exists pieces lib w',
    chunkText text 250 = Some pieces /\
    createLibrary lib_name text n_max w = Some (lib, w') /\
    name lib = lib_name /\
    chunks lib = fst (mapM (fun chunk => compressChunk chunk n_max) pieces w) /\
    total_compression_ratio lib
    = (inject_Z (Z.of_nat (length text)) / inject_Z (totalCompressedSize (chunks lib)))%Q.
Proof.
  destruct (chunkText_returns text 250 ltac:(lia)) as (pieces & Hpieces).
  exists pieces. unfold createLibrary. rewrite Hpieces.
  unfold mbind, State_bind, mret, State_ret.
  destruct (mapM (fun chunk => compressChunk chunk n_max) pieces w) as [cs w1] eqn:Hcs.
  cbn [fst]. eexists _, _. split; [reflexivity|]. split; [reflexivity|].
  cbn. repeat split.
Qed.

(** C5. Every chunk of a library that [createLibrary] has just built carries
    the SHA-256 digest of its content, so [verifyIntegrity] accepts it. *)
Theorem createLibrary_integrity (lib_name text : jsstring) (n_max : Z) (w : World) :
  exists lib w',
    createLibrary lib_name text n_max w = Some (lib, w') /\
    Forall (fun c => hash c = sha256_hex (content c) /\ verifyIntegrity c = true) (chunks lib).
Proof.
  destruct (createLibrary_returns lib_name text n_max w)
    as (pieces & lib & w' & _ & Hlib & _ & Hchunks & _).
  exists lib, w'. split; [exact Hlib|]. rewrite Hchunks.
  eapply Forall_impl; [apply (mapM_compressChunk n_max)|].
  cbn. intros c [Hc _]. split; [exact Hc|].
  unfold verifyIntegrity, jsstring_eqb. apply bool_decide_eq_true. now symmetry.
Qed.

(** ** The ratio [createLibrary] records *)

Lemma totalCompressedSize_uniform (k : nat) (cs : list CompressedChunk) :
  Forall (fun c => length (states (gravitational_bit c)) = k) cs ->
  totalCompressedSize cs = Z.of_nat (length cs) * (32 + 4 * Z.of_nat k).
Proof.
  unfold totalCompressedSize. intros H.
  enough (Hgen : forall acc,
            fold_left (fun sum chunk => sum + 32 + Z.of_nat (length (states (gravitational_bit chunk))) * 4)
                      cs acc
            = acc + Z.of_nat (length cs) * (32 + 4 * Z.of_nat k)) by (rewrite Hgen; lia).
  induction H as [|c cs Hc _ IH]; intros acc; cbn [fold_left length].
  - lia.
  - rewrite IH, Hc. lia.
Qed.

(** What the code records: the length of the text in UTF-16 code units over
    [32 + 4 * n_max] bytes a chunk (for [n_max >= 0]). *)
Lemma createLibrary_ratio (lib_name text : jsstring) (n_max : Z) (w : World) :
  0 <= n_max ->
  exists lib w',
    createLibrary lib_name text n_max w = Some (lib, w') /\
    total_compression_ratio lib
    = (inject_Z (Z.of_nat (length text))
       / inject_Z (Z.of_nat (length (chunks lib)) * (32 + 4 * n_max)))%Q.
Proof.
  intros Hn.
  destruct (createLibrary_returns lib_name text n_max w)
    as (pieces & lib & w' & _ & Hlib & _ & Hchunks & Hratio).
  exists lib, w'. split; [exact Hlib|]. rewrite Hratio.
  rewrite (totalCompressedSize_uniform (Z.to_nat n_max)).
  - rewrite Z2Nat.id by lia. reflexivity.
  - rewrite Hchunks. eapply Forall_impl; [apply (mapM_compressChunk n_max)|].
    cbn. intros c [_ Hc]. exact Hc.
Qed.

(** On ASCII text a code unit is a byte. *)
Lemma utf8_ascii (s : jsstring) :
  Forall (fun c => 0 <= c < 128) s -> utf8 s = s.
Proof.
  induction 1 as [|c s Hc _ IH]; [reflexivity|]. cbn [utf8].
  unfold is_high_surrogate, is_low_surrogate, utf8_code_point.
  destruct (Z.leb_spec 0xD800 c); [lia|]. destruct (Z.leb_spec 0xDC00 c); [lia|].
  cbn [andb]. destruct (Z.ltb_spec c 0x80); [|lia]. cbn [app]. now rewrite IH.
Qed.

Lemma byteLength_ascii (s : jsstring) :
  Forall (fun c => 0 <= c < 128) s -> byteLength s = Z.of_nat (length s).
Proof. intros H. unfold byteLength. now rewrite utf8_ascii. Qed.

(** C6, at a text that is not ASCII. [createLibrary] divides the number of
    UTF-16 code units of the text (100), not its number of bytes (200), by
    the 92 bytes of the one descriptor: it records 100/92 where the byte
    length gives 200/92. *)
Theorem createLibrary_ratio_code_units :
  exists lib w',
    createLibrary (js "demo") text_100_e_acute 15 world0 = Some (lib, w') /\
    length (chunks lib) = 1%nat /\
    totalCompressedSize (chunks lib) = 32 + 4 * 15 /\
    Z.of_nat (length text_100_e_acute) = 100 /\
    byteLength text_100_e_acute = 200 /\
    total_compression_ratio lib = (100 # 92)%Q /\
    ~ (total_compression_ratio lib
       == inject_Z (byteLength text_100_e_acute) / inject_Z (totalCompressedSize (chunks lib)))%Q.
Proof.
  destruct (createLibrary (js "demo") text_100_e_acute 15 world0) as [[lib w']|] eqn:E;
    [|vm_compute in E; discriminate].
  exists lib, w'. split; [reflexivity|].
  assert (Hlen : length (chunks lib) = 1%nat).
  { apply (f_equal (option_map (fun p => length (chunks (fst p))))) in E.
    vm_compute in E. injection E as E. symmetry. exact E. }
  assert (Hsize : totalCompressedSize (chunks lib) = 92).
  { apply (f_equal (option_map (fun p => totalCompressedSize (chunks (fst p))))) in E.
    vm_compute in E. injection E as E. symmetry. exact E. }
  assert (Hratio : total_compression_ratio lib = (100 # 92)%Q).
  { apply (f_equal (option_map (fun p => total_compression_ratio (fst p)))) in E.
    vm_compute in E. injection E as E. symmetry. exact E. }
  split; [exact Hlen|]. split; [exact Hsize|]. split; [reflexivity|]. split; [reflexivity|].
  split; [exact Hratio|]. rewrite Hratio, Hsize. vm_compute. discriminate.
Qed.

(** ** [LibraryStorage.delete] *)

(** C9. Deleting a library the store holds answers [true], deleting it again
    answers [false]; deleting a library the store does not hold answers
    [false] and leaves the store as it was. *)
Theorem delete_twice (lib_name : jsstring) (libraries : gmap jsstring KnowledgeLibrary) :
  (is_Some (LibraryStorage.get lib_name libraries) ->
   fst (LibraryStorage.delete lib_name libraries) = true /\
   fst (LibraryStorage.delete lib_name (snd (LibraryStorage.delete lib_name libraries))) = false) /\
  (LibraryStorage.get lib_name libraries = None ->
   LibraryStorage.delete lib_name libraries = (false, libraries)).
Proof.
  unfold LibraryStorage.get, LibraryStorage.delete. cbn [fst snd]. split.
  - intros Hsome. split.
    + now apply bool_decide_eq_true.
    + apply bool_decide_eq_false. rewrite lookup_delete_eq. now intros [? ?].
  - intros Hnone. f_equal.
    + apply bool_decide_eq_false. rewrite Hnone. now intros [? ?].
    + now apply delete_id.
Qed.

Lemma delete_twice_witness :
  (is_Some (LibraryStorage.get (js "demo") (LibraryStorage.save demo_library LibraryStorage.empty)) /\
   fst (LibraryStorage.delete (js "demo") (LibraryStorage.save demo_library LibraryStorage.empty)) = true /\
   fst (LibraryStorage.delete (js "demo")
          (snd (LibraryStorage.delete (js "demo")
                  (LibraryStorage.save demo_library LibraryStorage.empty)))) = false) /\
  (LibraryStorage.get (js "other") (LibraryStorage.save demo_library LibraryStorage.empty) = None /\
   LibraryStorage.delete (js "other") (LibraryStorage.save demo_library LibraryStorage.empty)
   = (false, LibraryStorage.save demo_library LibraryStorage.empty)).
Proof.
  assert (Hdemo : is_Some (LibraryStorage.get (js "demo")
                             (LibraryStorage.save demo_library LibraryStorage.empty))).
  { exists demo_library. apply lookup_insert_eq. }
  assert (Hother : LibraryStorage.get (js "other")
                     (LibraryStorage.save demo_library LibraryStorage.empty) = None).
  { unfold LibraryStorage.get, LibraryStorage.save. rewrite lookup_insert_ne by discriminate.
    apply lookup_empty. }
  split.
  - split; [exact Hdemo|].
    apply (proj1 (delete_twice (js "demo") (LibraryStorage.save demo_library LibraryStorage.empty))).
    exact Hdemo.
  - split; [exact Hother|].
    apply (proj2 (delete_twice (js "other") (LibraryStorage.save demo_library LibraryStorage.empty))).
    exact Hother.
Defined.

(** ** Counting *)

Lemma counts_unique {A} (P : A -> Prop) (l : list A) (n m : Z) :
  counts P l n -> counts P l m -> n = m.
Proof.
  intros Hn. revert m. induction Hn as [|x l n Hx _ IH|x l n Hx _ IH]; intros m Hm;
    inversion Hm; subst; try contradiction; try reflexivity.
  - f_equal. now apply IH.
  - now apply IH.
Qed.

Lemma counts_range {A} (P : A -> Prop) (l : list A) (n : Z) :
  counts P l n -> 0 <= n <= Z.of_nat (length l).
Proof. induction 1; cbn [length]; lia. Qed.

Lemma counts_app_none {A} (P : A -> Prop) (l1 l2 : list A) (n : Z) :
  counts P l1 n -> Forall (fun x => ~ P x) l2 -> counts P (l1 ++ l2) n.
Proof.
  intros H1 H2. induction H1 as [|x l n Hx _ IH|x l n Hx _ IH]; cbn [app].
  - induction H2; constructor; assumption.
  - now constructor.
  - now constructor.
Qed.

(** A counting loop counts. *)
Lemma fold_left_counts {A} (f : A -> bool) (P : A -> Prop) (l : list A) :
  Forall (fun x => f x = true <-> P x) l ->
  forall acc, counts P l (fold_left (fun n x => if f x then n + 1 else n) l acc - acc).
Proof.
  induction 1 as [|x l Hx _ IH]; intros acc; cbn [fold_left].
  - rewrite Z.sub_diag. constructor.
  - destruct (f x) eqn:E.
    + replace (fold_left _ l (acc + 1) - acc)
        with (fold_left (fun n x => if f x then n + 1 else n) l (acc + 1) - (acc + 1) + 1) by lia.
      constructor; [now apply Hx | apply IH].
    + constructor; [|apply IH]. intros HP. apply Hx in HP. congruence.
Qed.

Lemma starts_with_spec (s sub : jsstring) :
  starts_with s sub = true <-> exists post, s = sub ++ post.
Proof.
  revert s. induction sub as [|c sub IH]; intros s.
  - split; [intros _; now exists s | intros _; now destruct s].
  - destruct s as [|d s]; cbn [starts_with].
    + split; [discriminate | intros [post H]; discriminate].
    + rewrite andb_true_iff, IH, Z.eqb_eq. split.
      * intros [-> [post ->]]. now exists post.
      * intros [post H]. injection H as -> ->. split; [reflexivity | now exists post].
Qed.

Lemma includes_spec (s sub : jsstring) : includes s sub = true <-> infix_of sub s.
Proof.
  unfold infix_of. induction s as [|d s IH]; cbn [includes]; rewrite orb_true_iff, starts_with_spec.
  - split.
    + intros [[post H] | H]; [|discriminate]. now exists [], post.
    + intros (pre & post & H). left. destruct pre; [now exists post|discriminate].
  - rewrite IH. split.
    + intros [[post H] | (pre & post & H)].
      * now exists [], post.
      * exists (d :: pre), post. now rewrite H.
    + intros (pre & post & H). destruct pre as [|e pre].
      * left. now exists post.
      * right. injection H as -> ->. now exists pre, post.
Qed.
Lemma filter_bool {A} (f : A -> bool) (P : A -> Prop) `{!forall x, Decision (P x)} (l : list A) :
  (forall x, f x = true <-> P x) -> List.filter f l = filter P l.
Proof.
  intros Hf. induction l as [|x l IH]; [reflexivity|].
  cbn [List.filter]. rewrite filter_cons, IH.
  destruct (f x) eqn:E; destruct (decide (P x)) as [HP | HP]; try reflexivity.
  - exfalso. apply HP, Hf, E.
  - apply Hf in HP. congruence.
Qed.

Lemma fraction_range (m k : Z) :
  0 <= m <= k -> 0 < k -> (0 <= inject_Z m / inject_Z k <= 1)%Q.
Proof.
  intros Hm Hk.
  assert (Hk' : (0 < inject_Z k)%Q) by (unfold Qlt; cbn; lia).
  assert (H0 : (0 <= inject_Z m)%Q) by (unfold Qle; cbn; lia).
  assert (H1 : (inject_Z m <= inject_Z k)%Q) by (unfold Qle; cbn; lia).
  split.
  - apply Qle_shift_div_l; [exact Hk'|]. now rewrite Qmult_0_l.
  - apply Qle_shift_div_r; [exact Hk'|]. now rewrite Qmult_1_l.
Qed.

Section SimilarityFacts.

Variable toLowerCase : jsstring -> jsstring.

Lemma existsb_token_matches (chunk : CompressedChunk) (t : jsstring) :
  existsb (fun cWord => includes cWord t || includes t cWord)
          (js_split is_non_word (toLowerCase (content chunk))) = true
  <-> token_matches toLowerCase chunk t.
Proof.
  unfold token_matches, content_tokens. rewrite existsb_exists. split.
  - intros (c & Hin & Hc). exists c. split; [now apply list_elem_of_In|].
    apply orb_true_iff in Hc. rewrite !includes_spec in Hc. exact Hc.
  - intros (c & Hin & Hc). exists c. split; [now apply list_elem_of_In|].
    apply orb_true_iff. rewrite !includes_spec. exact Hc.
Qed.

Lemma queryWords_kept (query : jsstring) :
  List.filter (fun w => 3 <? Z.of_nat (length w)) (js_split is_non_word (toLowerCase query))
  = kept_query_tokens toLowerCase query.
Proof.
  unfold kept_query_tokens. apply filter_bool. intros t.
  rewrite Z.ltb_lt. lia.
Qed.

(** The loop over the positions of the two digests counts the positions of
    the query digest where the chunk digest has the same character. *)
Lemma hash_loop_counts (queryHash chunkHash : jsstring) :
  counts (fun i => exists ch, queryHash !! i = Some ch /\ chunkHash !! i = Some ch)
         (seq 0 (length queryHash))
         (fold_left
            (fun hashSimilarity i =>
               if bool_decide (queryHash !! i = chunkHash !! i) then hashSimilarity + 1
               else hashSimilarity)
            (seq 0 (Nat.min (length queryHash) (length chunkHash))) 0).
Proof.
  set (m := Nat.min (length queryHash) (length chunkHash)).
  replace (length queryHash) with (m + (length queryHash - m))%nat at 1 by lia.
  rewrite seq_app. apply counts_app_none.
  - rewrite <- (Z.sub_0_r (fold_left _ _ 0)).
    apply (fold_left_counts (fun i => bool_decide (queryHash !! i = chunkHash !! i))).
    apply Forall_forall. intros i Hi. apply elem_of_seq in Hi.
    destruct (lookup_lt_is_Some_2 queryHash i ltac:(lia)) as [a Ha].
    destruct (lookup_lt_is_Some_2 chunkHash i ltac:(lia)) as [b Hb].
    cbv beta. split.
    + intros Hdec. apply bool_decide_eq_true in Hdec. exists a. split; [exact Ha|].
      transitivity (queryHash !! i); [symmetry; exact Hdec | exact Ha].
    + intros (ch & H1 & H2). apply bool_decide_eq_true.
      transitivity (Some ch); [exact H1 | symmetry; exact H2].
  - apply Forall_forall. intros i Hi. apply elem_of_seq in Hi.
    intros (ch & Ha & Hb). apply lookup_lt_Some in Ha, Hb. lia.
Qed.

(** The two scores are functions of the query and the chunk. *)
Lemma keywordScore_is_unique (query : jsstring) (chunk : CompressedChunk) (s1 s2 : Q) :
  keywordScore_is toLowerCase query chunk s1 ->
  keywordScore_is toLowerCase query chunk s2 -> s1 = s2.
Proof.
  intros (m1 & Hm1 & ->) (m2 & Hm2 & ->). now rewrite (counts_unique _ _ _ _ Hm1 Hm2).
Qed.

Lemma digestScore_is_unique (query : jsstring) (chunk : CompressedChunk) (s1 s2 : Q) :
  digestScore_is toLowerCase query chunk s1 ->
  digestScore_is toLowerCase query chunk s2 -> s1 = s2.
Proof.
  intros (m1 & Hm1 & ->) (m2 & Hm2 & ->). now rewrite (counts_unique _ _ _ _ Hm1 Hm2).
Qed.

(** In exact arithmetic, and with every piece of the split of the content
    taken for a content token (an empty piece among them, which is contained
    in every query token): [calculateSimilarity] returns [0.7 * keywordScore
    + 0.3 * digestScore], and the result lies in [0, 1]. *)
Lemma calculateSimilarity_score (query : jsstring) (chunk : CompressedChunk) :
  exists keywordScore digestScore : Q,
    keywordScore_is toLowerCase query chunk keywordScore /\
    digestScore_is toLowerCase query chunk digestScore /\
    (calculateSimilarity toLowerCase query chunk
     == (7 # 10) * keywordScore + (3 # 10) * digestScore)%Q /\
    (0 <= calculateSimilarity toLowerCase query chunk <= 1)%Q.
Proof.
  unfold calculateSimilarity. rewrite queryWords_kept.
  set (kept := kept_query_tokens toLowerCase query).
  set (queryHash := sha256_hex (toLowerCase query)).
  set (keywordMatches := fold_left _ kept 0).
  set (hashMatches := fold_left _ (seq 0 _) 0).
  assert (Hk : counts (token_matches toLowerCase chunk) kept keywordMatches).
  { subst keywordMatches. rewrite <- (Z.sub_0_r (fold_left _ _ 0)).
    apply (fold_left_counts
             (fun qWord => existsb (fun cWord => includes cWord qWord || includes qWord cWord)
                             (js_split is_non_word (toLowerCase (content chunk))))).
    apply Forall_forall. intros t _. apply existsb_token_matches. }
  assert (Hh : counts (fun i => exists ch, queryHash !! i = Some ch /\ hash chunk !! i = Some ch)
                 (seq 0 (length queryHash)) hashMatches)
    by apply hash_loop_counts.
  assert (Hlen : length queryHash = 64%nat) by apply sha256_hex_length.
  pose proof (counts_range _ _ _ Hk) as Hkr.
  pose proof (counts_range _ _ _ Hh) as Hhr. rewrite length_seq in Hhr.
  pose proof (fraction_range hashMatches (Z.of_nat (length queryHash)) Hhr ltac:(lia)) as Hd.
  set (digestScore := (inject_Z hashMatches / inject_Z (Z.of_nat (length queryHash)))%Q) in *.
  match goal with |- context [(?k * (7 # 10) + _)%Q] => set (keywordSimilarity := k) end.
  assert (Hks : keywordScore_is toLowerCase query chunk keywordSimilarity /\
                (0 <= keywordSimilarity <= 1)%Q).
  { subst keywordSimilarity. unfold keywordScore_is. fold kept.
    destruct kept as [|t kept'] eqn:Ekept.
    - match goal with |- context [if ?b then _ else _] => replace b with false by reflexivity end.
      split; [|lra]. exists keywordMatches. split; [exact Hk | reflexivity].
    - match goal with |- context [if ?b then _ else _] => replace b with true by reflexivity end.
      split; [|apply fraction_range; [exact Hkr | cbn [length]; lia]].
      exists keywordMatches. split; [exact Hk | reflexivity]. }
  destruct Hks as [Hspec Hrange].
  exists keywordSimilarity, digestScore. split; [exact Hspec|]. split.
  - exists hashMatches. split; [exact Hh | reflexivity].
  - split; [ring | lra].
Qed.

End SimilarityFacts.

(** ** The stable sort *)

Lemma sort_insert_perm {A} (cmp : A -> A -> Q) (x : A) (l : list A) :
  Permutation (sort_insert cmp x l) (x :: l).
Proof.
  induction l as [|y l IH]; cbn [sort_insert]; [reflexivity|].
  destruct (Qle_bool (cmp x y) 0); [reflexivity|].
  rewrite IH. apply perm_swap.
Qed.

Lemma js_sort_perm {A} (cmp : A -> A -> Q) (l : list A) : Permutation (js_sort cmp l) l.
Proof.
  induction l as [|x l IH]; cbn [js_sort]; [reflexivity|].
  rewrite sort_insert_perm. now constructor.
Qed.

Lemma sort_insert_map {A B} (f : A -> B) (cmp : B -> B -> Q) (x : A) (l : list A) :
  sort_insert cmp (f x) (map f l) = map f (sort_insert (fun a b => cmp (f a) (f b)) x l).
Proof.
  induction l as [|y l IH]; cbn [sort_insert map]; [reflexivity|].
  destruct (Qle_bool (cmp (f x) (f y)) 0); cbn [map]; [reflexivity | now rewrite IH].
Qed.

Lemma js_sort_map {A B} (f : A -> B) (cmp : B -> B -> Q) (l : list A) :
  js_sort cmp (map f l) = map f (js_sort (fun a b => cmp (f a) (f b)) l).
Proof.
  induction l as [|x l IH]; cbn [js_sort map]; [reflexivity|].
  now rewrite IH, sort_insert_map.
Qed.

Section Ranking.

Context {A : Type}.
Variable key : A -> Q.

Lemma ranks_before_trans (p q r : nat * A) :
  ranks_before key p q -> ranks_before key q r -> ranks_before key p r.
Proof.
  unfold ranks_before. intros [Hpq | [Hpq Hi]] [Hqr | [Hqr Hj]].
  - left. lra.
  - left. lra.
  - left. lra.
  - right. split; [lra | lia].
Qed.

Lemma sort_insert_ranked (x : nat * A) (l : list (nat * A)) :
  StronglySorted (ranks_before key) l ->
  Forall (fun y => (fst x < fst y)%nat) l ->
  StronglySorted (ranks_before key) (sort_insert (desc key) x l).
Proof.
  induction 1 as [|y l Hsorted IH Hy]; intros Hx; cbn [sort_insert].
  - repeat constructor.
  - apply Forall_cons in Hx as [Hxy Hx].
    destruct (Qle_bool (desc key x y) 0) eqn:E.
    + apply Qle_bool_iff in E. unfold desc in E.
      assert (Hbefore : ranks_before key x y).
      { unfold ranks_before. destruct (Qlt_le_dec (key (snd y)) (key (snd x))) as [Hlt | Hle].
        - now left.
        - right. split; [lra | exact Hxy]. }
      constructor; [now constructor|]. constructor; [exact Hbefore|].
      eapply Forall_impl; [exact Hy|]. cbn. intros z Hz. now apply ranks_before_trans with y.
    + assert (Hgt : ~ ((desc key) x y <= 0)%Q) by (rewrite <- Qle_bool_iff, E; discriminate).
      unfold desc in Hgt.
      constructor; [now apply IH|].
      rewrite sort_insert_perm. constructor; [|exact Hy].
      left. lra.
Qed.

(** Sorting elements given in the order of their positions ranks them. *)
Lemma js_sort_ranked (l : list (nat * A)) :
  StronglySorted (fun p q => (fst p < fst q)%nat) l ->
  StronglySorted (ranks_before key) (js_sort (desc key) l).
Proof.
  induction 1 as [|x l _ IH Hx]; cbn [js_sort]; [constructor|].
  apply sort_insert_ranked; [exact IH|]. now rewrite js_sort_perm.
Qed.

End Ranking.

Lemma indexed_ascending {A} (l : list A) (start : nat) :
  StronglySorted (fun p q : nat * A => (fst p < fst q)%nat) (combine (seq start (length l)) l).
Proof.
  revert start. induction l as [|x l IH]; intros start; cbn [length seq combine]; constructor.
  - apply IH.
  - apply Forall_forall. intros [j y] Hin. apply list_elem_of_In, in_combine_l, in_seq in Hin.
    cbn. lia.
Qed.

Lemma map_snd_indexed {A} (l : list A) (start : nat) :
  map snd (combine (seq start (length l)) l) = l.
Proof.
  revert start. induction l as [|x l IH]; intros start; cbn [length seq combine map snd];
    [reflexivity | now rewrite IH].
Qed.

Section QueryFacts.

Variable toLowerCase : jsstring -> jsstring.

(** The ranking when the scores are exact rationals: for a positive [topK],
    [queryLibrary] returns [min topK n] of the [n] chunks of the library, the
    first elements of the arrangement of all the chunks (each with its index
    in the library) in which a chunk of greater score comes before one of
    smaller score, and of two chunks of equal score the one inserted first
    comes first. *)
Lemma queryLibrary_ranking (library : KnowledgeLibrary) (query : jsstring) (topK : Z) :
  0 < topK ->
  exists ranked rest : list (nat * CompressedChunk),
    queryLibrary toLowerCase library query topK = map snd ranked /\
    Z.of_nat (length ranked) = Z.min topK (Z.of_nat (length (chunks library))) /\
    Permutation (ranked ++ rest) (combine (seq 0 (length (chunks library))) (chunks library)) /\
    StronglySorted (ranks_before (calculateSimilarity toLowerCase query)) (ranked ++ rest).
Proof.
  intros Hk.
  set (cs := chunks library).
  set (mk := fun c => {| chunk := c; score := calculateSimilarity toLowerCase query c |}).
  set (indexed := combine (seq 0 (length cs)) cs).
  set (all := js_sort (desc (calculateSimilarity toLowerCase query)) indexed).
  assert (Hsorted : js_sort by_score_desc (map mk cs) = map (fun p => mk (snd p)) all).
  { rewrite <- (map_snd_indexed cs 0) at 1. fold indexed. rewrite map_map.
    rewrite js_sort_map. reflexivity. }
  exists (take (Z.to_nat topK) all), (drop (Z.to_nat topK) all).
  assert (Hall : length all = length cs).
  { unfold all. rewrite (Permutation_length (js_sort_perm _ _)). unfold indexed.
    rewrite length_combine, length_seq. lia. }
  repeat split.
  - unfold queryLibrary. fold cs mk. rewrite Hsorted.
    rewrite <- (Z2Nat.id topK) at 1 by lia. rewrite js_slice_prefix.
    rewrite firstn_map, map_map. reflexivity.
  - rewrite length_take, Hall. lia.
  - rewrite take_drop. apply js_sort_perm.
  - rewrite take_drop. apply js_sort_ranked, indexed_ascending.
Qed.

End QueryFacts.

(** ** [queryLibrary] on the heap *)

Lemma load_at (h : heap) (l : loc) (o : object) : h !! l = Some o -> load l h = Some (o, h).
Proof. unfold load. now intros ->. Qed.

Lemma load_last (h : heap) (o : object) : load (length h) (h ++ [o]) = Some (o, h ++ [o]).
Proof. apply load_at. now rewrite list_lookup_middle. Qed.

Lemma store_last (h : heap) (o o' : object) :
  store (length h) o' (h ++ [o]) = Some (tt, h ++ [o']).
Proof.
  unfold store. rewrite list_lookup_middle by reflexivity.
  rewrite insert_app_r_alt by lia. now rewrite Nat.sub_diag.
Qed.

Section QueryHeap.

Variable toLowerCase : jsstring -> jsstring.

(** The run of [queryLibrary]: three arrays are added to the heap (the
    scored chunks, sorted in place; their slice; the chunks returned) and
    nothing else is written. *)
Lemma queryLibrary_heap_run (h : heap) (library cs_loc : loc) (lib : KnowledgeLibrary)
    (cs : list CompressedChunk) (query : jsstring) (topK : Z) :
  h !! library
  = Some (LibraryObject (name lib) cs_loc (total_compression_ratio lib)
                        (library_created_at lib) (updated_at lib)) ->
  h !! cs_loc = Some (ChunkArray (chunks lib)) ->
  exists sorted,
    queryLibrary_heap toLowerCase library query topK h
    = Some (S (S (length h)),
            h ++ [ScoredArray sorted; ScoredArray (js_slice sorted 0 topK);
                  ChunkArray (queryLibrary toLowerCase lib query topK)]).
Proof.
  intros Hlib Hcs.
  set (scs := map (fun c => {| chunk := c; score := calculateSimilarity toLowerCase query c |})
                  (chunks lib)).
  exists (js_sort by_score_desc scs).
  unfold queryLibrary_heap, mbind, Heap_bind. rewrite (load_at _ _ _ Hlib).
  unfold array_map_scored, mbind, Heap_bind. rewrite (load_at _ _ _ Hcs).
  unfold alloc at 1. fold scs.
  unfold array_sort, mbind, Heap_bind. rewrite load_last, store_last.
  unfold mret, Heap_ret.
  unfold array_slice, mbind, Heap_bind. rewrite load_last.
  unfold alloc at 1.
  unfold array_map_chunk, mbind, Heap_bind.
  rewrite (load_at _ (length (h ++ [ScoredArray (js_sort by_score_desc scs)]))
             (ScoredArray (js_slice (js_sort by_score_desc scs) 0 topK)))
    by (now rewrite list_lookup_middle).
  unfold alloc. rewrite !length_app. cbn [length].
  rewrite <- !app_assoc. cbn [app].
  do 2 f_equal. lia.
Qed.

(** C10. [queryLibrary] changes nothing that was on the heap before the
    call: the library object (name, ratio, timestamps, reference to its
    chunks) and the array of its chunks, element for element and in the same
    order, are as they were; the array it returns is a new one. *)
Theorem queryLibrary_heap_frame (h : heap) (library cs_loc : loc) (lib : KnowledgeLibrary)
    (query : jsstring) (topK : Z) :
  h !! library
  = Some (LibraryObject (name lib) cs_loc (total_compression_ratio lib)
                        (library_created_at lib) (updated_at lib)) ->
  h !! cs_loc = Some (ChunkArray (chunks lib)) ->
  exists result h',
    queryLibrary_heap toLowerCase library query topK h = Some (result, h') /\
    (forall l o, h !! l = Some o -> h' !! l = Some o) /\
    h' !! library
    = Some (LibraryObject (name lib) cs_loc (total_compression_ratio lib)
                          (library_created_at lib) (updated_at lib)) /\
    h' !! cs_loc = Some (ChunkArray (chunks lib)) /\
    h !! result = None /\
    h' !! result = Some (ChunkArray (queryLibrary toLowerCase lib query topK)).
Proof.
  intros Hlib Hcs.
  destruct (queryLibrary_heap_run h library cs_loc lib lib.(chunks) query topK Hlib Hcs)
    as (sorted & Hrun).
  eexists _, _. split; [exact Hrun|].
  assert (Hframe : forall l o, h !! l = Some o ->
            (h ++ [ScoredArray sorted; ScoredArray (js_slice sorted 0 topK);
                   ChunkArray (queryLibrary toLowerCase lib query topK)]) !! l = Some o).
  { intros l o Hl. now apply lookup_app_l_Some. }
  split; [exact Hframe|]. split; [now apply Hframe|]. split; [now apply Hframe|]. split.
  - apply lookup_ge_None. lia.
  - rewrite lookup_app_r by lia. replace (S (S (length h)) - length h)%nat with 2%nat by lia.
    reflexivity.
Qed.

End QueryHeap.

(** ** Examples on a small library *)

(** The first and the last chunk tie on a query none of them matches, and
    come back in the order of insertion. *)
Example queryLibrary_tie :
  map (calculateSimilarity ascii_toLowerCase (js "zzzz")) sample_chunks
  = [150 # 6400; 60 # 6400; 30 # 6400; 150 # 6400]%Q /\
  map content (queryLibrary ascii_toLowerCase sample_library (js "zzzz") 2)
  = [js "orbital capacity grows"; js "Orbital mechanics"].
Proof. split; vm_compute; reflexivity. Qed.

Lemma queryLibrary_heap_frame_witness :
  sample_heap !! 1%nat
  = Some (LibraryObject (name sample_library) 0%nat (total_compression_ratio sample_library)
                        (library_created_at sample_library) (updated_at sample_library)) /\
  sample_heap !! 0%nat = Some (ChunkArray (chunks sample_library)) /\
  exists result h',
    queryLibrary_heap ascii_toLowerCase 1%nat (js "Orbital capacity") 2 sample_heap
    = Some (result, h') /\
    (forall l o, sample_heap !! l = Some o -> h' !! l = Some o) /\
    h' !! 1%nat
    = Some (LibraryObject (name sample_library) 0%nat (total_compression_ratio sample_library)
                          (library_created_at sample_library) (updated_at sample_library)) /\
    h' !! 0%nat = Some (ChunkArray (chunks sample_library)) /\
    sample_heap !! result = None /\
    h' !! result
    = Some (ChunkArray (queryLibrary ascii_toLowerCase sample_library (js "Orbital capacity") 2)).
Proof.
  split; [reflexivity|]. split; [reflexivity|].
  apply (queryLibrary_heap_frame ascii_toLowerCase sample_heap 1%nat 0%nat sample_library
           (js "Orbital capacity") 2); reflexivity.
Defined.

(** ** Rounding to a double *)

Lemma round_half_even_floor (x : Q) : Qfloor x <= Double.round_half_even x.
Proof.
  unfold Double.round_half_even.
  destruct (x - inject_Z (Qfloor x) ?= 1 # 2)%Q; [destruct (Z.even (Qfloor x))| |]; lia.
Qed.

Lemma round_half_even_lower (k : Z) (x : Q) :
  (inject_Z k <= x)%Q -> k <= Double.round_half_even x.
Proof.
  intros Hx. pose proof (Qfloor_resp_le _ _ Hx) as Hf. rewrite Qfloor_Z in Hf.
  pose proof (round_half_even_floor x). lia.
Qed.

Lemma ulp_positive (x : Q) : (0 < Double.ulp x)%Q.
Proof. unfold Double.ulp. apply Qpower_0_lt. reflexivity. Qed.

(** The powers of two from [2^-1074] up are multiples of [2^-1074]. *)
Lemma pow2_grid (e : Z) :
  -1074 <= e -> (2 ^ e == inject_Z (2 ^ (e + 1074)) * 2 ^ (-1074))%Q.
Proof.
  intros He. rewrite Zpower_Qpower by lia. change (inject_Z 2) with 2%Q.
  rewrite <- Qpower_plus by discriminate.
  replace (e + 1074 + -1074) with e by lia. reflexivity.
Qed.

(** Every double is a multiple of the least positive double. *)
Lemma binary64_grid (x : Q) : exists n : Z, (Double.binary64 x == inject_Z n * 2 ^ (-1074))%Q.
Proof.
  assert (Hpos : forall y, exists n : Z, (Double.round_positive y == inject_Z n * 2 ^ (-1074))%Q).
  { intros y. unfold Double.round_positive.
    set (m := Double.round_half_even _). unfold Double.ulp.
    set (e := Z.max _ _). assert (He : -1074 <= e) by (subst e; lia).
    exists (m * 2 ^ (e + 1074)). rewrite (pow2_grid e He), inject_Z_mult. ring. }
  unfold Double.binary64. destruct (Qnum x).
  - exists 0. ring.
  - apply Hpos.
  - destruct (Hpos (- x)%Q) as [n Hn]. exists (- n). rewrite Hn, inject_Z_opp. ring.
Qed.

(** [Z.log2] of the numerator and of the denominator place a positive
    rational within a factor 2. *)
Lemma log2_bounds (x : Q) :
  (0 < x)%Q ->
  let e := Z.log2 (Qnum x) - Z.log2 (Zpos (Qden x)) in
  (2 ^ (e - 1) < x /\ x < 2 ^ (e + 1))%Q.
Proof.
  destruct x as [n d]. intros Hn e. cbn [Qnum Qden] in e.
  assert (Hn' : 0 < n) by (unfold Qlt in Hn; cbn [Qnum Qden] in Hn; lia).
  pose proof (Z.log2_spec n Hn') as Hnum.
  pose proof (Z.log2_spec (Zpos d) ltac:(lia)) as Hden.
  pose proof (Z.log2_nonneg n) as Ha. pose proof (Z.log2_nonneg (Zpos d)) as Hb.
  subst e. set (a := Z.log2 n) in *. set (b := Z.log2 (Zpos d)) in *.
  assert (Hpa : 0 < 2 ^ a) by (apply Z.pow_pos_nonneg; lia).
  assert (Hpb : 0 < 2 ^ b) by (apply Z.pow_pos_nonneg; lia).
  assert (Hpa' : 0 < 2 ^ Z.succ a) by (apply Z.pow_pos_nonneg; lia).
  assert (Hpb' : 0 < 2 ^ Z.succ b) by (apply Z.pow_pos_nonneg; lia).
  split.
  - replace (a - b - 1) with (a - Z.succ b) by lia.
    rewrite Qpower_minus by discriminate. change 2%Q with (inject_Z 2).
    rewrite <- !Zpower_Qpower by lia.
    set (A := 2 ^ a) in *. set (B := 2 ^ Z.succ b) in *.
    apply Qlt_shift_div_r; [change 0%Q with (inject_Z 0); now rewrite <- Zlt_Qlt|].
    unfold Qlt, Qmult, inject_Z. cbn [Qnum Qden].
    rewrite Pos.mul_1_r, !Z.mul_1_r. nia.
  - replace (a - b + 1) with (Z.succ a - b) by lia.
    rewrite Qpower_minus by discriminate. change 2%Q with (inject_Z 2).
    rewrite <- !Zpower_Qpower by lia.
    set (A := 2 ^ Z.succ a) in *. set (B := 2 ^ b) in *.
    apply Qlt_shift_div_l; [change 0%Q with (inject_Z 0); now rewrite <- Zlt_Qlt|].
    unfold Qlt, Qmult, inject_Z. cbn [Qnum Qden].
    rewrite Pos.mul_1_r, !Z.mul_1_r. nia.
Qed.

Lemma floor_log2_spec (x : Q) :
  (0 < x)%Q -> (2 ^ Double.floor_log2 x <= x /\ x < 2 ^ (Double.floor_log2 x + 1))%Q.
Proof.
  intros Hx. destruct (log2_bounds x Hx) as [Hlow Hhigh]. unfold Double.floor_log2.
  set (e := Z.log2 (Qnum x) - Z.log2 (Zpos (Qden x))) in *.
  destruct (Qle_bool (2 ^ e) x) eqn:E.
  - apply Qle_bool_iff in E. split; assumption.
  - assert (Hlt : (x < 2 ^ e)%Q).
    { apply Qnot_le_lt. intros Hle. apply Qle_bool_iff in Hle. congruence. }
    replace (e - 1 + 1) with e by lia. split; [apply Qlt_le_weak|]; assumption.
Qed.

Lemma ulp_below (x : Q) : (2 ^ (-1074) <= x)%Q -> (Double.ulp x <= x)%Q.
Proof.
  intros Hx.
  assert (Hpos : (0 < x)%Q).
  { eapply Qlt_le_trans; [|exact Hx]. apply Qpower_0_lt. reflexivity. }
  destruct (floor_log2_spec x Hpos) as [Hlow _]. unfold Double.ulp.
  destruct (Z.max_spec (Double.floor_log2 x - 52) (-1074)) as [[_ ->] | [_ ->]]; [exact Hx|].
  eapply Qle_trans; [|exact Hlow]. apply Qpower_le_compat_l; [lia | discriminate].
Qed.

Lemma round_positive_nonneg (x : Q) : (0 <= x)%Q -> (0 <= Double.round_positive x)%Q.
Proof.
  intros Hx. unfold Double.round_positive. pose proof (ulp_positive x) as Hu.
  apply Qmult_le_0_compat; [|now apply Qlt_le_weak].
  change 0%Q with (inject_Z 0). rewrite <- Zle_Qle. apply round_half_even_lower.
  apply Qle_shift_div_l; [exact Hu|]. change (inject_Z 0) with 0%Q. now rewrite Qmult_0_l.
Qed.

Lemma round_positive_positive (x : Q) :
  (2 ^ (-1074) <= x)%Q -> (0 < Double.round_positive x)%Q.
Proof.
  intros Hx. unfold Double.round_positive. pose proof (ulp_positive x) as Hu.
  apply Qmult_lt_0_compat; [|exact Hu].
  change 0%Q with (inject_Z 0). rewrite <- Zlt_Qlt.
  assert (1 <= Double.round_half_even (x / Double.ulp x)); [|lia].
  apply round_half_even_lower. apply Qle_shift_div_l; [exact Hu|].
  change (inject_Z 1) with 1%Q. rewrite Qmult_1_l. now apply ulp_below.
Qed.

Lemma round_half_even_nearest (y : Q) :
  (- (1 # 2) <= inject_Z (Double.round_half_even y) - y <= 1 # 2)%Q.
Proof.
  unfold Double.round_half_even.
  pose proof (Qfloor_le y) as Hlow. pose proof (Qlt_floor y) as Hhigh.
  rewrite inject_Z_plus in Hhigh. change (inject_Z 1) with 1%Q in Hhigh.
  destruct (Qcompare_spec (y - inject_Z (Qfloor y)) (1 # 2)) as [Heq | Hlt | Hgt];
    [destruct (Z.even (Qfloor y))| |];
    rewrite ?inject_Z_plus; change (inject_Z 1) with 1%Q; lra.
Qed.

(** The double is within half the spacing of the number it rounds. *)
Lemma round_positive_nearest (x : Q) :
  (- (Double.ulp x / 2) <= Double.round_positive x - x <= Double.ulp x / 2)%Q.
Proof.
  unfold Double.round_positive. pose proof (ulp_positive x) as Hu.
  pose proof (round_half_even_nearest (x / Double.ulp x)) as Hr.
  set (u := Double.ulp x) in *. set (r := inject_Z _) in *.
  assert (Hx : (x == x / u * u)%Q) by (field; lra).
  assert (Hd : (r * u - x == (r - x / u) * u)%Q) by (rewrite Hx at 1; ring).
  rewrite Hd. destruct Hr as [Hr1 Hr2].
  apply (Qmult_le_compat_r _ _ u) in Hr1; [|lra].
  apply (Qmult_le_compat_r _ _ u) in Hr2; [|lra].
  split; [eapply Qle_trans; [|exact Hr1] | eapply Qle_trans; [exact Hr2|]];
    apply Qle_lteq; right; field.
Qed.

Lemma round_half_even_upper (k : Z) (x : Q) :
  (x <= inject_Z k)%Q -> Double.round_half_even x <= k.
Proof.
  intros Hx. pose proof (Qfloor_resp_le _ _ Hx) as Hf. rewrite Qfloor_Z in Hf.
  unfold Double.round_half_even.
  assert (Hstep : (1 # 2 <= x - inject_Z (Qfloor x))%Q -> Qfloor x + 1 <= k).
  { intros Hr. assert (Hlt : (inject_Z (Qfloor x) < inject_Z k)%Q) by lra.
    rewrite <- Zlt_Qlt in Hlt. lia. }
  destruct (Qcompare_spec (x - inject_Z (Qfloor x)) (1 # 2)) as [Heq | Hlt | Hgt].
  - destruct (Z.even (Qfloor x)); [exact Hf|]. apply Hstep. lra.
  - exact Hf.
  - apply Hstep. lra.
Qed.

Lemma round_half_even_mono (a b : Q) :
  (a <= b)%Q -> Double.round_half_even a <= Double.round_half_even b.
Proof.
  intros Hab. pose proof (Qfloor_resp_le _ _ Hab) as Hf.
  destruct (Z.eq_dec (Qfloor a) (Qfloor b)) as [Heq | Hne].
  - unfold Double.round_half_even. rewrite <- Heq.
    destruct (Qcompare_spec (a - inject_Z (Qfloor a)) (1 # 2)) as [Ha | Ha | Ha];
      destruct (Qcompare_spec (b - inject_Z (Qfloor a)) (1 # 2)) as [Hb | Hb | Hb];
      try destruct (Z.even (Qfloor a)); try lia; exfalso; lra.
  - pose proof (round_half_even_floor b) as Hb.
    assert (Ha : Double.round_half_even a <= Qfloor a + 1).
    { unfold Double.round_half_even.
      destruct (a - inject_Z (Qfloor a) ?= 1 # 2)%Q; [destruct (Z.even (Qfloor a))| |]; lia. }
    lia.
Qed.

Lemma floor_log2_mono (x y : Q) :
  (0 < x)%Q -> (x <= y)%Q -> Double.floor_log2 x <= Double.floor_log2 y.
Proof.
  intros Hx Hxy.
  destruct (floor_log2_spec x Hx) as [Hlow _].
  destruct (floor_log2_spec y ltac:(lra)) as [_ Hhigh].
  assert (Hlt : (2 ^ Double.floor_log2 x < 2 ^ (Double.floor_log2 y + 1))%Q) by lra.
  apply Qpower_lt_compat_l_inv in Hlt; [lia | reflexivity].
Qed.

Lemma pow2_quotient (e q : Z) : q <= e -> (2 ^ e / 2 ^ q == inject_Z (2 ^ (e - q)))%Q.
Proof.
  intros Hq. rewrite Zpower_Qpower by lia. change (inject_Z 2) with 2%Q.
  now rewrite Qpower_minus by discriminate.
Qed.

Lemma round_positive_mono (x y : Q) :
  (0 < x)%Q -> (x <= y)%Q -> (Double.round_positive x <= Double.round_positive y)%Q.
Proof.
  intros Hx Hxy. assert (Hy : (0 < y)%Q) by lra.
  pose proof (floor_log2_mono x y Hx Hxy) as He.
  destruct (floor_log2_spec x Hx) as [_ Hxhigh].
  destruct (floor_log2_spec y Hy) as [Hylow _].
  unfold Double.round_positive, Double.ulp.
  set (ex := Double.floor_log2 x) in *. set (ey := Double.floor_log2 y) in *.
  set (qx := Z.max (ex - 52) (-1074)). set (qy := Z.max (ey - 52) (-1074)).
  assert (Hux : (0 < 2 ^ qx)%Q) by (apply Qpower_0_lt; reflexivity).
  assert (Huy : (0 < 2 ^ qy)%Q) by (apply Qpower_0_lt; reflexivity).
  destruct (Z.eq_dec qx qy) as [Heq | Hne].
  - rewrite <- Heq. apply Qmult_le_compat_r; [|lra].
    rewrite <- Zle_Qle. apply round_half_even_mono.
    apply Qmult_le_compat_r; [exact Hxy|]. apply Qlt_le_weak, Qinv_lt_0_compat, Hux.
  - assert (Hqy : qy = ey - 52) by lia. assert (Hexy : ex + 1 <= ey) by lia.
    apply Qle_trans with (2 ^ ey)%Q.
    + assert (Hxe : (x <= 2 ^ ey)%Q).
      { apply Qle_trans with (2 ^ (ex + 1))%Q; [lra|].
        apply Qpower_le_compat_l; [exact Hexy | discriminate]. }
      assert (Hr : Double.round_half_even (x / 2 ^ qx) <= 2 ^ (ey - qx)).
      { apply round_half_even_upper. rewrite <- pow2_quotient by lia.
        apply Qmult_le_compat_r; [exact Hxe|]. apply Qlt_le_weak, Qinv_lt_0_compat, Hux. }
      rewrite Zle_Qle in Hr. apply (Qmult_le_compat_r _ _ (2 ^ qx)) in Hr; [|lra].
      eapply Qle_trans; [exact Hr|]. rewrite <- pow2_quotient by lia.
      apply Qle_lteq. right. field. lra.
    + assert (Hr : 2 ^ (ey - qy) <= Double.round_half_even (y / 2 ^ qy)).
      { apply round_half_even_lower. rewrite <- pow2_quotient by lia.
        apply Qmult_le_compat_r; [exact Hylow|]. apply Qlt_le_weak, Qinv_lt_0_compat, Huy. }
      rewrite Zle_Qle in Hr. apply (Qmult_le_compat_r _ _ (2 ^ qy)) in Hr; [|lra].
      eapply Qle_trans; [|exact Hr]. rewrite <- pow2_quotient by lia.
      apply Qle_lteq. right. field. lra.
Qed.

(** Rounding keeps the order. *)
Lemma binary64_mono (x y : Q) : (x <= y)%Q -> (Double.binary64 x <= Double.binary64 y)%Q.
Proof.
  intros Hxy. destruct x as [nx dx], y as [ny dy]. unfold Double.binary64. cbn [Qnum].
  destruct nx as [|px|px], ny as [|py|py];
    try (exfalso; unfold Qle in Hxy; cbn in Hxy; lia).
  - lra.
  - apply round_positive_nonneg. unfold Qle. cbn. lia.
  - apply round_positive_mono; [reflexivity | exact Hxy].
  - assert (H := round_positive_nonneg (- (Z.neg px # dx))%Q ltac:(unfold Qle; cbn; lia)). lra.
  - assert (H := round_positive_nonneg (- (Z.neg px # dx))%Q ltac:(unfold Qle; cbn; lia)).
    assert (H' := round_positive_nonneg (Z.pos py # dy)%Q ltac:(unfold Qle; cbn; lia)). lra.
  - apply Qopp_le_compat. apply round_positive_mono; [reflexivity|].
    now apply Qopp_le_compat.
Qed.

(** Rounding a multiple of the least positive double keeps its sign: the
    difference of two doubles is not rounded to zero. *)
Lemma binary64_sign (x : Q) :
  (exists n : Z, (x == inject_Z n * 2 ^ (-1074))%Q) ->
  Qle_bool (Double.binary64 x) 0 = Qle_bool x 0.
Proof.
  intros [n Hn]. assert (Hg : (0 < 2 ^ (-1074))%Q) by (apply Qpower_0_lt; reflexivity).
  destruct x as [num den]. unfold Double.binary64. cbn [Qnum]. destruct num as [|p|p].
  - reflexivity.
  - transitivity false; [|reflexivity].
    assert (Hx : (2 ^ (-1074) <= Z.pos p # den)%Q).
    { rewrite Hn. rewrite <- (Qmult_1_l (2 ^ (-1074))) at 1.
      apply Qmult_le_compat_r; [|now apply Qlt_le_weak].
      change 1%Q with (inject_Z 1). rewrite <- Zle_Qle.
      assert (0 < n); [|lia].
      destruct (Z.lt_ge_cases 0 n) as [Hlt | Hge]; [exact Hlt|]. exfalso.
      assert (Hle : (Z.pos p # den <= 0)%Q).
      { rewrite Hn. rewrite <- (Qmult_0_l (2 ^ (-1074))).
        apply Qmult_le_compat_r; [|now apply Qlt_le_weak].
        change 0%Q with (inject_Z 0). rewrite <- Zle_Qle. exact Hge. }
      unfold Qle in Hle. cbn in Hle. lia. }
    pose proof (round_positive_positive _ Hx) as Hpos.
    destruct (Qle_bool (Double.round_positive (Z.pos p # den)) 0) eqn:E; [|reflexivity].
    apply Qle_bool_iff in E. exfalso. exact (Qlt_not_le _ _ Hpos E).
  - transitivity true; [|reflexivity]. apply Qle_bool_iff.
    assert (Hx : (0 <= - (Z.neg p # den))%Q) by (unfold Qle; cbn; lia).
    pose proof (round_positive_nonneg _ Hx) as Hpos.
    apply Qopp_le_compat in Hpos. exact Hpos.
Qed.

(** The doubles the model is checked on: the literals of the score, the
    well-known sum [0.1 + 0.2], a third, and the least doubles with their
    ties. *)
Example binary64_values :
  Qred Double.lit_0_7 = (3152519739159347 # 4503599627370496)%Q /\
  Qred Double.lit_0_3 = (5404319552844595 # 18014398509481984)%Q /\
  Qred (Double.add (Double.binary64 (1 # 10)) (Double.binary64 (2 # 10)))
  = (1351079888211149 # 4503599627370496)%Q /\
  Qred (Double.div 1 3) = (6004799503160661 # 18014398509481984)%Q /\
  Double.binary64 (inject_Z (2 ^ 53 + 1)) = inject_Z (2 ^ 53) /\
  Double.binary64 (inject_Z (2 ^ 53 + 3)) = inject_Z (2 ^ 53 + 4) /\
  (Double.binary64 (2 ^ (-1075)) == 0)%Q /\
  (Double.binary64 (3 * 2 ^ (-1075)) == 2 ^ (-1073))%Q /\
  (Double.binary64 (3 * 2 ^ (-1076)) == 2 ^ (-1074))%Q.
Proof. repeat (match goal with |- _ /\ _ => split end); vm_compute; reflexivity. Qed.

(** ** The stable sort, with another comparator of the same signs *)

Lemma sort_insert_ext {A} (cmp1 cmp2 : A -> A -> Q) (x : A) (l : list A) :
  (forall y, y ∈ l -> Qle_bool (cmp1 x y) 0 = Qle_bool (cmp2 x y) 0) ->
  sort_insert cmp1 x l = sort_insert cmp2 x l.
Proof.
  induction l as [|y l IH]; intros H; cbn [sort_insert]; [reflexivity|].
  rewrite (H y) by apply list_elem_of_here.
  rewrite IH; [reflexivity|]. intros z Hz. apply H. now apply list_elem_of_further.
Qed.

Lemma js_sort_ext {A} (cmp1 cmp2 : A -> A -> Q) (l : list A) :
  (forall x y, x ∈ l -> y ∈ l -> Qle_bool (cmp1 x y) 0 = Qle_bool (cmp2 x y) 0) ->
  js_sort cmp1 l = js_sort cmp2 l.
Proof.
  induction l as [|x l IH]; intros H; cbn [js_sort]; [reflexivity|].
  rewrite IH by (intros a b Ha Hb; apply H; now apply list_elem_of_further).
  apply sort_insert_ext. intros y Hy. apply H; [apply list_elem_of_here|].
  apply list_elem_of_further. now rewrite <- (js_sort_perm cmp2 l).
Qed.

(** ** The scores as doubles *)

Lemma binary64_unit (x : Q) : (0 <= x <= 1)%Q -> (0 <= Double.binary64 x <= 1)%Q.
Proof.
  intros [H0 H1]. split.
  - apply (binary64_mono 0 x H0).
  - eapply Qle_trans; [apply (binary64_mono x 1 H1)|]. vm_compute. discriminate.
Qed.

Section DoubleScore.

Variable toLowerCase : jsstring -> jsstring.

(** X28. The score the engine computes, as a double, lies in [0, 1]: every
    part of it does, nothing overflows, and the rounded sum of the two
    rounded parts does not pass 1. *)
Theorem calculateSimilarity_double_range (query : jsstring) (chunk : CompressedChunk) :
  (0 <= Double.calculateSimilarity toLowerCase query chunk <= 1)%Q.
Proof.
  unfold Double.calculateSimilarity. rewrite queryWords_kept.
  set (kept := kept_query_tokens toLowerCase query).
  set (queryHash := sha256_hex (toLowerCase query)).
  set (keywordMatches := fold_left _ kept 0).
  set (hashMatches := fold_left _ (seq 0 _) 0).
  assert (Hk : counts (token_matches toLowerCase chunk) kept keywordMatches).
  { subst keywordMatches. rewrite <- (Z.sub_0_r (fold_left _ _ 0)).
    apply (fold_left_counts
             (fun qWord => existsb (fun cWord => includes cWord qWord || includes qWord cWord)
                             (js_split is_non_word (toLowerCase (content chunk))))).
    apply Forall_forall. intros t _. apply existsb_token_matches. }
  assert (Hh : counts (fun i => exists ch, queryHash !! i = Some ch /\ hash chunk !! i = Some ch)
                 (seq 0 (length queryHash)) hashMatches)
    by apply hash_loop_counts.
  assert (Hlen : length queryHash = 64%nat) by apply sha256_hex_length.
  pose proof (counts_range _ _ _ Hk) as Hkr.
  pose proof (counts_range _ _ _ Hh) as Hhr. rewrite length_seq in Hhr.
  pose proof (fraction_range hashMatches (Z.of_nat (length queryHash)) Hhr ltac:(lia)) as Hd.
  apply binary64_unit in Hd. fold (Double.div (inject_Z hashMatches)
                                     (inject_Z (Z.of_nat (length queryHash)))) in Hd.
  set (hashSimilarity := Double.div _ _) in *.
  match goal with |- context [Double.mul ?k Double.lit_0_7] => set (keywordSimilarity := k) end.
  assert (Hks : (0 <= keywordSimilarity <= 1)%Q).
  { subst keywordSimilarity. destruct kept as [|t kept'].
    - match goal with |- context [if ?b then _ else _] => replace b with false by reflexivity end.
      lra.
    - match goal with |- context [if ?b then _ else _] => replace b with true by reflexivity end.
      apply binary64_unit, fraction_range; [exact Hkr | cbn [length]; lia]. }
  assert (H7 : (0 <= Double.lit_0_7)%Q) by (vm_compute; discriminate).
  assert (H3 : (0 <= Double.lit_0_3)%Q) by (vm_compute; discriminate).
  assert (Hkw : (0 <= Double.mul keywordSimilarity Double.lit_0_7 <= Double.lit_0_7)%Q).
  { unfold Double.mul. split.
    - apply (binary64_mono 0). apply Qmult_le_0_compat; lra.
    - eapply Qle_trans; [apply (binary64_mono _ Double.lit_0_7)|].
      + rewrite <- (Qmult_1_l Double.lit_0_7) at 2. apply Qmult_le_compat_r; lra.
      + vm_compute. discriminate. }
  assert (Hhs : (0 <= Double.mul hashSimilarity Double.lit_0_3 <= Double.lit_0_3)%Q).
  { unfold Double.mul. split.
    - apply (binary64_mono 0). apply Qmult_le_0_compat; lra.
    - eapply Qle_trans; [apply (binary64_mono _ Double.lit_0_3)|].
      + rewrite <- (Qmult_1_l Double.lit_0_3) at 2. apply Qmult_le_compat_r; lra.
      + vm_compute. discriminate. }
  unfold Double.add. split.
  - apply (binary64_mono 0). lra.
  - eapply Qle_trans; [apply (binary64_mono _ (Double.lit_0_7 + Double.lit_0_3))|].
    + lra.
    + vm_compute. discriminate.
Qed.

End DoubleScore.

Section DoubleQuery.

Variable toLowerCase : jsstring -> jsstring.

Lemma calculateSimilarity_double_grid (query : jsstring) (chunk : CompressedChunk) :
  exists n : Z,
    (Double.calculateSimilarity toLowerCase query chunk == inject_Z n * 2 ^ (-1074))%Q.
Proof. unfold Double.calculateSimilarity, Double.add. apply binary64_grid. Qed.

(** On scores the engine computed, the sign of the rounded difference is
    the sign of the difference. *)
Lemma by_score_desc_double (query : jsstring) (a b : CompressedChunk) :
  let mk := fun c => {| chunk := c; score := Double.calculateSimilarity toLowerCase query c |} in
  Qle_bool (Double.by_score_desc (mk a) (mk b)) 0 = Qle_bool (by_score_desc (mk a) (mk b)) 0.
Proof.
  intros mk. unfold Double.by_score_desc, by_score_desc, Double.sub. apply binary64_sign.
  cbn [score mk].
  destruct (calculateSimilarity_double_grid query a) as [na Ha].
  destruct (calculateSimilarity_double_grid query b) as [nb Hb].
  exists (nb - na). rewrite Ha, Hb. unfold Z.sub. rewrite inject_Z_plus, inject_Z_opp. ring.
Qed.

(** C4. For a positive [topK], [queryLibrary] returns [min topK n] of the [n]
    chunks of the library: the first elements of the arrangement of all the
    chunks (each with its index in the library) in which a chunk of greater
    score comes before one of smaller score, and of two chunks of equal
    score the one inserted first comes first.  The scores are the doubles
    [calculateSimilarity] returns, and the comparator is the rounded
    difference [b.score - a.score]. *)
Theorem queryLibrary_double_ranking (library : KnowledgeLibrary) (query : jsstring) (topK : Z) :
  0 < topK ->
  exists ranked rest : list (nat * CompressedChunk),
    Double.queryLibrary toLowerCase library query topK = map snd ranked /\
    Z.of_nat (length ranked) = Z.min topK (Z.of_nat (length (chunks library))) /\
    Permutation (ranked ++ rest) (combine (seq 0 (length (chunks library))) (chunks library)) /\
    StronglySorted (ranks_before (Double.calculateSimilarity toLowerCase query)) (ranked ++ rest).
Proof.
  intros Hk.
  set (cs := chunks library).
  set (mk := fun c => {| chunk := c; score := Double.calculateSimilarity toLowerCase query c |}).
  set (indexed := combine (seq 0 (length cs)) cs).
  set (all := js_sort (desc (Double.calculateSimilarity toLowerCase query)) indexed).
  assert (Hsorted : js_sort Double.by_score_desc (map mk cs) = map (fun p => mk (snd p)) all).
  { rewrite (js_sort_ext Double.by_score_desc by_score_desc).
    - rewrite <- (map_snd_indexed cs 0) at 1. fold indexed. rewrite map_map.
      rewrite js_sort_map. reflexivity.
    - intros x y Hx Hy. apply list_elem_of_fmap in Hx as (a & -> & _).
      apply list_elem_of_fmap in Hy as (b & -> & _). apply by_score_desc_double. }
  exists (take (Z.to_nat topK) all), (drop (Z.to_nat topK) all).
  assert (Hall : length all = length cs).
  { unfold all. rewrite (Permutation_length (js_sort_perm _ _)). unfold indexed.
    rewrite length_combine, length_seq. lia. }
  repeat split.
  - unfold Double.queryLibrary. fold cs mk. rewrite Hsorted.
    rewrite <- (Z2Nat.id topK) at 1 by lia. rewrite js_slice_prefix.
    rewrite firstn_map, map_map. reflexivity.
  - rewrite length_take, Hall. lia.
  - rewrite take_drop. apply js_sort_perm.
  - rewrite take_drop. apply js_sort_ranked, indexed_ascending.
Qed.

End DoubleQuery.

Lemma queryLibrary_double_ranking_witness :
  0 < 2 /\
  exists ranked rest : list (nat * CompressedChunk),
    Double.queryLibrary ascii_toLowerCase sample_library (js "Orbital capacity") 2
    = map snd ranked /\
    Z.of_nat (length ranked) = Z.min 2 (Z.of_nat (length (chunks sample_library))) /\
    Permutation (ranked ++ rest)
      (combine (seq 0 (length (chunks sample_library))) (chunks sample_library)) /\
    StronglySorted
      (ranks_before (Double.calculateSimilarity ascii_toLowerCase (js "Orbital capacity")))
      (ranked ++ rest).
Proof.
  split; [lia|].
  apply (queryLibrary_double_ranking ascii_toLowerCase sample_library (js "Orbital capacity") 2).
  lia.
Defined.

(** Two chunks whose scores are the same rational, [21/640], when the
    arithmetic is exact get two different doubles, and [queryLibrary] returns
    them by these: the chunk inserted second comes first. *)
Example queryLibrary_rounded_tie :
  map content (chunks tie_library) = [js "orbital note 1"; js "plain note 14"] /\
  map (fun c => Qred (calculateSimilarity ascii_toLowerCase long_query c)) (chunks tie_library)
  = [21 # 640; 21 # 640]%Q /\
  map (fun c => Qred (Double.calculateSimilarity ascii_toLowerCase long_query c))
      (chunks tie_library)
  = [1182194902184755 # 36028797018963968; 4728779608739021 # 144115188075855872]%Q /\
  map content (Double.queryLibrary ascii_toLowerCase tie_library long_query 8)
  = [js "plain note 14"; js "orbital note 1"].
Proof. repeat (match goal with |- _ /\ _ => split end); vm_compute; reflexivity. Qed.

(** ** [queryLibrary] on the heap, with the scores as doubles *)

Section DoubleHeap.

Variable toLowerCase : jsstring -> jsstring.

Lemma queryLibrary_double_heap_run (h : heap) (library cs_loc : loc) (lib : KnowledgeLibrary)
    (query : jsstring) (topK : Z) :
  h !! library
  = Some (LibraryObject (name lib) cs_loc (total_compression_ratio lib)
                        (library_created_at lib) (updated_at lib)) ->
  h !! cs_loc = Some (ChunkArray (chunks lib)) ->
  exists sorted,
    Double.queryLibrary_heap toLowerCase library query topK h
    = Some (S (S (length h)),
            h ++ [ScoredArray sorted; ScoredArray (js_slice sorted 0 topK);
                  ChunkArray (Double.queryLibrary toLowerCase lib query topK)]).
Proof.
  intros Hlib Hcs.
  set (scs := map (fun c => {| chunk := c;
                               score := Double.calculateSimilarity toLowerCase query c |})
                  (chunks lib)).
  exists (js_sort Double.by_score_desc scs).
  unfold Double.queryLibrary_heap, mbind, Heap_bind. rewrite (load_at _ _ _ Hlib).
  unfold array_map_scored, mbind, Heap_bind. rewrite (load_at _ _ _ Hcs).
  unfold alloc at 1. fold scs.
  unfold array_sort, mbind, Heap_bind. rewrite load_last, store_last.
  unfold mret, Heap_ret.
  unfold array_slice, mbind, Heap_bind. rewrite load_last.
  unfold alloc at 1.
  unfold array_map_chunk, mbind, Heap_bind.
  rewrite (load_at _ (length (h ++ [ScoredArray (js_sort Double.by_score_desc scs)]))
             (ScoredArray (js_slice (js_sort Double.by_score_desc scs) 0 topK)))
    by (now rewrite list_lookup_middle).
  unfold alloc. rewrite !length_app. cbn [length].
  rewrite <- !app_assoc. cbn [app].
  do 2 f_equal. lia.
Qed.

(** X29. With the scores as doubles too, [queryLibrary] changes nothing that
    was on the heap before the call: the library object and the array of its
    chunks are as they were, and the array it returns is a new one, holding
    the chunks ranked by their doubles. *)
Theorem queryLibrary_double_heap_frame (h : heap) (library cs_loc : loc)
    (lib : KnowledgeLibrary) (query : jsstring) (topK : Z) :
  h !! library
  = Some (LibraryObject (name lib) cs_loc (total_compression_ratio lib)
                        (library_created_at lib) (updated_at lib)) ->
  h !! cs_loc = Some (ChunkArray (chunks lib)) ->
  exists result h',
    Double.queryLibrary_heap toLowerCase library query topK h = Some (result, h') /\
    (forall l o, h !! l = Some o -> h' !! l = Some o) /\
    h' !! library
    = Some (LibraryObject (name lib) cs_loc (total_compression_ratio lib)
                          (library_created_at lib) (updated_at lib)) /\
    h' !! cs_loc = Some (ChunkArray (chunks lib)) /\
    h !! result = None /\
    h' !! result = Some (ChunkArray (Double.queryLibrary toLowerCase lib query topK)).
Proof.
  intros Hlib Hcs.
  destruct (queryLibrary_double_heap_run h library cs_loc lib query topK Hlib Hcs)
    as (sorted & Hrun).
  eexists _, _. split; [exact Hrun|].
  assert (Hframe : forall l o, h !! l = Some o ->
            (h ++ [ScoredArray sorted; ScoredArray (js_slice sorted 0 topK);
                   ChunkArray (Double.queryLibrary toLowerCase lib query topK)]) !! l = Some o).
  { intros l o Hl. now apply lookup_app_l_Some. }
  split; [exact Hframe|]. split; [now apply Hframe|]. split; [now apply Hframe|]. split.
  - apply lookup_ge_None. lia.
  - rewrite lookup_app_r by lia. replace (S (S (length h)) - length h)%nat with 2%nat by lia.
    reflexivity.
Qed.

End DoubleHeap.

Lemma queryLibrary_double_heap_frame_witness :
  sample_heap !! 1%nat
  = Some (LibraryObject (name sample_library) 0%nat (total_compression_ratio sample_library)
                        (library_created_at sample_library) (updated_at sample_library)) /\
  sample_heap !! 0%nat = Some (ChunkArray (chunks sample_library)) /\
  exists result h',
    Double.queryLibrary_heap ascii_toLowerCase 1%nat (js "Orbital capacity") 2 sample_heap
    = Some (result, h') /\
    (forall l o, sample_heap !! l = Some o -> h' !! l = Some o) /\
    h' !! 1%nat
    = Some (LibraryObject (name sample_library) 0%nat (total_compression_ratio sample_library)
                          (library_created_at sample_library) (updated_at sample_library)) /\
    h' !! 0%nat = Some (ChunkArray (chunks sample_library)) /\
    sample_heap !! result = None /\
    h' !! result
    = Some (ChunkArray
              (Double.queryLibrary ascii_toLowerCase sample_library (js "Orbital capacity") 2)).
Proof.
  split; [reflexivity|]. split; [reflexivity|].
  apply (queryLibrary_double_heap_frame ascii_toLowerCase sample_heap 1%nat 0%nat sample_library
           (js "Orbital capacity") 2); reflexivity.
Defined.

(** ** The score on a content that ends with a full stop *)

(** C3 fails on a chunk whose content ends with a non-word character.  The
    query ["orbital"] has one token longer than 3 characters, and none of the
    tokens of ["Nothing to see here."] contains it or is contained in it: the
    keyword score the claim words is 0, and with 2 of the 64 digest positions
    matching the claim gives [0.3 * 2/64], less than 0.01.  But
    [split(/\W+/)] leaves an empty piece after the full stop, every string
    includes the empty string, and [calculateSimilarity] returns 0.709375
    ([227/320] in exact arithmetic). *)
Theorem calculateSimilarity_full_stop :
  content full_stop_chunk = js "Nothing to see here." /\
  hash full_stop_chunk = sha256_hex (content full_stop_chunk) /\
  kept_query_tokens ascii_toLowerCase (js "orbital") = [js "orbital"] /\
  text_tokens (ascii_toLowerCase (content full_stop_chunk))
  = [js "nothing"; js "to"; js "see"; js "here"] /\
  ~ matches_a_token ascii_toLowerCase full_stop_chunk (js "orbital") /\
  digestScore_is ascii_toLowerCase (js "orbital") full_stop_chunk (inject_Z 2 / inject_Z 64) /\
  js_split is_non_word (ascii_toLowerCase (content full_stop_chunk))
  = [js "nothing"; js "to"; js "see"; js "here"; []] /\
  includes (js "orbital") [] = true /\
  Qred (Double.calculateSimilarity ascii_toLowerCase (js "orbital") full_stop_chunk)
  = (6389481971331891 # 9007199254740992)%Q /\
  Qred (calculateSimilarity ascii_toLowerCase (js "orbital") full_stop_chunk) = (227 # 320)%Q /\
  Qred (Double.add (Double.mul 0 Double.lit_0_7)
                   (Double.mul (Double.div 2 64) Double.lit_0_3))
  = (5404319552844595 # 576460752303423488)%Q.
Proof.
  assert (Htokens : text_tokens (ascii_toLowerCase (content full_stop_chunk))
                    = [js "nothing"; js "to"; js "see"; js "here"]) by (vm_compute; reflexivity).
  split; [reflexivity|]. split; [vm_compute; reflexivity|]. split; [reflexivity|].
  split; [exact Htokens|]. split; [|split].
  - intros (c & Hin & Hc). rewrite Htokens in Hin.
    rewrite <- !includes_spec in Hc.
    repeat (apply elem_of_cons in Hin as [-> | Hin]);
      [| | | | now apply elem_of_nil in Hin];
      destruct Hc as [Hc | Hc]; vm_compute in Hc; discriminate.
  - unfold digestScore_is. exists 2. split; [|now rewrite sha256_hex_length].
    pose proof (hash_loop_counts (sha256_hex (ascii_toLowerCase (js "orbital")))
                  (hash full_stop_chunk)) as Hcounts.
    match type of Hcounts with
    | counts _ _ ?v => replace v with 2 in Hcounts by (vm_compute; reflexivity)
    end.
    exact Hcounts.
  - repeat (match goal with |- _ /\ _ => split end); vm_compute; reflexivity.
Qed.

(** * Further properties *)

(** ** The descriptor of any hash *)

Lemma hex_value_range (c v : Z) : hex_value c = Some v -> 0 <= v < 16.
Proof.
  unfold hex_value.
  destruct (Z.leb_spec 48 c), (Z.leb_spec c 57); cbn [andb]; [intros [= <-]; lia | | |];
    (destruct (Z.leb_spec 97 c), (Z.leb_spec c 102); cbn [andb]; [intros [= <-]; lia | | |];
     (destruct (Z.leb_spec 65 c), (Z.leb_spec c 70); cbn [andb]; [intros [= <-]; lia | | |];
      discriminate)).
Qed.

Lemma Buffer_from_hex_bytes (s : jsstring) : Forall is_byte (Buffer_from_hex s).
Proof.
  induction s as [s IH] using (induction_ltof1 _ (@length Z)). unfold ltof in IH.
  destruct s as [|c1 [|c2 rest]]; cbn [Buffer_from_hex]; [constructor | constructor |].
  destruct (hex_value c1) as [hi|] eqn:E1; [|constructor].
  destruct (hex_value c2) as [lo|] eqn:E2; [|constructor].
  constructor; [|apply IH; cbn [length]; lia].
  apply hex_value_range in E1, E2. unfold is_byte. lia.
Qed.

(** The occupation of a level, for a buffer of any length. *)
Lemma occupation_any (bytes : list Z) (n : Z) :
  Forall is_byte bytes -> 1 <= n ->
  match bytes with
  | [] => occupation bytes n = NaN
  | _ :: _ =>
      exists byte,
        bytes !! Z.to_nat ((n - 1) mod Z.of_nat (length bytes)) = Some byte /\
        occupation bytes n = Num (byte mod (2 * n * n + 1)) /\
        0 <= byte mod (2 * n * n + 1) <= 2 * n * n
  end.
Proof.
  intros Hbytes Hn. destruct bytes as [|b0 bytes'] eqn:Eb; [reflexivity|]. rewrite <- Eb in *.
  assert (Hlen : 0 < Z.of_nat (length bytes)) by (rewrite Eb; cbn [length]; lia).
  pose proof (Z.mod_pos_bound (n - 1) (Z.of_nat (length bytes)) Hlen) as Hidx.
  destruct (lookup_lt_is_Some_2 bytes (Z.to_nat ((n - 1) mod Z.of_nat (length bytes))) ltac:(lia))
    as [byte Hbyte].
  exists byte. split; [exact Hbyte|].
  assert (Hb : is_byte byte) by (eapply Forall_lookup_1; eauto).
  assert (Hm : 0 < 2 * n * n + 1) by nia.
  unfold occupation. cbn [js_rem].
  destruct (Z.eqb_spec (Z.of_nat (length bytes)) 0); [lia|].
  rewrite Z.rem_mod_nonneg by lia.
  unfold js_index. destruct (Z.ltb_spec ((n - 1) mod Z.of_nat (length bytes)) 0); [lia|].
  rewrite Hbyte. cbn [js_rem].
  destruct (Z.eqb_spec (2 * n * n + 1) 0); [lia|].
  unfold is_byte in Hb. rewrite Z.rem_mod_nonneg by lia.
  split; [reflexivity|].
  pose proof (Z.mod_pos_bound byte (2 * n * n + 1) Hm). lia.
Qed.

(** X1. Whatever the hash string, [calculateGravitationalStates] returns
    [max 0 n_max] states.  When the string does not start with a pair of
    hexadecimal digits the buffer is empty and every state is [NaN];
    otherwise the state of level [n] is byte [(n - 1) mod k] of the first
    [k <= 16] bytes decoded, modulo [2 n² + 1]. *)
Theorem calculateGravitationalStates_any_hash (hash : jsstring) (n_max : Z) :
  let relevantBytes := take 16 (Buffer_from_hex hash) in
  length (calculateGravitationalStates hash n_max) = Z.to_nat n_max /\
  forall n, 1 <= n <= n_max ->
    match relevantBytes with
    | [] => calculateGravitationalStates hash n_max !! Z.to_nat (n - 1) = Some NaN
    | _ :: _ =>
        exists byte,
          relevantBytes !! Z.to_nat ((n - 1) mod Z.of_nat (length relevantBytes)) = Some byte /\
          calculateGravitationalStates hash n_max !! Z.to_nat (n - 1)
          = Some (Num (byte mod (2 * n * n + 1))) /\
          0 <= byte mod (2 * n * n + 1) <= 2 * n * n
    end.
Proof.
  intros relevantBytes. rewrite calculateGravitationalStates_map, (js_slice_prefix _ 16).
  fold relevantBytes. split; [now rewrite length_map, levels_length|].
  intros n Hn. rewrite list_lookup_fmap, (levels_lookup n_max n Hn).
  assert (Hbytes : Forall is_byte relevantBytes)
    by (apply Forall_take, Buffer_from_hex_bytes).
  pose proof (occupation_any relevantBytes n Hbytes ltac:(lia)) as Hocc.
  destruct relevantBytes as [|b0 bytes'].
  - cbn [fmap option_fmap option_map]. now rewrite Hocc.
  - destruct Hocc as (byte & Hbyte & Hocc & Hrange). exists byte.
    split; [exact Hbyte|]. split; [|exact Hrange].
    cbn [fmap option_fmap option_map]. now rewrite Hocc.
Qed.

(** X2. From level 12 on, [2 n² + 1] exceeds every byte: the state is the
    digest byte itself. *)
Theorem compressChunk_states_raw_byte (text : jsstring) (nMax n : Z) (w : World) :
  12 <= n <= nMax ->
  exists byte,
    sha256_bytes text !! Z.to_nat ((n - 1) mod 16) = Some byte /\
    states (gravitational_bit (fst (compressChunk text nMax w))) !! Z.to_nat (n - 1)
    = Some (Num byte).
Proof.
  intros Hn. rewrite compressChunk_bit. cbn [states]. rewrite states_of_digest.
  destruct (occupation_digest (sha256_bytes text) n) as (byte & Hbyte & Hocc & _);
    [apply sha256_bytes_length | apply digest_bytes | lia |].
  exists byte. split; [exact Hbyte|].
  rewrite list_lookup_fmap, (levels_lookup nMax n ltac:(lia)).
  cbn [fmap option_fmap option_map]. rewrite Hocc. do 2 f_equal.
  assert (Hb : is_byte byte) by (eapply Forall_lookup_1; [apply digest_bytes | exact Hbyte]).
  unfold is_byte in Hb. apply Z.mod_small. nia.
Qed.

Lemma compressChunk_states_raw_byte_witness :
  12 <= 13 <= 15 /\
  exists byte,
    sha256_bytes (js "abc") !! Z.to_nat ((13 - 1) mod 16) = Some byte /\
    states (gravitational_bit (fst (compressChunk (js "abc") 15 world0))) !! Z.to_nat (13 - 1)
    = Some (Num byte).
Proof. split; [lia | apply (compressChunk_states_raw_byte (js "abc") 15 13 world0); lia]. Defined.

(** ** More on [compressChunk] *)

Lemma js_split_nonempty (sep : Z -> bool) (s : jsstring) : js_split sep s <> [].
Proof.
  intros Hnil. pose proof (js_split_shape sep s) as H. rewrite Hnil in H. exact H.
Qed.

Lemma split_runs_length (sep : Z -> bool) (s : jsstring) :
  forall in_sep cur, (length (split_runs sep in_sep cur s) <= S (length s))%nat.
Proof.
  induction s as [|c s IH]; intros in_sep cur; cbn [split_runs length]; [lia|].
  destruct (sep c); [destruct in_sep|].
  - specialize (IH true []). lia.
  - specialize (IH true []). cbn [length]. lia.
  - specialize (IH false (c :: cur)). lia.
Qed.

(** X3. The word count of a chunk is at least 1 (the empty content counts
    one word) and at most one more than its character count, which is the
    length of the content. *)
Theorem compressChunk_counts (text : jsstring) (n_max : Z) (w : World) :
  let m := metadata (fst (compressChunk text n_max w)) in
  character_count m = Z.of_nat (length text) /\
  1 <= word_count m <= character_count m + 1 /\
  (text = [] -> word_count m = 1).
Proof.
  intros m.
  assert (Hw : word_count m = Z.of_nat (length (js_split is_space text))) by reflexivity.
  assert (Hc : character_count m = Z.of_nat (length text)) by reflexivity.
  rewrite Hw, Hc. split; [reflexivity|]. split.
  - pose proof (js_split_nonempty is_space text) as Hne.
    pose proof (split_runs_length is_space text false []) as Hle.
    fold (js_split is_space text) in Hle.
    destruct (js_split is_space text); [congruence|]. cbn [length] in *. lia.
  - intros ->. reflexivity.
Qed.

Lemma one_lt_fraction (a d : Z) : 0 < d -> (1 < inject_Z a / inject_Z d)%Q <-> d < a.
Proof.
  intros Hd. destruct d as [|p|p]; try lia.
  unfold Qlt, Qdiv, Qmult, Qinv, inject_Z. cbn. lia.
Qed.

(** X4. For [n_max >= 0] the ratio of a chunk is its UTF-8 byte length over
    [32 + 4 n_max] (never a division by zero), so it exceeds 1 exactly when
    the content has more than [32 + 4 n_max] bytes. *)
Theorem compressChunk_ratio (text : jsstring) (nMax : Z) (w : World) :
  0 <= nMax ->
  let bit := gravitational_bit (fst (compressChunk text nMax w)) in
  compression_ratio bit = (inject_Z (byteLength text) / inject_Z (32 + 4 * nMax))%Q /\
  ((1 < compression_ratio bit)%Q <-> 32 + 4 * nMax < byteLength text).
Proof.
  intros Hn bit. subst bit. rewrite compressChunk_bit. cbn [compression_ratio].
  rewrite calculateGravitationalStates_map, length_map, levels_length.
  replace (32 + Z.of_nat (Z.to_nat nMax) * 4) with (32 + 4 * nMax) by lia.
  split; [reflexivity|]. apply one_lt_fraction. lia.
Qed.

Lemma compressChunk_ratio_witness :
  0 <= 15 /\
  let bit := gravitational_bit (fst (compressChunk (js "abc") 15 world0)) in
  compression_ratio bit = (inject_Z (byteLength (js "abc")) / inject_Z (32 + 4 * 15))%Q /\
  ((1 < compression_ratio bit)%Q <-> 32 + 4 * 15 < byteLength (js "abc")).
Proof. split; [lia | apply (compressChunk_ratio (js "abc") 15 world0); lia]. Defined.

(** ** More on [createLibrary] *)

Lemma compressChunk_world (text : jsstring) (n_max : Z) (w : World) :
  snd (compressChunk text n_max w)
  = {| uuid_source := uuid_source w; clock := clock w;
       uuid_calls := S (uuid_calls w); clock_reads := S (clock_reads w) |}.
Proof. reflexivity. Qed.

Lemma compressChunk_id (text : jsstring) (n_max : Z) (w : World) :
  chunk_id (fst (compressChunk text n_max w)) = uuid_source w (uuid_calls w).
Proof. reflexivity. Qed.

(** The chunks [textChunks.map(chunk => compressChunk(chunk, n_max))] builds:
    their contents are the texts, their identifiers the next values of
    [randomUUID()]. *)
Lemma mapM_compressChunk_fields (n_max : Z) (l : list jsstring) :
  forall w : World,
    map content (fst (mapM (fun chunk => compressChunk chunk n_max) l w)) = l /\
    map chunk_id (fst (mapM (fun chunk => compressChunk chunk n_max) l w))
    = map (uuid_source w) (seq (uuid_calls w) (length l)).
Proof.
  induction l as [|x l IH]; intros w; [split; reflexivity|].
  rewrite mapM_cons. cbn [fst map length seq].
  destruct (IH (snd (compressChunk x n_max w))) as [Hc Hi].
  rewrite Hc, Hi, compressChunk_world. cbn [uuid_source uuid_calls].
  split; reflexivity.
Qed.




Lemma length_concat_sum {A} (ls : list (list A)) :
  Z.of_nat (length (concat ls)) = fold_right Z.add 0 (map (fun l => Z.of_nat (length l)) ls).
Proof.
  induction ls as [|l ls IH]; [reflexivity|].
  cbn [concat map fold_right]. rewrite length_app, Nat2Z.inj_add, IH. reflexivity.
Qed.

(** What [chunkText] returns for a positive chunk size, on the pieces of
    the split. *)
Lemma chunkText_words (text : jsstring) (w : Z) :
  0 < w ->
  exists pieces,
    chunkText text w = Some pieces /\
    Z.of_nat (length pieces) = ceil_div (Z.of_nat (length (js_split is_space text))) w /\
    (1 <= length pieces)%nat /\
    concat (map (js_split is_space) pieces) = js_split is_space text.
Proof.
  intros Hw.
  destruct (chunk_loop_pieces (js_split is_space text) (Z.to_nat w)
              (js_split_shape is_space text) ltac:(lia)
              (S (length (js_split is_space text))) 0%nat [])
    as (pieces & Hrun & Hlen & _ & Hcat); [lia|].
  rewrite Z2Nat.id in * by lia. rewrite Nat.sub_0_r in Hlen.
  exists pieces. split; [exact Hrun|]. split; [exact Hlen|]. split; [|exact Hcat].
  pose proof (js_split_nonempty is_space text) as Hne.
  pose proof (ceil_div_spec (Z.of_nat (length (js_split is_space text))) w Hw) as Hceil.
  destruct (js_split is_space text); [congruence|]. cbn [length] in *. nia.
Qed.

(** X6. The chunks of a library hold, in order, the pieces [chunkText] cuts
    the text into, 250 words at a time: there are [ceil (W / 250)] of them
    for a text of [W] words, at least one (even for the empty text), each
    records the [n_max] given, and their word counts add up to [W]. *)
Theorem createLibrary_chunks (lib_name text : jsstring) (nMax : Z) (w : World) :
  exists pieces lib w',
    chunkText text 250 = Some pieces /\
    createLibrary lib_name text nMax w = Some (lib, w') /\
    map content (chunks lib) = pieces /\
    Z.of_nat (length (chunks lib)) = ceil_div (Z.of_nat (length (js_split is_space text))) 250 /\
    (1 <= length (chunks lib))%nat /\
    Forall (fun c => n_max (gravitational_bit c) = nMax) (chunks lib) /\
    fold_right Z.add 0 (map (fun c => word_count (metadata c)) (chunks lib))
    = Z.of_nat (length (js_split is_space text)).
Proof.
  destruct (createLibrary_returns lib_name text nMax w)
    as (pieces & lib & w' & Hpieces & Hlib & _ & Hchunks & _).
  exists pieces, lib, w'. split; [exact Hpieces|]. split; [exact Hlib|].
  destruct (chunkText_words text 250 ltac:(lia)) as (pieces' & Hrun & Hlen & Hone & Hcat).
  rewrite Hrun in Hpieces. injection Hpieces as <-.
  pose proof (mapM_Forall2 (fun chunk => compressChunk chunk nMax) pieces' w) as Hall.
  rewrite <- Hchunks in Hall.
  assert (Hcount : length (chunks lib) = length pieces')
    by (symmetry; eapply Forall2_length; exact Hall).
  split; [rewrite Hchunks; apply mapM_compressChunk_fields|].
  split; [now rewrite Hcount|].
  split; [now rewrite Hcount|].
  split.
  - clear -Hall. induction Hall as [|x y l l' (w' & ->) _ IH]; constructor; [reflexivity | exact IH].
  - rewrite <- Hcat, length_concat_sum, map_map. clear -Hall.
    induction Hall as [|x y l l' (w' & ->) _ IH]; [reflexivity|].
    cbn [map fold_right]. rewrite IH. reflexivity.
Qed.

(** X7. Whatever [n_max], the ratio a library records is the length of the
    text in UTF-16 code units over the number of chunks times
    [32 + 4 * max 0 n_max]; the divisor is at least 32, never zero. *)
Theorem createLibrary_ratio_any (lib_name text : jsstring) (n_max : Z) (w : World) :
  exists lib w',
    createLibrary lib_name text n_max w = Some (lib, w') /\
    32 <= Z.of_nat (length (chunks lib)) * (32 + 4 * Z.max 0 n_max) /\
    total_compression_ratio lib
    = (inject_Z (Z.of_nat (length text))
       / inject_Z (Z.of_nat (length (chunks lib)) * (32 + 4 * Z.max 0 n_max)))%Q.
Proof.
  destruct (createLibrary_returns lib_name text n_max w)
    as (pieces & lib & w' & Hpieces & Hlib & _ & Hchunks & Hratio).
  exists lib, w'. split; [exact Hlib|].
  assert (Hlen : (1 <= length (chunks lib))%nat).
  { destruct (chunkText_words text 250 ltac:(lia)) as (pieces' & Hrun & _ & Hone & _).
    rewrite Hrun in Hpieces. injection Hpieces as <-. now rewrite Hchunks, mapM_length. }
  rewrite Hratio, (totalCompressedSize_uniform (Z.to_nat n_max)).
  - replace (Z.of_nat (Z.to_nat n_max)) with (Z.max 0 n_max) by lia.
    split; [nia | reflexivity].
  - rewrite Hchunks. eapply Forall_impl; [apply (mapM_compressChunk n_max)|].
    cbn. intros c [_ Hc]. exact Hc.
Qed.

(** ** More on [chunkText] *)

(** X8. With a chunk size that is not positive the loop of [chunkText] never
    ends: whatever the number of iterations allowed, it has not returned. *)
Theorem chunkText_loop_never_ends (text : jsstring) (w : Z) :
  w <= 0 ->
  chunkText text w = None /\
  forall fuel : nat, chunk_loop fuel (js_split is_space text) w 0 [] = None.
Proof.
  intros Hw.
  assert (Hloop : forall fuel, chunk_loop fuel (js_split is_space text) w 0 [] = None).
  { intros fuel. apply chunk_loop_stuck; [exact Hw | apply js_split_nonempty | lia]. }
  split; [apply Hloop | exact Hloop].
Qed.

Lemma chunkText_loop_never_ends_witness :
  0 <= 0 /\
  chunkText (js "orbital capacity") 0 = None /\
  forall fuel : nat, chunk_loop fuel (js_split is_space (js "orbital capacity")) 0 0 [] = None.
Proof. split; [lia | apply (chunkText_loop_never_ends (js "orbital capacity") 0); lia]. Defined.

Lemma chunk_loop_step (fuel : nat) (words : list jsstring) (w i : Z) (acc : list jsstring) :
  i < Z.of_nat (length words) ->
  chunk_loop (S fuel) words w i acc
  = chunk_loop fuel words w (i + w) (acc ++ [js_join [32] (js_slice words i (i + w))]).
Proof. intros Hi. cbn [chunk_loop]. now destruct (Z.ltb_spec i (Z.of_nat (length words))); [|lia]. Qed.

Lemma chunk_loop_exit (fuel : nat) (words : list jsstring) (w i : Z) (acc : list jsstring) :
  Z.of_nat (length words) <= i -> chunk_loop (S fuel) words w i acc = Some acc.
Proof. intros Hi. cbn [chunk_loop]. now destruct (Z.ltb_spec i (Z.of_nat (length words))); [lia|]. Qed.

(** A text of at most [w] words comes back as one piece: its words, joined
    by single spaces. *)
Lemma chunkText_one_piece (text : jsstring) (w : Z) :
  Z.of_nat (length (js_split is_space text)) <= w ->
  chunkText text w = Some [js_join [32] (js_split is_space text)].
Proof.
  intros Hw. unfold chunkText.
  pose proof (js_split_nonempty is_space text) as Hne.
  set (words := js_split is_space text) in *.
  assert (Hlen : (1 <= length words)%nat) by (destruct words; [congruence | cbn [length]; lia]).
  rewrite chunk_loop_step by lia.
  destruct (length words) as [|k] eqn:Ek; [lia|].
  rewrite chunk_loop_exit by lia. cbn [app]. do 3 f_equal.
  change 0 with (Z.of_nat 0). rewrite <- (Z2Nat.id w) by lia.
  rewrite js_slice_segment, drop_0. apply take_ge. lia.
Qed.

Lemma split_pieces_no_sep (sep : Z -> bool) (l : list jsstring) :
  split_pieces sep l -> Forall (no_sep sep) l.
Proof.
  assert (Htail : forall l, tail_pieces sep l -> Forall (no_sep sep) l).
  { induction l0 as [|u [|v rest] IH]; [intros [] | |].
    - intros [Hu _]. now repeat constructor.
    - intros (Hu & _ & Hrest). constructor; [exact Hu | now apply IH]. }
  destruct l as [|u [|v rest]]; [intros [] | |].
  - intros [Hu _]. now repeat constructor.
  - intros [Hu Hrest]. constructor; [exact Hu | now apply Htail].
Qed.

(** The loop of [chunkText], by groups of words: each piece is the join, by
    single spaces, of a group of at most [w] consecutive words. *)
Lemma chunk_loop_groups (words : list jsstring) (w : nat) :
  split_pieces is_space words -> (0 < w)%nat ->
  forall (fuel i : nat) (acc : list jsstring),
    (length words - i < fuel)%nat ->
    exists groups,
      chunk_loop fuel words (Z.of_nat w) (Z.of_nat i) acc
      = Some (acc ++ map (js_join [32]) groups) /\
      concat groups = drop i words /\
      Forall (fun g => split_pieces is_space g /\ (1 <= length g <= w)%nat) groups.
Proof.
  intros Hwords Hw. induction fuel as [|fuel IH]; intros i acc Hfuel; [lia|].
  cbn [chunk_loop]. destruct (Z.ltb_spec (Z.of_nat i) (Z.of_nat (length words))) as [Hlt | Hge].
  - replace (Z.of_nat i + Z.of_nat w) with (Z.of_nat (i + w)) by lia.
    destruct (IH (i + w)%nat (acc ++ [js_join [32] (js_slice words (Z.of_nat i) (Z.of_nat (i + w)))]))
      as (groups & Hrun & Hcat & Hall); [lia|].
    replace (Z.of_nat (i + w)) with (Z.of_nat i + Z.of_nat w) in * by lia.
    rewrite js_slice_segment in *.
    assert (Hdrop : drop i words <> []).
    { intros Hnil. apply (f_equal length) in Hnil. rewrite length_drop in Hnil. cbn in Hnil. lia. }
    assert (Hseg : split_pieces is_space (take w (drop i words))).
    { destruct w as [|w]; [lia|]. now apply split_pieces_take, split_pieces_drop. }
    exists (take w (drop i words) :: groups). split; [|split].
    + rewrite Hrun, <- app_assoc. reflexivity.
    + cbn [concat]. rewrite Hcat, <- drop_drop. apply take_drop.
    + constructor; [|exact Hall]. split; [exact Hseg|].
      rewrite length_take, length_drop. lia.
  - exists []. split; [now rewrite app_nil_r|]. split; [|constructor].
    rewrite drop_ge by lia. reflexivity.
Qed.

Lemma chunkText_groups (text : jsstring) (w : Z) :
  0 < w ->
  exists groups,
    chunkText text w = Some (map (js_join [32]) groups) /\
    concat groups = js_split is_space text /\
    Forall (fun g => split_pieces is_space g /\ 1 <= Z.of_nat (length g) <= w) groups.
Proof.
  intros Hw.
  destruct (chunk_loop_groups (js_split is_space text) (Z.to_nat w)
              (js_split_shape is_space text) ltac:(lia)
              (S (length (js_split is_space text))) 0%nat [])
    as (groups & Hrun & Hcat & Hall); [lia|].
  rewrite Z2Nat.id in Hrun by lia. exists groups. split; [exact Hrun|]. split; [exact Hcat|].
  eapply Forall_impl; [exact Hall|]. cbn. intros g [Hg Hlen]. split; [exact Hg | lia].
Qed.

(** X9. Chunking is idempotent on its pieces: cutting a piece again with the
    same chunk size gives that piece back, alone. *)
Theorem chunkText_idempotent (text : jsstring) (w : Z) :
  0 < w ->
  exists pieces,
    chunkText text w = Some pieces /\
    Forall (fun p => chunkText p w = Some [p]) pieces.
Proof.
  intros Hw. destruct (chunkText_groups text w Hw) as (groups & Hrun & _ & Hall).
  exists (map (js_join [32]) groups). split; [exact Hrun|].
  apply Forall_fmap. eapply Forall_impl; [exact Hall|]. intros g [Hg Hlen].
  pose proof (js_split_join is_space 32 is_space_32 g Hg) as Hround.
  unfold compose. rewrite (chunkText_one_piece (js_join [32] g) w) by (rewrite Hround; lia).
  now rewrite Hround.
Qed.

Lemma chunkText_idempotent_witness :
  0 < 2 /\
  exists pieces,
    chunkText (js "the quick  brown fox jumps") 2 = Some pieces /\
    Forall (fun p => chunkText p 2 = Some [p]) pieces.
Proof. split; [lia | apply (chunkText_idempotent (js "the quick  brown fox jumps") 2); lia]. Defined.

Lemma js_join_chars (P : Z -> Prop) (sp : Z) (l : list jsstring) :
  P sp -> Forall (Forall P) l -> Forall P (js_join [sp] l).
Proof.
  intros Hsp. induction 1 as [|u rest Hu _ IH]; [constructor|].
  destruct rest as [|v rest]; [exact Hu|].
  change (js_join [sp] (u :: v :: rest)) with (u ++ [sp] ++ js_join [sp] (v :: rest)).
  apply Forall_app. split; [exact Hu|]. apply Forall_app. split; [|exact IH].
  now repeat constructor.
Qed.

(** X10. The pieces are normalised: the only whitespace character a piece
    holds is U+0020 (tabs, line breaks and the other separators of the text
    are replaced by the single spaces that join the words). *)
Theorem chunkText_whitespace (text : jsstring) (w : Z) :
  0 < w ->
  exists pieces,
    chunkText text w = Some pieces /\
    Forall (fun p => Forall (fun c => is_space c = true -> c = 32) p) pieces.
Proof.
  intros Hw. destruct (chunkText_groups text w Hw) as (groups & Hrun & _ & Hall).
  exists (map (js_join [32]) groups). split; [exact Hrun|].
  apply Forall_fmap. eapply Forall_impl; [exact Hall|]. intros g [Hg _].
  unfold compose. apply js_join_chars; [reflexivity|].
  eapply Forall_impl; [apply (split_pieces_no_sep _ _ Hg)|]. intros u Hu.
  eapply Forall_impl; [exact Hu|]. cbv beta. intros c Hc Hs. congruence.
Qed.

Lemma chunkText_whitespace_witness :
  0 < 2 /\
  exists pieces,
    chunkText (js "the quick  brown fox jumps") 2 = Some pieces /\
    Forall (fun p => Forall (fun c => is_space c = true -> c = 32) p) pieces.
Proof. split; [lia | apply (chunkText_whitespace (js "the quick  brown fox jumps") 2); lia]. Defined.

Lemma split_runs_nonempty (sep : Z -> bool) (s : jsstring) :
  forall in_sep cur, split_runs sep in_sep cur s <> [].
Proof.
  induction s as [|c s IH]; intros in_sep cur; cbn [split_runs]; [discriminate|].
  destruct (sep c); [destruct in_sep|]; [apply IH | discriminate | apply IH].
Qed.

Lemma js_join_cons (sep u : jsstring) (l : list jsstring) :
  l <> [] -> js_join sep (u :: l) = u ++ sep ++ js_join sep l.
Proof. destruct l; [congruence | reflexivity]. Qed.

(** Joining the split of a single-spaced text gives the text back. *)
Lemma js_join_split_runs (s : jsstring) :
  (forall cur, single_spaced false s ->
     js_join [32] (split_runs is_space false cur s) = rev cur ++ s) /\
  (single_spaced true s -> js_join [32] (split_runs is_space true [] s) = s).
Proof.
  induction s as [|c s [IHa IHb]]; [split; intros; cbn; now rewrite ?app_nil_r|].
  split.
  - intros cur Hs. cbn [single_spaced split_runs] in *. destruct (is_space c).
    + destruct Hs as (-> & _ & Hs).
      rewrite js_join_cons by apply split_runs_nonempty. now rewrite IHb.
    + rewrite IHa by exact Hs. cbn [rev]. now rewrite <- app_assoc.
  - intros Hs. cbn [single_spaced split_runs] in *. destruct (is_space c).
    + destruct Hs as (_ & Habs & _). discriminate.
    + now rewrite IHa.
Qed.

(** X11. A single-spaced text of at most [w] words is returned as it is, as
    the one piece. *)
Theorem chunkText_single_spaced (text : jsstring) (w : Z) :
  single_spaced false text ->
  Z.of_nat (length (js_split is_space text)) <= w ->
  js_join [32] (js_split is_space text) = text /\
  chunkText text w = Some [text].
Proof.
  intros Hs Hw.
  assert (Hjoin : js_join [32] (js_split is_space text) = text)
    by (apply (proj1 (js_join_split_runs text) []); exact Hs).
  split; [exact Hjoin|]. rewrite chunkText_one_piece by exact Hw. now rewrite Hjoin.
Qed.

Lemma chunkText_single_spaced_witness :
  single_spaced false (js "orbital capacity grows") /\
  Z.of_nat (length (js_split is_space (js "orbital capacity grows"))) <= 250 /\
  js_join [32] (js_split is_space (js "orbital capacity grows")) = js "orbital capacity grows" /\
  chunkText (js "orbital capacity grows") 250 = Some [js "orbital capacity grows"].
Proof.
  assert (Hs : single_spaced false (js "orbital capacity grows")) by (vm_compute; repeat split).
  assert (Hw : Z.of_nat (length (js_split is_space (js "orbital capacity grows"))) <= 250)
    by (vm_compute; discriminate).
  split; [exact Hs|]. split; [exact Hw|].
  apply (chunkText_single_spaced (js "orbital capacity grows") 250 Hs Hw).
Defined.

(** ** More on [calculateSimilarity] *)





Section SimilarityMore.

Variable toLowerCase : jsstring -> jsstring.






End SimilarityMore.

Lemma ascii_toLowerCase_idempotent (s : jsstring) :
  ascii_toLowerCase (ascii_toLowerCase s) = ascii_toLowerCase s.
Proof.
  unfold ascii_toLowerCase. rewrite map_map. apply map_ext. intros c.
  destruct ((65 <=? c) && (c <=? 90)) eqn:E.
  - apply andb_true_iff in E as [E1 E2]. apply Z.leb_le in E1, E2.
    destruct (Z.leb_spec 65 (c + 32)), (Z.leb_spec (c + 32) 90); cbn [andb];
      try reflexivity; lia.
  - now rewrite E.
Qed.




(** ** More on [queryLibrary] *)

Lemma js_slice_prefix_length {A} (arr : list A) (end_ : Z) :
  Z.of_nat (length (js_slice arr 0 end_))
  = if end_ <? 0 then Z.max (Z.of_nat (length arr) + end_) 0
    else Z.min end_ (Z.of_nat (length arr)).
Proof.
  unfold js_slice. change (0 <? 0) with false. cbv iota.
  rewrite (Z.min_l 0) by lia. change (Z.to_nat 0) with 0%nat. rewrite drop_0, Z.sub_0_r.
  rewrite length_take. destruct (Z.ltb_spec end_ 0); lia.
Qed.


Section QueryMore.

Variable toLowerCase : jsstring -> jsstring.

(** [queryLibrary] returns the start of the ranking of all the chunks,
    whatever [topK]. *)
Lemma queryLibrary_slice (library : KnowledgeLibrary) (query : jsstring) (topK : Z) :
  exists all : list (nat * CompressedChunk),
    Permutation all (combine (seq 0 (length (chunks library))) (chunks library)) /\
    StronglySorted (ranks_before (calculateSimilarity toLowerCase query)) all /\
    queryLibrary toLowerCase library query topK = map snd (js_slice all 0 topK).
Proof.
  set (cs := chunks library).
  set (mk := fun c => {| chunk := c; score := calculateSimilarity toLowerCase query c |}).
  set (indexed := combine (seq 0 (length cs)) cs).
  exists (js_sort (desc (calculateSimilarity toLowerCase query)) indexed).
  split; [apply js_sort_perm|]. split; [apply js_sort_ranked, indexed_ascending|].
  unfold queryLibrary. fold cs mk.
  rewrite <- (map_snd_indexed cs 0) at 1. fold indexed. rewrite map_map, js_sort_map.
  unfold js_slice. rewrite !length_map, skipn_map, firstn_map, map_map. reflexivity.
Qed.

(** X15. For any integer [topK], [queryLibrary] returns [min topK n] chunks
    when [topK >= 0] and [max (n + topK) 0] when [topK < 0] (a negative
    [topK] drops that many chunks from the end of the ranking). *)
Theorem queryLibrary_length (library : KnowledgeLibrary) (query : jsstring) (topK : Z) :
  Z.of_nat (length (queryLibrary toLowerCase library query topK))
  = if topK <? 0 then Z.max (Z.of_nat (length (chunks library)) + topK) 0
    else Z.min topK (Z.of_nat (length (chunks library))).
Proof.
  destruct (queryLibrary_slice library query topK) as (all & Hperm & _ & ->).
  rewrite length_map, js_slice_prefix_length, (Permutation_length Hperm).
  now rewrite length_combine, length_seq, Nat.min_id.
Qed.


(** X17. With [topK] at least the number of chunks, [queryLibrary] returns
    all the chunks of the library, rearranged. *)
Theorem queryLibrary_all (library : KnowledgeLibrary) (query : jsstring) (topK : Z) :
  Z.of_nat (length (chunks library)) <= topK ->
  Permutation (queryLibrary toLowerCase library query topK) (chunks library).
Proof.
  intros Hk. destruct (queryLibrary_slice library query topK) as (all & Hperm & _ & ->).
  assert (Hlen : length all = length (chunks library)).
  { rewrite (Permutation_length Hperm), length_combine, length_seq. lia. }
  rewrite <- (Z2Nat.id topK) by lia. rewrite js_slice_prefix, take_ge by lia.
  rewrite Hperm. now rewrite map_snd_indexed.
Qed.

End QueryMore.


Lemma queryLibrary_all_witness :
  Z.of_nat (length (chunks sample_library)) <= 8 /\
  Permutation (queryLibrary ascii_toLowerCase sample_library (js "Orbital capacity") 8)
              (chunks sample_library).
Proof.
  assert (Hk : Z.of_nat (length (chunks sample_library)) <= 8) by (vm_compute; discriminate).
  split; [exact Hk|].
  apply (queryLibrary_all ascii_toLowerCase sample_library (js "Orbital capacity") 8 Hk).
Defined.

(** ** Successive queries on the heap *)

Section QueryHeapMore.

Variable toLowerCase : jsstring -> jsstring.

(** X18. Two queries in a row both succeed; they return two different new
    arrays, the second query leaves the result of the first as it was, and
    the library's own array of chunks is still the one it had. *)
Theorem queryLibrary_heap_twice (h : heap) (library cs_loc : loc) (lib : KnowledgeLibrary)
    (query1 query2 : jsstring) (topK1 topK2 : Z) :
  h !! library
  = Some (LibraryObject (name lib) cs_loc (total_compression_ratio lib)
                        (library_created_at lib) (updated_at lib)) ->
  h !! cs_loc = Some (ChunkArray (chunks lib)) ->
  exists result1 h1 result2 h2,
    queryLibrary_heap toLowerCase library query1 topK1 h = Some (result1, h1) /\
    queryLibrary_heap toLowerCase library query2 topK2 h1 = Some (result2, h2) /\
    result1 <> result2 /\
    h2 !! result1 = Some (ChunkArray (queryLibrary toLowerCase lib query1 topK1)) /\
    h2 !! result2 = Some (ChunkArray (queryLibrary toLowerCase lib query2 topK2)) /\
    h2 !! cs_loc = Some (ChunkArray (chunks lib)).
Proof.
  intros Hlib Hcs.
  destruct (queryLibrary_heap_run toLowerCase h library cs_loc lib (chunks lib) query1 topK1
              Hlib Hcs) as (sorted1 & Hrun1).
  set (h1 := h ++ [ScoredArray sorted1; ScoredArray (js_slice sorted1 0 topK1);
                   ChunkArray (queryLibrary toLowerCase lib query1 topK1)]) in *.
  assert (Hlib1 : h1 !! library
                  = Some (LibraryObject (name lib) cs_loc (total_compression_ratio lib)
                                        (library_created_at lib) (updated_at lib)))
    by (now apply lookup_app_l_Some).
  assert (Hcs1 : h1 !! cs_loc = Some (ChunkArray (chunks lib))) by (now apply lookup_app_l_Some).
  destruct (queryLibrary_heap_run toLowerCase h1 library cs_loc lib (chunks lib) query2 topK2
              Hlib1 Hcs1) as (sorted2 & Hrun2).
  assert (Hr1 : h1 !! S (S (length h))
                = Some (ChunkArray (queryLibrary toLowerCase lib query1 topK1))).
  { unfold h1. rewrite lookup_app_r by lia.
    replace (S (S (length h)) - length h)%nat with 2%nat by lia. reflexivity. }
  assert (Hlen1 : length h1 = (length h + 3)%nat) by (unfold h1; rewrite length_app; reflexivity).
  eexists _, _, _, _. split; [exact Hrun1|]. split; [exact Hrun2|].
  split; [lia|]. split; [now apply lookup_app_l_Some|]. split; [|now apply lookup_app_l_Some].
  rewrite lookup_app_r by lia. replace (S (S (length h1)) - length h1)%nat with 2%nat by lia.
  reflexivity.
Qed.

End QueryHeapMore.

Lemma queryLibrary_heap_twice_witness :
  sample_heap !! 1%nat
  = Some (LibraryObject (name sample_library) 0%nat (total_compression_ratio sample_library)
                        (library_created_at sample_library) (updated_at sample_library)) /\
  sample_heap !! 0%nat = Some (ChunkArray (chunks sample_library)) /\
  exists result1 h1 result2 h2,
    queryLibrary_heap ascii_toLowerCase 1%nat (js "Orbital capacity") 2 sample_heap
    = Some (result1, h1) /\
    queryLibrary_heap ascii_toLowerCase 1%nat (js "zzzz") 3 h1 = Some (result2, h2) /\
    result1 <> result2 /\
    h2 !! result1
    = Some (ChunkArray (queryLibrary ascii_toLowerCase sample_library (js "Orbital capacity") 2)) /\
    h2 !! result2
    = Some (ChunkArray (queryLibrary ascii_toLowerCase sample_library (js "zzzz") 3)) /\
    h2 !! 0%nat = Some (ChunkArray (chunks sample_library)).
Proof.
  split; [reflexivity|]. split; [reflexivity|].
  apply (queryLibrary_heap_twice ascii_toLowerCase sample_heap 1%nat 0%nat sample_library
           (js "Orbital capacity") (js "zzzz") 2 3); reflexivity.
Defined.

(** ** More on [LibraryStorage] *)

(** X19. A library saved is the one [get] finds under its name, [exists]
    says so, and the libraries under other names are as before. *)
Theorem save_get (library : KnowledgeLibrary) (libraries : gmap jsstring KnowledgeLibrary) :
  LibraryStorage.get (name library) (LibraryStorage.save library libraries) = Some library /\
  LibraryStorage.exists_ (name library) (LibraryStorage.save library libraries) = true /\
  forall other, other <> name library ->
    LibraryStorage.get other (LibraryStorage.save library libraries)
    = LibraryStorage.get other libraries.
Proof.
  unfold LibraryStorage.get, LibraryStorage.exists_, LibraryStorage.save.
  rewrite lookup_insert_eq. split; [reflexivity|]. split.
  - apply bool_decide_eq_true. now exists library.
  - intros other Hne. now rewrite lookup_insert_ne.
Qed.

(** X20. Saving under a name already in use replaces the library (the last
    one saved wins) and leaves the count as it was; saving under a new name
    adds one to the count. *)
Theorem save_replaces (first second : KnowledgeLibrary)
    (libraries : gmap jsstring KnowledgeLibrary) :
  name first = name second ->
  LibraryStorage.save second (LibraryStorage.save first libraries)
  = LibraryStorage.save second libraries /\
  LibraryStorage.count (LibraryStorage.save second (LibraryStorage.save first libraries))
  = LibraryStorage.count (LibraryStorage.save first libraries) /\
  LibraryStorage.count (LibraryStorage.save first libraries)
  = if LibraryStorage.exists_ (name first) libraries
    then LibraryStorage.count libraries
    else LibraryStorage.count libraries + 1.
Proof.
  intros Hname. unfold LibraryStorage.save, LibraryStorage.count, LibraryStorage.exists_.
  rewrite <- Hname. split; [apply insert_insert_eq|]. split.
  - rewrite map_size_insert_Some; [reflexivity|]. rewrite lookup_insert_eq. now eexists.
  - rewrite map_size_insert. destruct (libraries !! name first) as [old|] eqn:E.
    + rewrite bool_decide_eq_true_2 by (now eexists). reflexivity.
    + rewrite bool_decide_eq_false_2 by (now intros [? ?]). lia.
Qed.

Lemma save_replaces_witness :
  name demo_library = name sample_library /\
  LibraryStorage.save sample_library (LibraryStorage.save demo_library LibraryStorage.empty)
  = LibraryStorage.save sample_library LibraryStorage.empty /\
  LibraryStorage.count
    (LibraryStorage.save sample_library (LibraryStorage.save demo_library LibraryStorage.empty))
  = LibraryStorage.count (LibraryStorage.save demo_library LibraryStorage.empty) /\
  LibraryStorage.count (LibraryStorage.save demo_library LibraryStorage.empty)
  = if LibraryStorage.exists_ (name demo_library) LibraryStorage.empty
    then LibraryStorage.count LibraryStorage.empty
    else LibraryStorage.count LibraryStorage.empty + 1.
Proof.
  split; [reflexivity|].
  apply (save_replaces demo_library sample_library LibraryStorage.empty). reflexivity.
Defined.

(** X21. After [delete] the name is gone, the libraries under other names
    are as before, and the count went down by one exactly when [delete]
    answered [true]; deleting a library just saved under a new name gives
    back the store as it was. *)
Theorem delete_get (lib_name : jsstring) (library : KnowledgeLibrary)
    (libraries : gmap jsstring KnowledgeLibrary) :
  LibraryStorage.get lib_name (snd (LibraryStorage.delete lib_name libraries)) = None /\
  (forall other, other <> lib_name ->
     LibraryStorage.get other (snd (LibraryStorage.delete lib_name libraries))
     = LibraryStorage.get other libraries) /\
  LibraryStorage.count (snd (LibraryStorage.delete lib_name libraries))
  = LibraryStorage.count libraries
    - (if fst (LibraryStorage.delete lib_name libraries) then 1 else 0) /\
  (LibraryStorage.get (name library) libraries = None ->
   LibraryStorage.delete (name library) (LibraryStorage.save library libraries)
   = (true, libraries)).
Proof.
  unfold LibraryStorage.get, LibraryStorage.delete, LibraryStorage.count, LibraryStorage.save.
  cbn [fst snd]. split; [apply lookup_delete_eq|]. split; [|split].
  - intros other Hne. now apply lookup_delete_ne.
  - rewrite map_size_delete. destruct (libraries !! lib_name) as [old|] eqn:E.
    + rewrite bool_decide_eq_true_2 by (now eexists).
      assert (size libraries <> 0%nat) by (apply map_size_ne_0_lookup_2 with lib_name; exists old; exact E).
      lia.
    + rewrite bool_decide_eq_false_2 by (now intros [? ?]). cbn. lia.
  - intros Hnone. f_equal.
    + apply bool_decide_eq_true. rewrite lookup_insert_eq. now eexists.
    + rewrite delete_insert_eq. now apply delete_id.
Qed.

(** ** The ordered store *)

Lemma ordered_set_keys (key : jsstring) (value : KnowledgeLibrary)
    (entries : list (jsstring * KnowledgeLibrary)) :
  map fst (OrderedStorage.set key value entries)
  = if decide (key ∈ map fst entries) then map fst entries else map fst entries ++ [key].
Proof.
  induction entries as [|[k v] rest IH]; cbn [OrderedStorage.set map fst app].
  - destruct (decide (key ∈ [])) as [Hin | _]; [inversion Hin | reflexivity].
  - destruct (decide (k = key)) as [-> | Hne]; cbn [map fst].
    + rewrite decide_True by apply list_elem_of_here. reflexivity.
    + rewrite IH. destruct (decide (key ∈ map fst rest)) as [Hin | Hnin].
      * rewrite decide_True by (now apply list_elem_of_further). reflexivity.
      * rewrite decide_False; [reflexivity|].
        intros Hin. apply elem_of_cons in Hin as [-> | Hin]; [congruence | contradiction].
Qed.

Lemma ordered_get_view (key : jsstring) (entries : list (jsstring * KnowledgeLibrary)) :
  OrderedStorage.get key entries = OrderedStorage.view entries !! key.
Proof.
  unfold OrderedStorage.view. induction entries as [|[k v] rest IH]; cbn [OrderedStorage.get].
  - now rewrite list_to_map_nil, lookup_empty.
  - rewrite list_to_map_cons. destruct (decide (k = key)) as [-> | Hne].
    + now rewrite lookup_insert_eq.
    + now rewrite lookup_insert_ne.
Qed.

Lemma ordered_set_view (key : jsstring) (value : KnowledgeLibrary)
    (entries : list (jsstring * KnowledgeLibrary)) :
  OrderedStorage.view (OrderedStorage.set key value entries)
  = <[key := value]> (OrderedStorage.view entries).
Proof.
  unfold OrderedStorage.view. induction entries as [|[k v] rest IH]; cbn [OrderedStorage.set].
  - reflexivity.
  - destruct (decide (k = key)) as [-> | Hne]; rewrite !list_to_map_cons.
    + now rewrite insert_insert_eq.
    + rewrite IH. now apply insert_insert_ne.
Qed.

Lemma filter_absent_key (key : jsstring) (entries : list (jsstring * KnowledgeLibrary)) :
  key ∉ map fst entries -> filter (fun e => fst e <> key) entries = entries.
Proof.
  induction entries as [|[k v] rest IH]; intros Hnin; [reflexivity|].
  cbn [map fst] in Hnin. apply not_elem_of_cons in Hnin as [Hne Hnin].
  rewrite filter_cons. cbn [fst]. rewrite decide_True by congruence. now rewrite IH.
Qed.

Lemma ordered_delete_filter (key : jsstring) (entries : list (jsstring * KnowledgeLibrary)) :
  NoDup (map fst entries) ->
  snd (OrderedStorage.delete key entries) = filter (fun e => fst e <> key) entries.
Proof.
  induction entries as [|[k v] rest IH]; intros Hnd; [reflexivity|].
  cbn [map fst] in Hnd. apply NoDup_cons in Hnd as [Hk Hnd].
  cbn [OrderedStorage.delete]. rewrite filter_cons. cbn [fst].
  destruct (decide (k = key)) as [-> | Hne]; cbn [snd].
  - rewrite decide_False by (intros H; now apply H). symmetry. now apply filter_absent_key.
  - rewrite decide_True by exact Hne. now rewrite IH.
Qed.

Lemma ordered_delete_found (key : jsstring) (entries : list (jsstring * KnowledgeLibrary)) :
  fst (OrderedStorage.delete key entries) = OrderedStorage.exists_ key entries.
Proof.
  unfold OrderedStorage.exists_.
  induction entries as [|[k v] rest IH]; cbn [OrderedStorage.delete OrderedStorage.get].
  - symmetry. apply bool_decide_eq_false. now intros [? ?].
  - destruct (decide (k = key)) as [-> | Hne]; cbn [fst]; [|exact IH].
    symmetry. apply bool_decide_eq_true. now eexists.
Qed.

Lemma ordered_delete_view (key : jsstring) (entries : list (jsstring * KnowledgeLibrary)) :
  NoDup (map fst entries) ->
  OrderedStorage.view (snd (OrderedStorage.delete key entries))
  = base.delete key (OrderedStorage.view entries).
Proof.
  unfold OrderedStorage.view.
  induction entries as [|[k v] rest IH]; intros Hnd; cbn [OrderedStorage.delete].
  - cbn [snd]. rewrite list_to_map_nil. symmetry. apply delete_id, lookup_empty.
  - cbn [map fst] in Hnd. apply NoDup_cons in Hnd as [Hk Hnd].
    rewrite list_to_map_cons. destruct (decide (k = key)) as [-> | Hne]; cbn [snd].
    + rewrite delete_insert_eq. symmetry. apply delete_id.
      now apply not_elem_of_list_to_map_1.
    + rewrite list_to_map_cons, IH by exact Hnd. symmetry. now apply delete_insert_ne.
Qed.

Lemma ordered_set_Forall (P : jsstring * KnowledgeLibrary -> Prop) (key : jsstring)
    (value : KnowledgeLibrary) (entries : list (jsstring * KnowledgeLibrary)) :
  P (key, value) -> Forall P entries -> Forall P (OrderedStorage.set key value entries).
Proof.
  intros Hnew. induction 1 as [|[k v] rest Hkv Hrest IH]; cbn [OrderedStorage.set].
  - now repeat constructor.
  - destruct (decide (k = key)); constructor; assumption.
Qed.

Lemma ordered_save_well_formed (library : KnowledgeLibrary)
    (entries : list (jsstring * KnowledgeLibrary)) :
  OrderedStorage.well_formed entries ->
  OrderedStorage.well_formed (OrderedStorage.save library entries).
Proof.
  intros [Hnd Hnames]. unfold OrderedStorage.save. split.
  - rewrite ordered_set_keys. destruct (decide (name library ∈ map fst entries)); [exact Hnd|].
    apply NoDup_app. split; [exact Hnd|]. split; [|apply NoDup_singleton].
    intros k Hk Hk'. apply list_elem_of_singleton in Hk'. congruence.
  - now apply ordered_set_Forall.
Qed.

Lemma ordered_delete_well_formed (key : jsstring) (entries : list (jsstring * KnowledgeLibrary)) :
  OrderedStorage.well_formed entries ->
  OrderedStorage.well_formed (snd (OrderedStorage.delete key entries)).
Proof.
  intros [Hnd Hnames]. rewrite ordered_delete_filter by exact Hnd. split.
  - eapply sublist_NoDup; [exact Hnd|]. apply (fmap_sublist fst), sublist_filter.
  - apply Forall_forall. intros e He. apply list_elem_of_filter in He as [_ He].
    revert e He. now apply Forall_forall.
Qed.

Lemma ordered_list_names (entries : list (jsstring * KnowledgeLibrary)) :
  Forall (fun e => fst e = name (snd e)) entries ->
  map name (OrderedStorage.list entries) = map fst entries.
Proof.
  unfold OrderedStorage.list. induction 1 as [|[k v] rest Hkv _ IH]; [reflexivity|].
  cbn [map fst snd] in *. now rewrite IH, Hkv.
Qed.

(** X22. The store keeps its shape: after [save] and after [delete] every
    name still occurs once and every library stands under its own name; so
    [list()] never shows two libraries of the same name. *)
Theorem ordered_storage_invariant (library : KnowledgeLibrary) (key : jsstring)
    (entries : list (jsstring * KnowledgeLibrary)) :
  OrderedStorage.well_formed entries ->
  OrderedStorage.well_formed (OrderedStorage.save library entries) /\
  OrderedStorage.well_formed (snd (OrderedStorage.delete key entries)) /\
  OrderedStorage.well_formed (OrderedStorage.clear entries) /\
  NoDup (map name (OrderedStorage.list entries)).
Proof.
  intros Hwf. split; [now apply ordered_save_well_formed|].
  split; [now apply ordered_delete_well_formed|]. split.
  - split; constructor.
  - destruct Hwf as [Hnd Hnames]. now rewrite ordered_list_names.
Qed.

Lemma ordered_count_view (entries : list (jsstring * KnowledgeLibrary)) :
  NoDup (map fst entries) ->
  OrderedStorage.count entries = LibraryStorage.count (OrderedStorage.view entries).
Proof.
  intros Hnd. unfold OrderedStorage.count, LibraryStorage.count, OrderedStorage.view.
  rewrite <- length_map_to_list. f_equal. symmetry. apply Permutation_length.
  now apply map_to_list_to_map.
Qed.

(** X23. With the order forgotten, the ordered store is the map of
    [LibraryStorage]: [save], [delete] (answer and store), [get], [exists]
    and [count] give the same on both. *)
Theorem ordered_storage_refines (library : KnowledgeLibrary) (key : jsstring)
    (entries : list (jsstring * KnowledgeLibrary)) :
  OrderedStorage.well_formed entries ->
  OrderedStorage.view (OrderedStorage.save library entries)
  = LibraryStorage.save library (OrderedStorage.view entries) /\
  (fst (OrderedStorage.delete key entries),
   OrderedStorage.view (snd (OrderedStorage.delete key entries)))
  = LibraryStorage.delete key (OrderedStorage.view entries) /\
  OrderedStorage.get key entries = LibraryStorage.get key (OrderedStorage.view entries) /\
  OrderedStorage.exists_ key entries = LibraryStorage.exists_ key (OrderedStorage.view entries) /\
  OrderedStorage.count entries = LibraryStorage.count (OrderedStorage.view entries).
Proof.
  intros [Hnd _]. split; [apply ordered_set_view|]. split; [|split; [|split]].
  - unfold LibraryStorage.delete. f_equal; [|now apply ordered_delete_view].
    rewrite ordered_delete_found. unfold OrderedStorage.exists_. now rewrite ordered_get_view.
  - apply ordered_get_view.
  - unfold OrderedStorage.exists_, LibraryStorage.exists_. now rewrite ordered_get_view.
  - now apply ordered_count_view.
Qed.

Lemma ordered_set_lookup (key : jsstring) (value : KnowledgeLibrary)
    (entries : list (jsstring * KnowledgeLibrary)) :
  NoDup (map fst entries) ->
  forall (i : nat) k v,
    entries !! i = Some (k, v) ->
    OrderedStorage.set key value entries !! i
    = Some (if decide (k = key) then (key, value) else (k, v)).
Proof.
  induction entries as [|[k0 v0] rest IH]; intros Hnd i k v Hi; [inversion Hi|].
  cbn [map fst] in Hnd. apply NoDup_cons in Hnd as [Hk0 Hnd]. cbn [OrderedStorage.set].
  destruct i as [|i]; cbn [lookup list_lookup] in Hi.
  - injection Hi as -> ->. now destruct (decide (k = key)).
  - destruct (decide (k0 = key)) as [-> | Hne]; cbn [lookup list_lookup].
    + rewrite Hi. rewrite decide_False; [reflexivity|]. intros ->. apply Hk0.
      apply list_elem_of_fmap. exists (key, v). split; [reflexivity|].
      eapply list_elem_of_lookup_2; exact Hi.
    + now apply IH.
Qed.

(** X24. [list()] keeps the order of insertion: a library saved under a new
    name comes last; one saved under a name in use takes the place of the
    library it replaces, every other library staying where it was. *)
Theorem ordered_save_list (library : KnowledgeLibrary)
    (entries : list (jsstring * KnowledgeLibrary)) :
  OrderedStorage.well_formed entries ->
  (OrderedStorage.get (name library) entries = None ->
   OrderedStorage.list (OrderedStorage.save library entries)
   = OrderedStorage.list entries ++ [library]) /\
  (is_Some (OrderedStorage.get (name library) entries) ->
   length (OrderedStorage.list (OrderedStorage.save library entries))
   = length (OrderedStorage.list entries) /\
   forall (i : nat) (old : KnowledgeLibrary),
     OrderedStorage.list entries !! i = Some old ->
     OrderedStorage.list (OrderedStorage.save library entries) !! i
     = Some (if decide (name old = name library) then library else old)).
Proof.
  intros [Hnd Hnames]. unfold OrderedStorage.save, OrderedStorage.list. split.
  - intros Hnone. clear Hnd Hnames.
    induction entries as [|[k v] rest IH]; [reflexivity|].
    cbn [OrderedStorage.get OrderedStorage.set] in *.
    destruct (decide (k = name library)); [discriminate|]. cbn [map snd app]. now rewrite IH.
  - intros Hsome. split.
    + rewrite !length_map.
      assert (Hkeys := ordered_set_keys (name library) library entries).
      rewrite decide_True in Hkeys.
      * apply (f_equal (@length jsstring)) in Hkeys. now rewrite !length_map in Hkeys.
      * rewrite ordered_get_view in Hsome. destruct Hsome as [old Hold].
        apply elem_of_list_to_map_2 in Hold. apply list_elem_of_fmap.
        exists (name library, old). split; [reflexivity | exact Hold].
    + intros i old Hi. rewrite list_lookup_fmap in Hi.
      destruct (entries !! i) as [[k v]|] eqn:Ei; [|discriminate]. injection Hi as ->.
      rewrite list_lookup_fmap, (ordered_set_lookup _ _ _ Hnd i k old Ei).
      assert (Hk : k = name old) by (apply (Forall_lookup_1 _ _ _ _ Hnames Ei)).
      subst k. now destruct (decide (name old = name library)).
Qed.

Lemma ordered_filter_names (key : jsstring) (entries : list (jsstring * KnowledgeLibrary)) :
  Forall (fun e => fst e = name (snd e)) entries ->
  map snd (filter (fun e => fst e <> key) entries)
  = filter (fun l => name l <> key) (map snd entries).
Proof.
  induction 1 as [|[k v] rest Hkv _ IH]; [reflexivity|]. cbn [fst snd map] in *.
  rewrite !filter_cons. cbn [fst]. subst k.
  destruct (decide (name v <> key)); cbn [map snd]; now rewrite IH.
Qed.

(** X25. [delete] takes one library out of [list()] and leaves the others in
    their order; saving it again afterwards puts it last. *)
Theorem ordered_delete_list (library : KnowledgeLibrary)
    (entries : list (jsstring * KnowledgeLibrary)) :
  OrderedStorage.well_formed entries ->
  OrderedStorage.list (snd (OrderedStorage.delete (name library) entries))
  = filter (fun l => name l <> name library) (OrderedStorage.list entries) /\
  OrderedStorage.list
    (OrderedStorage.save library (snd (OrderedStorage.delete (name library) entries)))
  = filter (fun l => name l <> name library) (OrderedStorage.list entries) ++ [library].
Proof.
  intros [Hnd Hnames].
  assert (Hlist : OrderedStorage.list (snd (OrderedStorage.delete (name library) entries))
                  = filter (fun l => name l <> name library) (OrderedStorage.list entries)).
  { unfold OrderedStorage.list. rewrite ordered_delete_filter by exact Hnd.
    now apply ordered_filter_names. }
  split; [exact Hlist|]. rewrite <- Hlist.
  assert (Hgone : OrderedStorage.get (name library)
                    (snd (OrderedStorage.delete (name library) entries)) = None).
  { rewrite ordered_get_view, ordered_delete_view by exact Hnd. apply lookup_delete_eq. }
  revert Hgone. generalize (snd (OrderedStorage.delete (name library) entries)).
  intros rest Hgone. unfold OrderedStorage.save, OrderedStorage.list.
  induction rest as [|[k v] rest IH]; [reflexivity|].
  cbn [OrderedStorage.get OrderedStorage.set] in *.
  destruct (decide (k = name library)); [discriminate|]. cbn [map snd app]. now rewrite IH.
Qed.

Lemma sample_entries_well_formed : OrderedStorage.well_formed sample_entries.
Proof. do 2 apply ordered_save_well_formed. split; constructor. Qed.

(** Saving under the name in use replaces in place; deleting and saving
    again moves to the end. *)
Example ordered_list_order :
  OrderedStorage.list sample_entries = [notes_library; demo_library] /\
  map name (OrderedStorage.list (OrderedStorage.save notes_library sample_entries))
  = [js "notes"; js "demo"] /\
  map name (OrderedStorage.list
              (OrderedStorage.save notes_library
                 (snd (OrderedStorage.delete (js "notes") sample_entries))))
  = [js "demo"; js "notes"].
Proof. repeat split. Qed.

Lemma ordered_storage_invariant_witness :
  OrderedStorage.well_formed sample_entries /\
  OrderedStorage.well_formed (OrderedStorage.save sample_library sample_entries) /\
  OrderedStorage.well_formed (snd (OrderedStorage.delete (js "notes") sample_entries)) /\
  OrderedStorage.well_formed (OrderedStorage.clear sample_entries) /\
  NoDup (map name (OrderedStorage.list sample_entries)).
Proof.
  split; [exact sample_entries_well_formed|].
  apply (ordered_storage_invariant sample_library (js "notes") sample_entries
           sample_entries_well_formed).
Defined.

Lemma ordered_storage_refines_witness :
  OrderedStorage.well_formed sample_entries /\
  OrderedStorage.view (OrderedStorage.save sample_library sample_entries)
  = LibraryStorage.save sample_library (OrderedStorage.view sample_entries) /\
  (fst (OrderedStorage.delete (js "notes") sample_entries),
   OrderedStorage.view (snd (OrderedStorage.delete (js "notes") sample_entries)))
  = LibraryStorage.delete (js "notes") (OrderedStorage.view sample_entries) /\
  OrderedStorage.get (js "notes") sample_entries
  = LibraryStorage.get (js "notes") (OrderedStorage.view sample_entries) /\
  OrderedStorage.exists_ (js "notes") sample_entries
  = LibraryStorage.exists_ (js "notes") (OrderedStorage.view sample_entries) /\
  OrderedStorage.count sample_entries = LibraryStorage.count (OrderedStorage.view sample_entries).
Proof.
  split; [exact sample_entries_well_formed|].
  apply (ordered_storage_refines sample_library (js "notes") sample_entries
           sample_entries_well_formed).
Defined.

Lemma ordered_save_list_witness :
  OrderedStorage.well_formed sample_entries /\
  (OrderedStorage.get (name sample_library) sample_entries = None ->
   OrderedStorage.list (OrderedStorage.save sample_library sample_entries)
   = OrderedStorage.list sample_entries ++ [sample_library]) /\
  (is_Some (OrderedStorage.get (name sample_library) sample_entries) ->
   length (OrderedStorage.list (OrderedStorage.save sample_library sample_entries))
   = length (OrderedStorage.list sample_entries) /\
   forall (i : nat) (old : KnowledgeLibrary),
     OrderedStorage.list sample_entries !! i = Some old ->
     OrderedStorage.list (OrderedStorage.save sample_library sample_entries) !! i
     = Some (if decide (name old = name sample_library) then sample_library else old)).
Proof.
  split; [exact sample_entries_well_formed|].
  apply (ordered_save_list sample_library sample_entries sample_entries_well_formed).
Defined.

Lemma ordered_delete_list_witness :
  OrderedStorage.well_formed sample_entries /\
  OrderedStorage.list (snd (OrderedStorage.delete (name notes_library) sample_entries))
  = filter (fun l => name l <> name notes_library) (OrderedStorage.list sample_entries) /\
  OrderedStorage.list
    (OrderedStorage.save notes_library
       (snd (OrderedStorage.delete (name notes_library) sample_entries)))
  = filter (fun l => name l <> name notes_library) (OrderedStorage.list sample_entries)
    ++ [notes_library].
Proof.
  split; [exact sample_entries_well_formed|].
  apply (ordered_delete_list notes_library sample_entries sample_entries_well_formed).
Defined.

(** ** The digest a chunk records, and sizes in bytes *)

Lemma hex_digit_range (n : Z) :
  0 <= n < 16 -> 48 <= hex_digit n <= 57 \/ 97 <= hex_digit n <= 102.
Proof. intros Hn. unfold hex_digit. destruct (Z.ltb_spec n 10); lia. Qed.

Lemma hex_encode_digits (bs : list Z) :
  Forall is_byte bs -> Forall (fun ch => 48 <= ch <= 57 \/ 97 <= ch <= 102) (hex_encode bs).
Proof.
  unfold hex_encode. induction 1 as [|b bs Hb _ IH]; [constructor|].
  destruct (byte_nibbles b Hb) as (Hhi & Hlo & _).
  cbn [flat_map hex_of_byte app].
  constructor; [now apply hex_digit_range|]. constructor; [now apply hex_digit_range | exact IH].
Qed.

(** X26. The hash a chunk records is 64 characters among [0-9a-f]; parsed
    back as hexadecimal it is the 32 bytes of the SHA-256 digest of the
    content; the descriptor records the same string, and the chunk passes
    [verifyIntegrity], whatever [n_max]. *)
Theorem compressChunk_hash_format (text : jsstring) (n_max : Z) (w : World) :
  let c := fst (compressChunk text n_max w) in
  length (hash c) = 64%nat /\
  Forall (fun ch => 48 <= ch <= 57 \/ 97 <= ch <= 102) (hash c) /\
  Buffer_from_hex (hash c) = sha256_bytes text /\
  length (Buffer_from_hex (hash c)) = 32%nat /\
  bit_hash (gravitational_bit c) = hash c /\
  verifyIntegrity c = true.
Proof.
  intros c. subst c. rewrite compressChunk_bit, compressChunk_hash. cbn [bit_hash].
  split; [apply sha256_hex_length|]. split; [apply hex_encode_digits, digest_bytes|].
  split; [apply sha256_hex_decode|]. split; [rewrite sha256_hex_decode; apply sha256_bytes_length|].
  split; [reflexivity|].
  unfold verifyIntegrity, jsstring_eqb. apply bool_decide_eq_true.
  now rewrite compressChunk_content, compressChunk_hash.
Qed.

Lemma utf8_code_point_length (cp : Z) : (1 <= length (utf8_code_point cp))%nat.
Proof.
  unfold utf8_code_point.
  destruct (cp <? 0x80); [cbn; lia|]. destruct (cp <? 0x800); [cbn; lia|].
  destruct (cp <? 0x10000); cbn; lia.
Qed.

Lemma utf8_pair_length (c d : Z) :
  is_high_surrogate c = true -> is_low_surrogate d = true ->
  length (utf8_code_point (0x10000 + Z.shiftl (c - 0xD800) 10 + (d - 0xDC00))) = 4%nat.
Proof.
  unfold is_high_surrogate, is_low_surrogate. intros Hc Hd.
  apply andb_true_iff in Hc as [Hc1 Hc2]. apply andb_true_iff in Hd as [Hd1 Hd2].
  apply Z.leb_le in Hc1, Hc2, Hd1, Hd2.
  assert (0 <= Z.shiftl (c - 0xD800) 10) by (apply Z.shiftl_nonneg; lia).
  unfold utf8_code_point.
  destruct (Z.ltb_spec (0x10000 + Z.shiftl (c - 0xD800) 10 + (d - 0xDC00)) 0x80); [lia|].
  destruct (Z.ltb_spec (0x10000 + Z.shiftl (c - 0xD800) 10 + (d - 0xDC00)) 0x800); [lia|].
  destruct (Z.ltb_spec (0x10000 + Z.shiftl (c - 0xD800) 10 + (d - 0xDC00)) 0x10000); [lia|].
  reflexivity.
Qed.

(** A string has at least as many UTF-8 bytes as UTF-16 code units. *)
Lemma byteLength_ge_length (s : jsstring) : Z.of_nat (length s) <= byteLength s.
Proof.
  unfold byteLength. apply inj_le.
  induction s as [s IH] using (induction_ltof1 _ (@length Z)). unfold ltof in IH.
  destruct s as [|c s']; [cbn; lia|]. cbn [utf8].
  destruct (is_high_surrogate c) eqn:Hc.
  - destruct s' as [|d s''].
    + pose proof (utf8_code_point_length 0xFFFD). cbn [length]. lia.
    + destruct (is_low_surrogate d) eqn:Hd.
      * rewrite length_app, (utf8_pair_length c d Hc Hd).
        specialize (IH s'' ltac:(cbn [length]; lia)). cbn [length] in *. lia.
      * rewrite length_app. pose proof (utf8_code_point_length 0xFFFD).
        specialize (IH (d :: s'') ltac:(cbn [length]; lia)). cbn [length] in *. lia.
  - specialize (IH s' ltac:(cbn [length]; lia)).
    destruct (is_low_surrogate c); rewrite length_app;
      [pose proof (utf8_code_point_length 0xFFFD) | pose proof (utf8_code_point_length c)];
      cbn [length] in *; lia.
Qed.

Lemma fraction_le (a b d : Z) : a <= b -> 0 < d -> (inject_Z a / inject_Z d <= inject_Z b / inject_Z d)%Q.
Proof.
  intros Hab Hd. destruct d as [|p|p]; try lia.
  unfold Qle, Qdiv, Qmult, Qinv, inject_Z. cbn. nia.
Qed.

(** X27. The ratio a library records never exceeds the ratio its text gives
    in bytes, and is equal to it when the text is ASCII. *)
Theorem createLibrary_ratio_bytes (lib_name text : jsstring) (n_max : Z) (w : World) :
  exists lib w',
    createLibrary lib_name text n_max w = Some (lib, w') /\
    (total_compression_ratio lib
     <= inject_Z (byteLength text) / inject_Z (totalCompressedSize (chunks lib)))%Q /\
    (Forall (fun c => 0 <= c < 128) text ->
     total_compression_ratio lib
     = (inject_Z (byteLength text) / inject_Z (totalCompressedSize (chunks lib)))%Q).
Proof.
  destruct (createLibrary_returns lib_name text n_max w)
    as (pieces & lib & w' & Hpieces & Hlib & _ & Hchunks & Hratio).
  exists lib, w'. split; [exact Hlib|]. rewrite Hratio. split.
  - apply fraction_le; [apply byteLength_ge_length|].
    destruct (chunkText_words text 250 ltac:(lia)) as (pieces' & Hrun & _ & Hone & _).
    rewrite Hrun in Hpieces. injection Hpieces as <-.
    rewrite (totalCompressedSize_uniform (Z.to_nat n_max)).
    + rewrite Hchunks, mapM_length. nia.
    + rewrite Hchunks. eapply Forall_impl; [apply (mapM_compressChunk n_max)|].
      cbn. intros c [_ Hc]. exact Hc.
  - intros Hascii. now rewrite byteLength_ascii.
Qed.
